(** * Word-level diarization alignment and scoring (ASR_DIAR_OFFLINE)

    A shallow embedding of the alignment and scoring core of
    [nemo/collections/asr/parts/utils/diarization_utils.py]:

    - the speech-interval merger [_get_speech_labels_from_decoded_prediction],
    - the silence extension [closest_silence_start] and
      [get_enhanced_word_ts_list],
    - the alignment assembler [write_json_and_transcript],
    - the scorer [get_WDER] with [isOverlapArray], [getOverlapRangeArray]
      and [get_effective_WDER].

    Python floats are IEEE 754 binary64 numbers; they are modelled by the
    kernel's primitive floats, so every arithmetic operation and comparison
    below rounds and compares exactly as the interpreter does.  Python
    exceptions are modelled by an error monad, dictionaries by [gmap],
    Python lists by [list]. *)

From Stdlib Require Import Floats ZArith Lia Ascii.
From stdpp Require Import gmap strings list.

Local Open Scope Z_scope.
Set Warnings "-inexact-float".

(** ** Python values and exceptions *)

Module Py.

(** The exceptions the modelled code can raise. *)
Inductive exn : Type :=
| KeyError
| IndexError
| ZeroDivisionError
| ValueError
| OverflowError.

(** A computation that returns a value or raises. *)
Inductive result (A : Type) : Type :=
| Ok (a : A)
| Raise (e : exn).
Arguments Ok {A} a.
Arguments Raise {A} e.

Definition bind {A B : Type} (m : result A) (k : A -> result B) : result B :=
  match m with
  | Ok a => k a
  | Raise e => Raise e
  end.

(** [for x in xs: acc = body(acc, x)] with a body that may raise. *)
Fixpoint for_each {A S : Type} (body : S -> A -> result S) (xs : list A) (acc : S)
  : result S :=
  match xs with
  | [] => Ok acc
  | x :: xs' => bind (body acc x) (for_each body xs')
  end.

(** [enumerate(xs)]. *)
Definition enumerate {A : Type} (xs : list A) : list (nat * A) :=
  imap (fun k x => (k, x)) xs.

(** [xs[i]] for a non-negative index. *)
Definition getitem {A : Type} (xs : list A) (i : nat) : result A :=
  match xs !! i with
  | Some x => Ok x
  | None => Raise IndexError
  end.

(** [xs[i]] for an integer index: negative indices count from the end. *)
Definition getitem_int {A : Type} (xs : list A) (i : Z) : result A :=
  let n := Z.of_nat (length xs) in
  if (0 <=? i) && (i <? n) then getitem xs (Z.to_nat i)
  else if (- n <=? i) && (i <? 0) then getitem xs (Z.to_nat (n + i))
  else Raise IndexError.

(** [d[k]] on a dictionary. *)
Definition getkey {V : Type} (d : gmap string V) (k : string) : result V :=
  match d !! k with
  | Some v => Ok v
  | None => Raise KeyError
  end.

(** [xs.pop(i)] for a non-negative index: the element and the remaining list. *)
Definition pop {A : Type} (xs : list A) (i : nat) : result (A * list A) :=
  match xs !! i with
  | Some x => Ok (x, delete i xs)
  | None => Raise IndexError
  end.

(** [xs.insert(i, x)] for a non-negative index (past the end it appends). *)
Definition insert_at {A : Type} (i : nat) (x : A) (xs : list A) : list A :=
  take i xs ++ x :: drop i xs.

(** *** Floats *)

(** [float(z)] for an integer: the nearest binary64 number. *)
Definition float_of_int (z : Z) : float :=
  SF2Prim (binary_normalize prec emax z 0 false).

(** [int(x)]: truncation toward zero; NaN and the infinities raise. *)
Definition int_of_float (x : float) : result Z :=
  match Prim2SF x with
  | S754_zero _ => Ok 0
  | S754_finite s m e =>
      let a := if 0 <=? e then Zpos m * 2 ^ e else Zpos m / 2 ^ (- e) in
      Ok (if s then - a else a)
  | S754_infinity _ => Raise OverflowError
  | S754_nan => Raise ValueError
  end.

(** Integer quotient [a / d] rounded to nearest, ties to even ([a >= 0], [d > 0]). *)
Definition rne_div (a d : Z) : Z :=
  let q := a / d in
  let r := a mod d in
  match 2 * r ?= d with
  | Lt => q
  | Gt => q + 1
  | Eq => if Z.even q then q else q + 1
  end.

(** [round(x, 2)]: the exact value of [x] is rounded to two decimals
    (half to even) and the decimal [n / 100] is read back as the nearest
    binary64 number; zeros, infinities and NaN are returned unchanged. *)
Definition round2 (x : float) : float :=
  match Prim2SF x with
  | S754_finite s m e =>
      let n := if 0 <=? e then Zpos m * 100 * 2 ^ e
               else rne_div (Zpos m * 100) (2 ^ (- e)) in
      match n with
      | Zpos p => SF2Prim (SFdiv prec emax (S754_finite s p 0) (S754_finite false 100 0))
      | _ => SF2Prim (S754_zero s)
      end
  | _ => x
  end.

(** The builtins [min(a, b)] and [max(a, b)]: the first argument is kept
    unless the second is strictly smaller (larger). *)
Definition min (a b : float) : float := if (b <? a)%float then b else a.
Definition max (a b : float) : float := if (a <? b)%float then b else a.

End Py.

Import Py.

#[global] Instance result_ret : MRet result := @Ok.
#[global] Instance result_bind : MBind result := fun A B k m => bind m k.

(** ** The numpy operations used by the scorer *)

Module Np.

(** [np.maximum] and [np.minimum] on two floats: a NaN operand is propagated. *)
Definition maximum (a b : float) : float :=
  if (b <=? a)%float || is_nan a then a else b.
Definition minimum (a b : float) : float :=
  if (a <=? b)%float || is_nan a then a else b.

(** [np.max(xs)] of a one-dimensional array; the empty array raises. *)
Definition max (xs : list float) : result float :=
  match xs with
  | [] => Raise ValueError
  | x :: xs' => Ok (foldl maximum x xs')
  end.

(** [np.argmax(xs)]: the scan keeps the first index of the largest value
    and stops at the first NaN. *)
Fixpoint argmax_from (mp : float) (max_ind i : nat) (xs : list float) : nat :=
  match xs with
  | [] => max_ind
  | x :: xs' =>
      if is_nan mp then max_ind
      else if (x <=? mp)%float then argmax_from mp max_ind (S i) xs'
      else argmax_from x i (S i) xs'
  end.

Definition argmax (xs : list float) : result nat :=
  match xs with
  | [] => Raise ValueError
  | x :: xs' => Ok (argmax_from x 0 1 xs')
  end.

(** [np.where(bs)[0]]: the indices of the true entries. *)
Fixpoint where_from (i : nat) (bs : list bool) : list nat :=
  match bs with
  | [] => []
  | b :: bs' => if b then i :: where_from (S i) bs' else where_from (S i) bs'
  end.
Definition where_ (bs : list bool) : list nat := where_from 0 bs.

(** [xs[bs]] with a boolean mask. *)
Fixpoint compress {A : Type} (bs : list bool) (xs : list A) : list A :=
  match bs, xs with
  | b :: bs', x :: xs' => if b then x :: compress bs' xs' else compress bs' xs'
  | _, _ => []
  end.

(** [xs[idx]] with an array of indices. *)
Fixpoint take {A : Type} (xs : list A) (idx : list nat) : result (list A) :=
  match idx with
  | [] => Ok []
  | i :: idx' => x ← getitem xs i; rest ← take xs idx'; Ok (x :: rest)
  end.

(** [np.tile(row, (n, 1))]. *)
Definition tile {A : Type} (row : A) (n : nat) : list A := replicate n row.

(** [np.any(bs)]. *)
Definition any (bs : list bool) : bool := existsb id bs.

End Np.

(** ** Strings and paths *)

Fixpoint contains (c : ascii) (s : string) : bool :=
  match s with
  | EmptyString => false
  | String a s' => if Ascii.eqb a c then true else contains c s'
  end.

(** [os.path.basename(path)]: what follows the last slash. *)
Fixpoint basename (path : string) : string :=
  match path with
  | EmptyString => EmptyString
  | String a s' =>
      if contains "/"%char s' then basename s'
      else if Ascii.eqb a "/"%char then s' else path
  end.

(** ['.'.join(name.split('.')[:-1])]: what precedes the last dot, and the
    empty string when there is no dot. *)
Fixpoint drop_extension (name : string) : string :=
  match name with
  | EmptyString => EmptyString
  | String a s' => if contains "."%char s' then String a (drop_extension s') else EmptyString
  end.

Definition get_uniq_id_from_audio_path (audio_file_path : string) : string :=
  drop_extension (basename audio_file_path).

Definition is_space (c : ascii) : bool :=
  let n := nat_of_ascii c in
  ((9 <=? n) && (n <=? 13) || (28 <=? n) && (n <=? 32))%nat.

Fixpoint lstrip (s : string) : string :=
  match s with
  | String a s' => if is_space a then lstrip s' else s
  | EmptyString => EmptyString
  end.

Fixpoint rstrip (s : string) : string :=
  match s with
  | EmptyString => EmptyString
  | String a s' =>
      match rstrip s' with
      | EmptyString => if is_space a then EmptyString else String a EmptyString
      | r => String a r
      end
  end.

(** [s.strip()]. *)
Definition strip (s : string) : string := rstrip (lstrip s).

(** [s[:-n]]. *)
Definition drop_end (n : nat) (s : string) : string :=
  String.substring 0 (String.length s - n) s.

(** [' '.join(ws)]. *)
Fixpoint join_space (ws : list string) : string :=
  match ws with
  | [] => EmptyString
  | [w] => w
  | w :: ws' => w +:+ " " +:+ join_space ws'
  end.

(** ** The object state *)

(** A timestamp pair [[start, end]] in seconds. *)
Abbreviation timestamp := (float * float)%type.

(** The entries of [params] read by the modelled methods. *)
Record params : Type := mk_params {
  threshold : float;
  SAD_threshold_for_word_ts : float;
  max_word_ts_length_in_sec : float;
  fix_word_ts_with_SAD : bool;
  lenient_overlap_WDER : bool
}.

(** The attributes of an [ASR_DIAR_OFFLINE] object read by the modelled
    methods, as [__init__] sets them up. *)
Record ASR_DIAR_OFFLINE : Type := mk_self {
  self_params : params;
  nonspeech_threshold : float;
  frame_VAD : gmap string (list float)
}.

Definition __init__ (p : params) : ASR_DIAR_OFFLINE :=
  {| self_params := p; nonspeech_threshold := threshold p; frame_VAD := ∅ |}.

(** ** The speech-interval merger *)

(** The [while count > 0] loop: [count] walks from the last index down to 1;
    a pair whose gap is at most the threshold is popped and replaced by one
    interval. *)
Fixpoint merge_loop (thr : float) (count : nat) (word_ts : list timestamp)
  : result (list timestamp) :=
  match count with
  | O => Ok word_ts
  | S c =>
      word_ts' ←
        (if (1 <? length word_ts)%nat then
           b ← getitem word_ts (S c);
           a ← getitem word_ts c;
           if (b.1 - a.2 <=? thr)%float then
             '(trangeB, l1) ← pop word_ts (S c);
             '(trangeA, l2) ← pop l1 c;
             Ok (insert_at c (trangeA.1, trangeB.2) l2)
           else Ok word_ts
         else Ok word_ts);
      merge_loop thr c word_ts'
  end.

Definition _get_speech_labels_from_decoded_prediction
    (self : ASR_DIAR_OFFLINE) (input_word_ts : list timestamp)
  : result (list timestamp) :=
  let word_ts := input_word_ts in
  match word_ts with
  | [] => Ok []
  | _ => merge_loop (nonspeech_threshold self) (length word_ts - 1)%nat word_ts
  end.

(** The merger as one right-to-left pass: an interval is put in front of the
    already merged suffix and absorbs its head when the gap is small. *)
Definition merge_step (thr : float) (a : timestamp) (merged : list timestamp)
  : list timestamp :=
  match merged with
  | [] => [a]
  | b :: rest => if (b.1 - a.2 <=? thr)%float then (a.1, b.2) :: rest else a :: merged
  end.

Definition merge_right (thr : float) (word_ts : list timestamp) : list timestamp :=
  foldr (merge_step thr) [] word_ts.

(** Every pair of neighbours is further apart than the threshold
    (the comparison [gap <= thr] fails). *)
Fixpoint gaps_exceed (thr : float) (word_ts : list timestamp) : Prop :=
  match word_ts with
  | a :: (b :: _) as rest => (b.1 - a.2 <=? thr)%float = false /\ gaps_exceed thr rest
  | _ => True
  end.

(** ** Overlap of a word with the reference intervals *)

(** Both arguments are arrays of shape [(n, 2)] with the same [n]: the one
    call site builds the second with [np.tile]. *)
Definition isOverlapArray (rangeA rangeB : list timestamp) : list bool :=
  zip_with (fun a b => (b.1 <? a.2)%float && (a.1 <? b.2)%float) rangeA rangeB.

Definition getOverlapRangeArray (rangeA rangeB : list timestamp) : list float :=
  zip_with (fun a b =>
              let left := Np.maximum a.1 b.1 in
              let right := Np.minimum a.2 b.2 in
              (right - left)%float) rangeA rangeB.

(** ** Diarization results *)

(** A label line [start end speaker], already split and converted. *)
Record label : Type := mk_label {
  start_point : float;
  end_point : float;
  speaker : string
}.

(** An entry of [riva_dict['words']]. *)
Record wdict : Type := mk_wdict {
  word : string;
  start_time : float;
  end_time : float;
  speaker_label : string
}.

Record riva_dict : Type := mk_riva {
  status : string;
  session_id : string;
  transcription : string;
  speaker_count : nat;
  words : list wdict
}.

(** An entry of [DER_result_dict]; the entry of key [total] has no mapping. *)
Record der_result : Type := mk_der {
  DER : float;
  CER : float;
  FA : float;
  MISS : float;
  mapping : option (gmap string string)
}.

Definition get_effective_WDER
    (DER_result_dict : gmap string der_result) (WDER_dict : gmap string float)
  : result float :=
  total ← getkey DER_result_dict "total";
  wder_total ← getkey WDER_dict "total";
  Ok (1 - ((1 - (FA total + MISS total)) * (1 - wder_total)))%float.

(** ** Silence extension of word boundaries *)

(** The scan [while c < len(vad_frames)]; it runs at most
    [len(vad_frames) - c] times, which is the fuel it is started with. *)
Fixpoint silence_scan (fuel : nat) (c : Z) (vad_frames : list float) (thr : float)
  : result Z :=
  match fuel with
  | O => Ok c
  | S fuel' =>
      if c <? Z.of_nat (length vad_frames) then
        x ← getitem_int vad_frames c;
        if (x <? thr)%float then Ok c
        else silence_scan fuel' (c + 1) vad_frames thr
      else Ok c
  end.

Definition closest_silence_start
    (vad_index_word_end : Z) (vad_frames : list float) (p : params) (offset : Z)
  : result float :=
  let len := Z.of_nat (length vad_frames) in
  let c := vad_index_word_end + offset in
  c ← silence_scan (Z.to_nat (len - c)) c vad_frames (SAD_threshold_for_word_ts p);
  let c := Z.min (len - 1) c in
  Ok (round2 (float_of_int c / 100)%float).

(** The two assignments to [fixed_word_len]. *)
Definition fixed_word_len (p : params) (vad_est_len word_len len_to_next_word : float)
  : float :=
  let fixed_word_len := Py.min vad_est_len len_to_next_word in
  Py.max (Py.min (max_word_ts_length_in_sec p) fixed_word_len) word_len.

(** The body of the inner loop for the word of index [k]. *)
Definition enhance_word
    (self : ASR_DIAR_OFFLINE) (p : params) (uniq_id : string)
    (word_ts_seq_list : list timestamp) (N : nat)
    (enhanced_word_ts_buffer : list timestamp) (kw : nat * timestamp)
  : result (list timestamp) :=
  let '(k, word_ts) := kw in
  if (k <? N - 1)%nat then
    vad_index_word_end ← int_of_float (100 * word_ts.2)%float;
    vad_frames ← getkey (frame_VAD self) uniq_id;
    closest_sil_stt ← closest_silence_start vad_index_word_end vad_frames p 10;
    let vad_est_len := round2 (closest_sil_stt - word_ts.1)%float in
    let word_len := round2 (word_ts.2 - word_ts.1)%float in
    next ← getitem word_ts_seq_list (k + 1);
    let len_to_next_word := round2 (next.1 - word_ts.1 - 0.01)%float in
    let fixed := fixed_word_len p vad_est_len word_len len_to_next_word in
    Ok (enhanced_word_ts_buffer ++ [(word_ts.1, (word_ts.1 + fixed)%float)])
  else Ok enhanced_word_ts_buffer.

(** The body of [for idx, word_ts_seq_list in enumerate(word_ts_list)]. *)
Definition enhance_utterance
    (self : ASR_DIAR_OFFLINE) (audio_file_list : list string) (p : params)
    (enhanced_word_ts_list : list (list timestamp))
    (iw : nat * list timestamp)
  : result (list (list timestamp)) :=
  let '(idx, word_ts_seq_list) := iw in
  audio_file_path ← getitem audio_file_list idx;
  let uniq_id := get_uniq_id_from_audio_path audio_file_path in
  let N := length word_ts_seq_list in
  enhanced_word_ts_buffer ←
    for_each (enhance_word self p uniq_id word_ts_seq_list N)
             (enumerate word_ts_seq_list) [];
  Ok (enhanced_word_ts_list ++ [enhanced_word_ts_buffer]).

Definition get_enhanced_word_ts_list
    (self : ASR_DIAR_OFFLINE) (audio_file_list : list string)
    (word_ts_list : list (list timestamp)) (p : params)
  : result (list (list timestamp)) :=
  for_each (enhance_utterance self audio_file_list p) (enumerate word_ts_list) [].

(** The entry written for a word, given the silence estimate
    [vad_est_len] and the next word. *)
Definition enhanced_entry (p : params) (vad_est_len : float) (w next : timestamp)
  : timestamp :=
  (w.1, (w.1 + fixed_word_len p vad_est_len
                 (round2 (w.2 - w.1)) (round2 (next.1 - w.1 - 0.01)))%float).

(** Inputs on which the silence extension raises nothing: every session
    with two words or more has its voice-activity trace, and the end of
    every word but the last converts to a frame index that is in range. *)
Definition word_end_ok (vad_frames : list float) (w : timestamp) : bool :=
  match int_of_float (100 * w.2)%float with
  | Ok z => - Z.of_nat (length vad_frames) <=? z + 10
  | Raise _ => false
  end.

Definition utterance_enhanceable
    (self : ASR_DIAR_OFFLINE) (audio_file_path : string) (seq : list timestamp) : bool :=
  (length seq <=? 1)%nat ||
  match frame_VAD self !! get_uniq_id_from_audio_path audio_file_path with
  | Some vad_frames => forallb (word_end_ok vad_frames) (take (length seq - 1) seq)
  | None => false
  end.

Definition enhanceable
    (self : ASR_DIAR_OFFLINE) (audio_file_list : list string)
    (word_ts_list : list (list timestamp)) : bool :=
  (length word_ts_list <=? length audio_file_list)%nat
  && forallb (fun '(path, seq) => utterance_enhanceable self path seq)
             (zip audio_file_list word_ts_list).

(** [vad_est_len] is the silence estimate computed for the word [w]. *)
Definition silence_estimate
    (self : ASR_DIAR_OFFLINE) (p : params) (uniq_id : string)
    (w : timestamp) (vad_est_len : float) : Prop :=
  exists z vad_frames closest_sil_stt,
    int_of_float (100 * w.2)%float = Ok z
    /\ frame_VAD self !! uniq_id = Some vad_frames
    /\ closest_silence_start z vad_frames p 10 = Ok closest_sil_stt
    /\ vad_est_len = round2 (closest_sil_stt - w.1)%float.

(** What the inner loop has appended after [k] words of [seq]: one entry
    for each word that has a successor. *)
Definition enhance_inv
    (self : ASR_DIAR_OFFLINE) (p : params) (uniq_id : string)
    (seq : list timestamp) (k : nat) (buf : list timestamp) : Prop :=
  length buf = Nat.min k (length seq - 1)
  /\ forall j w next, (j < k)%nat -> seq !! j = Some w -> seq !! S j = Some next ->
       exists v, silence_estimate self p uniq_id w v
                 /\ buf !! j = Some (enhanced_entry p v w next).

(** What the outer loop has appended after [k] sessions. *)
Definition enhanced_inv
    (self : ASR_DIAR_OFFLINE) (p : params) (audio_file_list : list string)
    (word_ts_list : list (list timestamp)) (k : nat)
    (out : list (list timestamp)) : Prop :=
  length out = k
  /\ forall i seq, (i < k)%nat -> word_ts_list !! i = Some seq ->
       exists path buf,
         audio_file_list !! i = Some path /\ out !! i = Some buf
         /\ enhance_inv self p (get_uniq_id_from_audio_path path) seq (length seq) buf.

(** Two words of lengths 2 s and 0.5 s, a silent voice-activity trace of
    four seconds, and a cap of one second on the word length. *)
Definition params_cap1 : params := mk_params 0.1 0.5 1 true false.
Definition silent_self : ASR_DIAR_OFFLINE :=
  mk_self params_cap1 0.1 {[ "u" := replicate 400 0%float ]}.
Definition long_word_ts : list (list timestamp) := [[(0, 2); (3, 3.5)]%float].

(** ** The alignment assembler *)

Definition midpoint (w : timestamp) : float := ((w.1 + w.2) / 2)%float.

(** The assignment rule in the words of the specification: the pointer
    [idx] and the current interval [cur]; for each word the interval it is
    assigned to and whether a speaker-turn marker precedes it. *)
Fixpoint assign_speakers
    (labels : list label) (idx : nat) (cur : label) (word_ts : list timestamp)
  : list (label * bool) :=
  match word_ts with
  | [] => []
  | w :: rest =>
      if (midpoint w <? end_point cur)%float then
        (cur, false) :: assign_speakers labels idx cur rest
      else
        let idx' := Nat.min (idx + 1) (length labels - 1) in
        let next := default cur (labels !! idx') in
        (next, true) :: assign_speakers labels idx' next rest
  end.

(** The pointer after the words. *)
Fixpoint final_pointer
    (labels : list label) (idx : nat) (cur : label) (word_ts : list timestamp)
  : nat * label :=
  match word_ts with
  | [] => (idx, cur)
  | w :: rest =>
      if (midpoint w <? end_point cur)%float then final_pointer labels idx cur rest
      else
        let idx' := Nat.min (idx + 1) (length labels - 1) in
        final_pointer labels idx' (default cur (labels !! idx')) rest
  end.

Fixpoint aligned_words
    (ws : list string) (word_ts : list timestamp) (assigned : list (label * bool))
    {struct word_ts} : list wdict :=
  match word_ts, ws, assigned with
  | ts :: word_ts', w :: ws', a :: assigned' =>
      mk_wdict w (round2 ts.1) (round2 ts.2) (speaker a.1)
      :: aligned_words ws' word_ts' assigned'
  | _, _, _ => []
  end.

Section Transcript.

(** [datetime.fromtimestamp(t).strftime(fmt)]: the rendering of a time stamp
    belongs to the standard library and to the time zone of the host. *)
Variable strftime : string -> float -> string.

Definition newline : string := String (ascii_of_nat 10) EmptyString.

Definition print_time (string_out speaker : string) (start_point end_point : float)
  : string :=
  let datetime_offset := (16 * 3600)%float in
  let time_str :=
    if (3600 <? start_point)%float then "%H:%M:%S.%f" else "%M:%S.%f" in
  let start_point_str := drop_end 4 (strftime time_str (start_point - datetime_offset)%float) in
  let end_point_str := drop_end 4 (strftime time_str (end_point - datetime_offset)%float) in
  let strd :=
    newline +:+ "[" +:+ start_point_str +:+ " - " +:+ end_point_str +:+ "] "
            +:+ speaker +:+ ": " in
  string_out +:+ strd.

Definition print_word (string_out word : string) : string :=
  let word := strip word in
  string_out +:+ word +:+ " ".

Definition get_num_of_spk_from_labels (labels : list label) : nat :=
  let spk_set := speaker <$> labels in
  length (remove_dups spk_set).

Definition add_json_to_dict
    (riva : riva_dict) (word : string) (stt end_ : float) (speaker : string)
  : riva_dict :=
  {| status := status riva;
     session_id := session_id riva;
     transcription := transcription riva;
     speaker_count := speaker_count riva;
     words := words riva ++ [mk_wdict word stt end_ speaker] |}.

(** The variables that live across the iterations of the word loop. *)
Record align_state : Type := mk_align {
  string_out : string;
  idx : nat;
  current : label;
  riva : riva_dict;
  total_riva_dict : gmap string riva_dict
}.

(** The body of [for j, word_ts_stt_end in enumerate(word_ts_list[k])]. *)
Definition align_word
    (labels : list label) (words : list string) (uniq_id : string)
    (st : align_state) (jw : nat * timestamp)
  : result align_state :=
  let '(j, word_ts_stt_end) := jw in
  let word_pos := ((word_ts_stt_end.1 + word_ts_stt_end.2) / 2)%float in
  '(string_out', idx', current') ←
    (if (word_pos <? end_point (current st))%float then
       w ← getitem words j;
       Ok (print_word (string_out st) w, idx st, current st)
     else
       let idx' := Nat.min (idx st + 1) (length labels - 1) in
       lab ← getitem labels idx';
       let s := print_time (string_out st) (speaker lab) (start_point lab) (end_point lab) in
       w ← getitem words j;
       Ok (print_word s w, idx', lab));
  let stt_sec := round2 word_ts_stt_end.1 in
  let end_sec := round2 word_ts_stt_end.2 in
  w ← getitem words j;
  let riva' := add_json_to_dict (riva st) w stt_sec end_sec (speaker current') in
  Ok {| string_out := string_out'; idx := idx'; current := current'; riva := riva';
        total_riva_dict := <[uniq_id := riva']> (total_riva_dict st) |}.

(** What the method returns and what [write_and_log] writes: the dictionary
    of structured transcripts and, per session, the text transcript. *)
Record transcripts : Type := mk_transcripts {
  json_result : gmap string riva_dict;
  transcript_with_speaker_labels : gmap string string
}.

(** The body of [for k, audio_file_path in enumerate(audio_file_list)]. *)
Definition align_utterance
    (diar_labels : list (list label)) (word_list : list (list string))
    (word_ts_list : list (list timestamp))
    (out : transcripts) (ka : nat * string)
  : result transcripts :=
  let '(k, audio_file_path) := ka in
  let uniq_id := get_uniq_id_from_audio_path audio_file_path in
  labels ← getitem diar_labels k;
  let n_spk := get_num_of_spk_from_labels labels in
  words_k ← getitem word_list k;
  let riva0 :=
    {| status := "Success"; session_id := uniq_id;
       transcription := join_space words_k; speaker_count := n_spk; words := [] |} in
  first ← getitem labels 0;
  let string_out0 :=
    print_time "" (speaker first) (start_point first) (end_point first) in
  word_ts_k ← getitem word_ts_list k;
  st ← for_each (align_word labels words_k uniq_id) (enumerate word_ts_k)
        {| string_out := string_out0; idx := 0; current := first; riva := riva0;
           total_riva_dict := json_result out |};
  Ok {| json_result := total_riva_dict st;
        transcript_with_speaker_labels :=
          <[uniq_id := strip (string_out st)]> (transcript_with_speaker_labels out) |}.

Definition write_json_and_transcript
    (self : ASR_DIAR_OFFLINE) (audio_file_list : list string)
    (diar_labels : list (list label)) (word_list : list (list string))
    (word_ts_list : list (list timestamp))
  : result transcripts :=
  word_ts_list ←
    (if fix_word_ts_with_SAD (self_params self)
     then get_enhanced_word_ts_list self audio_file_list word_ts_list (self_params self)
     else Ok word_ts_list);
  for_each (align_utterance diar_labels word_list word_ts_list)
           (enumerate audio_file_list)
           {| json_result := ∅; transcript_with_speaker_labels := ∅ |}.

(** The transcript by the assignment rule: a speaker-turn marker is printed
    before a word that advanced the pointer. *)
Fixpoint render (s : string) (ws : list string) (assigned : list (label * bool))
    {struct assigned} : string :=
  match assigned, ws with
  | (lab, marker) :: assigned', w :: ws' =>
      let s' := if marker
                then print_time s (speaker lab) (start_point lab) (end_point lab)
                else s in
      render (print_word s' w) ws' assigned'
  | _, _ => s
  end.

Definition with_words (r : riva_dict) (ws : list wdict) : riva_dict :=
  {| status := status r; session_id := session_id r; transcription := transcription r;
     speaker_count := speaker_count r; words := ws |}.

(** Inputs on which the assembler raises nothing: every session has a
    non-empty label list, a word list and a time-stamp list that is not
    longer than the word list. *)
Definition utterance_alignable
    (diar_labels : list (list label)) (word_list : list (list string))
    (word_ts_list : list (list timestamp)) (k : nat) : bool :=
  match diar_labels !! k, word_list !! k, word_ts_list !! k with
  | Some (_ :: _), Some ws, Some ts => (length ts <=? length ws)%nat
  | _, _, _ => false
  end.

Definition alignable
    (audio_file_list : list string) (diar_labels : list (list label))
    (word_list : list (list string)) (word_ts_list : list (list timestamp)) : bool :=
  forallb (utterance_alignable diar_labels word_list word_ts_list)
          (seq 0 (length audio_file_list)).

(** The structured transcript and the text transcript of one session, by
    the assignment rule. *)
Definition aligned_session
    (uniq_id : string) (labels : list label) (first : label)
    (ws : list string) (ts : list timestamp) : riva_dict :=
  {| status := "Success"; session_id := uniq_id; transcription := join_space ws;
     speaker_count := get_num_of_spk_from_labels labels;
     words := aligned_words ws ts (assign_speakers labels 0 first ts) |}.

Definition aligned_text
    (labels : list label) (first : label) (ws : list string) (ts : list timestamp)
  : string :=
  strip (render (print_time "" (speaker first) (start_point first) (end_point first))
                ws (assign_speakers labels 0 first ts)).

(** The effect of one session on the outputs. *)
Definition aligned_out
    (out : transcripts) (uniq_id : string) (labels : list label) (first : label)
    (ws : list string) (ts : list timestamp) : transcripts :=
  {| json_result :=
       match ts with
       | [] => json_result out
       | _ => <[uniq_id := aligned_session uniq_id labels first ws ts]> (json_result out)
       end;
     transcript_with_speaker_labels :=
       <[uniq_id := aligned_text labels first ws ts]> (transcript_with_speaker_labels out) |}.

(** What the outer loop has written after [i] sessions: the outputs of a
    session are those of its last occurrence in the file list. *)
Definition aligned_inv
    (audio_file_list : list string) (diar_labels : list (list label))
    (word_list : list (list string)) (word_ts_list : list (list timestamp))
    (i : nat) (out : transcripts) : Prop :=
  forall k path labels first ws ts,
    (k < i)%nat -> audio_file_list !! k = Some path ->
    diar_labels !! k = Some labels -> labels !! 0%nat = Some first ->
    word_list !! k = Some ws -> word_ts_list !! k = Some ts ->
    (forall k' path', (k < k' < i)%nat -> audio_file_list !! k' = Some path' ->
        get_uniq_id_from_audio_path path' <> get_uniq_id_from_audio_path path) ->
    transcript_with_speaker_labels out !! get_uniq_id_from_audio_path path
    = Some (aligned_text labels first ws ts)
    /\ (ts <> [] ->
        json_result out !! get_uniq_id_from_audio_path path
        = Some (aligned_session (get_uniq_id_from_audio_path path) labels first ws ts)).

End Transcript.

(** ** Word-level diarization error rate *)

(** [c / t] on two integers: the correctly rounded quotient of a non-zero
    divisor, and [ZeroDivisionError] for a zero divisor. *)
Definition truediv (c t : Z) : float :=
  let sf (z : Z) : spec_float :=
    match z with
    | Z0 => S754_zero false
    | Zpos a => S754_finite false a 0
    | Zneg a => S754_finite true a 0
    end in
  SF2Prim (SFdiv prec emax (sf c) (sf t)).

Definition int_truediv (c t : Z) : result float :=
  if t =? 0 then Raise ZeroDivisionError else Ok (truediv c t).

(** The body of [for wdict in words_list]: the new [correct_word_count]. *)
Definition score_word
    (lenient : bool) (mapping_dict : gmap string string) (labels : list label)
    (ref_label_array : list timestamp) (correct_word_count : Z) (w : wdict)
  : result Z :=
  match mapping_dict !! speaker_label w with
  | None => Ok correct_word_count
  | Some est_spk_label =>
      _ ← getitem labels 0;
      let word_range := (start_time w, end_time w) in
      let word_range_tile := Np.tile word_range (length ref_label_array) in
      let ovl_bool := isOverlapArray ref_label_array word_range_tile in
      if negb (Np.any ovl_bool) then Ok correct_word_count
      else
        let ovl_length := getOverlapRangeArray ref_label_array word_range_tile in
        if lenient then
          let ovl_length_list := Np.compress ovl_bool ovl_length in
          mx ← Np.max ovl_length_list;
          let max_ovl_sub_idx :=
            Np.where_ ((fun x => (x =? mx)%float) <$> ovl_length_list) in
          max_ovl_idx ← Np.take (Np.where_ ovl_bool) max_ovl_sub_idx;
          selected ← Np.take labels max_ovl_idx;
          let ref_spk_labels := speaker <$> (selected : list label) in
          if bool_decide (est_spk_label ∈ ref_spk_labels)
          then Ok (correct_word_count + 1)
          else Ok correct_word_count
        else
          max_ovl_sub_idx ← Np.argmax (Np.compress ovl_bool ovl_length);
          max_ovl_idx ← getitem (Np.where_ ovl_bool) max_ovl_sub_idx;
          ref ← getitem labels max_ovl_idx;
          Ok (correct_word_count
              + (if bool_decide (est_spk_label = speaker ref) then 1 else 0))
  end.

(** The accumulators of [get_WDER]. *)
Record wder_state : Type := mk_wder {
  wder_dict : gmap string float;
  grand_total_word_count : Z;
  grand_correct_word_count : Z
}.

(** The body of [for k, audio_file_path in enumerate(audio_file_list)]. *)
Definition score_utterance
    (self : ASR_DIAR_OFFLINE) (total_riva_dict : gmap string riva_dict)
    (DER_result_dict : gmap string der_result) (ref_labels_list : list (list label))
    (st : wder_state) (ka : nat * string)
  : result wder_state :=
  let '(k, audio_file_path) := ka in
  labels ← getitem ref_labels_list k;
  let uniq_id := get_uniq_id_from_audio_path audio_file_path in
  der ← getkey DER_result_dict uniq_id;
  mapping_dict ← (match mapping der with Some m => Ok m | None => Raise KeyError end);
  riva ← getkey total_riva_dict uniq_id;
  let words_list := words riva in
  let total_word_count := Z.of_nat (length words_list) in
  let ref_label_array := (fun x => (start_point x, end_point x)) <$> labels in
  correct_word_count ←
    for_each (score_word (lenient_overlap_WDER (self_params self))
                         mapping_dict labels ref_label_array)
             words_list 0;
  q ← int_truediv correct_word_count total_word_count;
  let wder := (1 - q)%float in
  Ok {| wder_dict := <[uniq_id := wder]> (wder_dict st);
        grand_total_word_count := grand_total_word_count st + total_word_count;
        grand_correct_word_count := grand_correct_word_count st + correct_word_count |}.

Definition get_WDER
    (self : ASR_DIAR_OFFLINE) (audio_file_list : list string)
    (total_riva_dict : gmap string riva_dict)
    (DER_result_dict : gmap string der_result) (ref_labels_list : list (list label))
  : result (gmap string float) :=
  st ← for_each (score_utterance self total_riva_dict DER_result_dict ref_labels_list)
        (enumerate audio_file_list)
        {| wder_dict := ∅; grand_total_word_count := 0; grand_correct_word_count := 0 |};
  q ← int_truediv (grand_correct_word_count st) (grand_total_word_count st);
  Ok (<["total" := (1 - q)%float]> (wder_dict st)).

(** ** The scoring rule in the words of the specification *)

(** The overlap test and the overlap length of a word against one
    reference interval. *)
Definition overlaps (w : wdict) (ref : label) : bool :=
  (start_point ref <? end_time w)%float && (start_time w <? end_point ref)%float.

Definition overlap_length (w : wdict) (ref : label) : float :=
  (Np.minimum (end_point ref) (end_time w)
   - Np.maximum (start_point ref) (start_time w))%float.

Definition word_correct
    (lenient : bool) (mapping_dict : gmap string string) (labels : list label)
    (w : wdict) : bool :=
  match mapping_dict !! speaker_label w with
  | None => false
  | Some est_spk_label =>
      match List.filter (overlaps w) labels with
      | [] => false
      | r0 :: rest =>
          if lenient then
            let mx := foldl Np.maximum (overlap_length w r0) (overlap_length w <$> rest) in
            bool_decide
              (est_spk_label
               ∈ speaker <$> List.filter (fun r => (overlap_length w r =? mx)%float)
                                         (r0 :: rest))
          else
            let best := Np.argmax_from (overlap_length w r0) 0 1 (overlap_length w <$> rest) in
            bool_decide (est_spk_label = speaker (nth best (r0 :: rest) r0))
      end
  end.

Definition correct_words
    (lenient : bool) (mapping_dict : gmap string string) (labels : list label)
    (ws : list wdict) : Z :=
  Z.of_nat (length (List.filter (word_correct lenient mapping_dict labels) ws)).

(** The correct and the total word count of the session of index [k]. *)
Definition session_score
    (self : ASR_DIAR_OFFLINE) (total_riva_dict : gmap string riva_dict)
    (DER_result_dict : gmap string der_result) (ref_labels_list : list (list label))
    (ka : nat * string) : option (Z * Z) :=
  let uniq_id := get_uniq_id_from_audio_path ka.2 in
  match ref_labels_list !! ka.1, DER_result_dict !! uniq_id, total_riva_dict !! uniq_id with
  | Some (l0 :: labels), Some der, Some riva =>
      match mapping der with
      | Some mapping_dict =>
          Some (correct_words (lenient_overlap_WDER (self_params self)) mapping_dict
                              (l0 :: labels) (words riva),
                Z.of_nat (length (words riva)))
      | None => None
      end
  | _, _, _ => None
  end.

(** A session that is scored without raising: its dictionaries and
    reference labels are there and it has at least one word. *)
Definition session_ok
    (self : ASR_DIAR_OFFLINE) (total_riva_dict : gmap string riva_dict)
    (DER_result_dict : gmap string der_result) (ref_labels_list : list (list label))
    (ka : nat * string) : bool :=
  match session_score self total_riva_dict DER_result_dict ref_labels_list ka with
  | Some (_, t) => 0 <? t
  | None => false
  end.

Definition scorable
    (self : ASR_DIAR_OFFLINE) (audio_file_list : list string)
    (total_riva_dict : gmap string riva_dict)
    (DER_result_dict : gmap string der_result) (ref_labels_list : list (list label))
  : bool :=
  match audio_file_list with
  | [] => false
  | _ => forallb (session_ok self total_riva_dict DER_result_dict ref_labels_list)
                 (enumerate audio_file_list)
  end.

(** The counts of all sessions, and their sums. *)
Definition session_scores
    (self : ASR_DIAR_OFFLINE) (audio_file_list : list string)
    (total_riva_dict : gmap string riva_dict)
    (DER_result_dict : gmap string der_result) (ref_labels_list : list (list label))
  : list (Z * Z) :=
  (fun ka => default (0, 0)
               (session_score self total_riva_dict DER_result_dict ref_labels_list ka))
    <$> enumerate audio_file_list.

Definition sum_Z (xs : list Z) : Z := foldr Z.add 0 xs.

(** What the loop has accumulated after [i] sessions. *)
Definition wder_inv
    (self : ASR_DIAR_OFFLINE) (audio_file_list : list string)
    (total_riva_dict : gmap string riva_dict)
    (DER_result_dict : gmap string der_result) (ref_labels_list : list (list label))
    (i : nat) (st : wder_state) : Prop :=
  let scores :=
    take i (session_scores self audio_file_list total_riva_dict DER_result_dict
                           ref_labels_list) in
  grand_correct_word_count st = sum_Z (fst <$> scores)
  /\ grand_total_word_count st = sum_Z (snd <$> scores)
  /\ 0 <= grand_total_word_count st
  /\ ((0 < i)%nat -> 0 < grand_total_word_count st)
  /\ forall k path c t,
       (k < i)%nat -> audio_file_list !! k = Some path ->
       session_score self total_riva_dict DER_result_dict ref_labels_list (k, path)
       = Some (c, t) ->
       (forall k' path', (k < k' < i)%nat -> audio_file_list !! k' = Some path' ->
          get_uniq_id_from_audio_path path' <> get_uniq_id_from_audio_path path) ->
       wder_dict st !! get_uniq_id_from_audio_path path = Some (1 - truediv c t)%float.

(** [x >= y] on the specification side of two floats that are numbers. *)
Definition sf_ge (x y : spec_float) : Prop :=
  SFcompare x y = Some Eq \/ SFcompare x y = Some Gt.

(** [v] is a largest element of [xs]: no element is greater. *)
Definition is_max (v : float) (xs : list float) : Prop :=
  v ∈ xs /\ forall x, x ∈ xs -> (v <? x)%float = false.

(** [i] is the first position of a largest element of [xs]. *)
Definition is_first_max (i : nat) (xs : list float) : Prop :=
  exists v, xs !! i = Some v
            /\ (forall x, x ∈ xs -> (v <? x)%float = false)
            /\ forall j x, (j < i)%nat -> xs !! j = Some x -> (x <? v)%float = true.

(** ** Sample inputs *)

(** The merge example of the specification: three intervals and the
    threshold 0.1 s. *)
Definition params_01 : params := mk_params 0.1 0.5 1 false false.
Definition sample_intervals : list timestamp :=
  [(0, 1); (1.1, 2); (2.05, 3)]%float.

(** The same shape with gaps and threshold that binary64 represents exactly. *)
Definition params_0125 : params := mk_params 0.125 0.5 1 false false.
Definition dyadic_intervals : list timestamp :=
  [(0, 1); (1.125, 2); (2.0625, 3)]%float.

(** A [DER_result_dict] with only the aggregate entry, and a [WDER_dict]. *)
Definition der_total (fa miss : float) : gmap string der_result :=
  {[ "total" := mk_der 0 0 fa miss None ]}.
Definition wder_total (w : float) : gmap string float := {[ "total" := w ]}.

(** One session with two speaker intervals and three words; the last word
    lies past the last interval. *)
Definition sample_strftime : string -> float -> string := fun _ _ => "00:00.000000".
Definition params_plain : params := mk_params 0.1 0.5 1 false false.
Definition sample_labels : list label :=
  [mk_label 0 1 "speaker_0"; mk_label 1 2 "speaker_1"].
Definition sample_words : list string := ["hi"; "there"; "you"].
Definition sample_word_ts : list timestamp :=
  [(0.1, 0.4); (0.6, 1.5); (2.5, 2.9)]%float.

(** One session of two words for the silent trace of [silent_self]. *)
Definition long_words : list (list string) := [["hello"; "world"]].
Definition long_labels : list (list label) := [[mk_label 0 4 "speaker_0"]].

(** A word that overlaps two reference intervals by the same length. *)
Definition tie_labels : list label :=
  [mk_label 0.5 1.5 "A"; mk_label 1.5 2.5 "B"].
Definition tie_word : wdict := mk_wdict "hello" 1 2 "speaker_0".
Definition tie_mapping : gmap string string := {[ "speaker_0" := "B" ]}.

(** Two sessions of one and of three words: no word of the first and every
    word of the second carries the reference speaker. *)
Definition riva_of (uniq_id : string) (ws : list wdict) : riva_dict :=
  mk_riva "Success" uniq_id "" 1 ws.
Definition two_mapping : gmap string string :=
  {[ "speaker_0" := "A"; "speaker_1" := "B" ]}.
Definition two_riva : gmap string riva_dict :=
  {[ "a" := riva_of "a" [mk_wdict "no" 0 0.5 "speaker_0"];
     "b" := riva_of "b" [mk_wdict "one" 0 0.5 "speaker_1";
                         mk_wdict "two" 1 1.5 "speaker_1";
                         mk_wdict "three" 2 2.5 "speaker_1"] ]}.
Definition two_der : gmap string der_result :=
  {[ "a" := mk_der 0 0 0 0 (Some two_mapping);
     "b" := mk_der 0 0 0 0 (Some two_mapping) ]}.
Definition two_refs : list (list label) :=
  [[mk_label 0 10 "B"]; [mk_label 0 10 "B"]].

(** A session without any recognized word. *)
Definition empty_riva : gmap string riva_dict := {[ "e" := riva_of "e" [] ]}.
Definition empty_der : gmap string der_result :=
  {[ "e" := mk_der 0 0 0 0 (Some ∅) ]}.
Definition empty_refs : list (list label) := [[mk_label 0 1 "A"]].

(** ** CTC decoding with time stamps *)

(** The attributes of a [WER_TS] object read by the decoding methods; the
    parent class sets them from the vocabulary. *)
Record WER_TS : Type := mk_wer_ts {
  blank_id : Z;
  labels_map : gmap Z string
}.

(** The variables of the loop [for pdx, p in enumerate(prediction)] of
    [WER_TS.ctc_decoder_predictions_tensor_with_ts]. *)
Record ctc_state : Type := mk_ctc {
  decoded_prediction : list Z;
  decoded_timing_list : list nat;
  previous : Z
}.

(** The body of the loop: a frame is appended when it is not the blank and
    differs from the frame before it; [previous] starts as the blank. *)
Definition ctc_step (blank_id : Z) (st : ctc_state) (pp : nat * Z) : ctc_state :=
  let '(pdx, p) := pp in
  if (negb (p =? previous st) || (previous st =? blank_id)) && negb (p =? blank_id)
  then {| decoded_prediction := decoded_prediction st ++ [p];
          decoded_timing_list := decoded_timing_list st ++ [pdx];
          previous := p |}
  else {| decoded_prediction := decoded_prediction st;
          decoded_timing_list := decoded_timing_list st;
          previous := p |}.

(** The CTC decoding procedure with time stamps for one row [prediction] of
    the batch: the decoded tokens and the frame index of each. *)
Definition ctc_decode (blank_id : Z) (prediction : list Z) : list Z * list nat :=
  let st := foldl (ctc_step blank_id) (mk_ctc [] [] blank_id) (enumerate prediction) in
  (decoded_prediction st, decoded_timing_list st).

(** [WER_TS.decode_ids_to_tokens_with_ts]. *)
Definition decode_ids_to_tokens_with_ts
    (self : WER_TS) (tokens : list Z) (timestamps : list nat)
  : result (list string * list nat) :=
  for_each (fun '(token_list, timestamp_list) '(i, c) =>
              if negb (c =? blank_id self) then
                tok ← (match labels_map self !! c with
                       | Some s => Ok s
                       | None => Raise KeyError
                       end);
                ts ← getitem timestamps i;
                Ok (token_list ++ [tok], timestamp_list ++ [ts])
              else Ok (token_list, timestamp_list))
           (enumerate tokens) ([], []).

(** The frame [pdx] of [prediction] starts a token: it is not the blank and
    it differs from the frame before it. *)
Definition starts_token (blank_id : Z) (prediction : list Z) (pdx : nat) : Prop :=
  exists p, prediction !! pdx = Some p /\ p <> blank_id
            /\ (pdx = 0%nat \/ prediction !! (pdx - 1)%nat <> Some p).

(** The decoded tokens of the frames that follow a frame [previous]. *)
Fixpoint ctc_collapse (blank_id previous : Z) (prediction : list Z) : list Z :=
  match prediction with
  | [] => []
  | p :: rest =>
      if (negb (p =? previous) || (previous =? blank_id)) && negb (p =? blank_id)
      then p :: ctc_collapse blank_id p rest
      else ctc_collapse blank_id p rest
  end.

(** The variables of the same loop in
    [WERBPE_TS.ctc_decoder_predictions_tensor_with_ts]. *)
Record bpe_state : Type := mk_bpe {
  bpe_decoded_prediction : list Z;
  char_ts : list float;
  timestamp_list : list float;
  bpe_previous : Z
}.

(** The body of the loop: [pdx * time_stride] converts the frame index to a
    float, which never overflows for the index of a list. *)
Definition bpe_step (time_stride : float) (blank_id : Z) (st : bpe_state) (pp : nat * Z)
  : bpe_state :=
  let '(pdx, p) := pp in
  if (negb (p =? bpe_previous st) || (bpe_previous st =? blank_id)) && negb (p =? blank_id)
  then
    {| bpe_decoded_prediction := bpe_decoded_prediction st ++ [p];
       char_ts := char_ts st ++ [round2 (float_of_int (Z.of_nat pdx) * time_stride)%float];
       timestamp_list :=
         timestamp_list st ++ [round2 (float_of_int (Z.of_nat pdx) * time_stride)%float];
       bpe_previous := p |}
  else
    {| bpe_decoded_prediction := bpe_decoded_prediction st;
       char_ts := char_ts st;
       timestamp_list := timestamp_list st;
       bpe_previous := p |}.

Definition bpe_decode (time_stride : float) (blank_id : Z) (prediction : list Z)
  : bpe_state :=
  foldl (bpe_step time_stride blank_id) (mk_bpe [] [] [] blank_id) (enumerate prediction).

(** What the loop has collected after the frames [xs]. *)
Definition ctc_inv (blank_id : Z) (xs : list Z) (st : ctc_state) : Prop :=
  previous st = default blank_id (last xs)
  /\ length (decoded_prediction st) = length (decoded_timing_list st)
  /\ (forall pdx, pdx ∈ decoded_timing_list st <-> starts_token blank_id xs pdx)
  /\ (forall i j pdx pdx', (i < j)%nat ->
        decoded_timing_list st !! i = Some pdx ->
        decoded_timing_list st !! j = Some pdx' -> (pdx < pdx')%nat)
  /\ forall i pdx, decoded_timing_list st !! i = Some pdx ->
                   decoded_prediction st !! i = xs !! pdx.

(** A decoder with three labels and the blank 28. *)
Definition sample_wer_ts : WER_TS :=
  mk_wer_ts 28 {[ 0 := " "; 8 := "h"; 9 := "i" ]}.

(** ** Word time stamps from the character decoder *)

(** A failed [assert] raises [AssertionError]; the methods with assertions
    return an [asserted] result. *)
Inductive asserted (A : Type) : Type :=
| Passed (r : result A)
| AssertionError.
Arguments Passed {A} r.
Arguments AssertionError {A}.

#[global] Instance asserted_ret : MRet asserted := fun A a => Passed (Ok a).
#[global] Instance asserted_bind : MBind asserted := fun A B k m =>
  match m with
  | Passed (Ok a) => k a
  | Passed (Raise e) => Passed (Raise e)
  | AssertionError => AssertionError
  end.

(** [xs[i:]] and [xs[:j]]: a negative bound counts from the end. *)
Definition slice_from {A : Type} (i : Z) (xs : list A) : list A :=
  let n := Z.of_nat (length xs) in
  drop (Z.to_nat (if i <? 0 then Z.max 0 (n + i) else i)) xs.

Definition slice_to {A : Type} (j : Z) (xs : list A) : list A :=
  let n := Z.of_nat (length xs) in
  take (Z.to_nat (if j <? 0 then Z.max 0 (n + j) else j)) xs.

(** The product [z * x] of an integer and a float converts the integer
    first; an integer beyond the range of binary64 raises. *)
Definition float_of_int_checked (z : Z) : result float :=
  let x := float_of_int z in
  if is_infinity x then Raise OverflowError else Ok x.

(** The attributes that [set_asr_model] writes and the time-stamp methods
    read: [params['time_stride']] and [asr_delay_sec]. *)
Record ASR_attrs : Type := mk_asr {
  time_stride : float;
  asr_delay_sec : float
}.

(** [clean_trans_and_TS]: [trans] is a string of ASCII characters and
    [char_ts] the frame index of each. *)
Definition clean_trans_and_TS (trans : string) (char_ts : list Z)
  : asserted (string * list Z) :=
  if negb ((0 <? String.length trans)%nat && (0 <? length char_ts)%nat) then AssertionError
  else if negb (String.length trans =? length char_ts)%nat then AssertionError
  else
    let trans := lstrip trans in
    let diff_L := Z.of_nat (length char_ts) - Z.of_nat (String.length trans) in
    let char_ts := slice_from diff_L char_ts in
    let trans := rstrip trans in
    let diff_R := Z.of_nat (length char_ts) - Z.of_nat (String.length trans) in
    let char_ts := if 0 <? diff_R then slice_to (-1 * diff_R) char_ts else char_ts in
    Passed (Ok (trans, char_ts)).

(** The variables of the loop of [_get_spaces]. *)
Record spaces_state : Type := mk_spaces {
  spaces_in_sec : list timestamp;
  word_list : list string;
  stt_idx : nat
}.

(** [trans[i:j]] for [0 <= i] and [0 <= j] on the characters of [trans]. *)
Definition str_slice (i j : nat) (chars : list ascii) : string :=
  String.string_of_list_ascii (take (j - i) (drop i chars)).

(** The body of [for k, s in enumerate(trans)]. *)
Definition get_spaces_step
    (chars : list ascii) (char_ts : list Z) (time_stride : float)
    (st : spaces_state) (ks : nat * ascii) : result spaces_state :=
  let '(k, s) := ks in
  if Ascii.eqb s " " then
    t0 ← getitem char_ts k;
    x0 ← float_of_int_checked t0;
    t1 ← getitem char_ts (k + 1);
    x1 ← float_of_int_checked (t1 - 1);
    Ok {| spaces_in_sec :=
            spaces_in_sec st ++ [(round2 (x0 * time_stride), round2 (x1 * time_stride))%float];
          word_list := word_list st ++ [str_slice (stt_idx st) k chars];
          stt_idx := k + 1 |}
  else Ok st.

(** [_get_spaces]: the time span of every space and the words between the
    spaces. *)
Definition _get_spaces (trans : string) (char_ts : list Z) (time_stride : float)
  : asserted (list timestamp * list string) :=
  let chars := String.list_ascii_of_string trans in
  if negb ((0 <? length chars)%nat && (0 <? length char_ts)%nat) then AssertionError
  else if negb (length chars =? length char_ts)%nat then AssertionError
  else
    Passed
      (st ← for_each (get_spaces_step chars char_ts time_stride) (enumerate chars)
                     (mk_spaces [] [] 0);
       let word_list :=
         match chars !! stt_idx st with
         | Some c =>
             if negb (Ascii.eqb c " ")
             then word_list st ++ [str_slice (stt_idx st) (length chars) chars]
             else word_list st
         | None => word_list st
         end in
       Ok (spaces_in_sec st, word_list)).

(** [get_word_ts_from_spaces]: a word lasts from the end of the space
    before it to the start of the space after it. *)
Definition get_word_ts_from_spaces
    (self : ASR_attrs) (char_ts : list Z) (_spaces_in_sec : list timestamp) (end_stamp : Z)
  : result (list timestamp) :=
  c0 ← getitem char_ts 0;
  x0 ← float_of_int_checked c0;
  let start_stamp_in_sec := (x0 * time_stride self - asr_delay_sec self)%float in
  xe ← float_of_int_checked end_stamp;
  let end_stamp_in_sec := (xe * time_stride self - asr_delay_sec self)%float in
  word_timetamps_middle ←
    for_each (fun acc k =>
                a ← getitem _spaces_in_sec k;
                b ← getitem _spaces_in_sec (k + 1);
                Ok (acc ++ [((a : timestamp).2 - asr_delay_sec self,
                             (b : timestamp).1 - asr_delay_sec self)%float]))
             (seq 0 (length _spaces_in_sec - 1)) [];
  first ← getitem_int _spaces_in_sec 0;
  last ← getitem_int _spaces_in_sec (-1);
  Ok ([(start_stamp_in_sec, ((first : timestamp).1 - asr_delay_sec self)%float)]
        ++ word_timetamps_middle
        ++ [(((last : timestamp).2 - asr_delay_sec self)%float, end_stamp_in_sec)]).

(** The steps of [run_ASR_QuartzNet_CTC] on one decoded utterance: the
    hypothesis [text], the frame index [char_ts] of each of its characters
    and the number of frames [end_stamp]. *)
Definition words_and_word_ts
    (self : ASR_attrs) (text : string) (char_ts : list Z) (end_stamp : Z)
  : asserted (list string * list timestamp) :=
  '(_trans, char_ts_in_feature_frame_idx) ← clean_trans_and_TS text char_ts;
  '(_spaces_in_sec, _trans_words) ←
    _get_spaces _trans char_ts_in_feature_frame_idx (time_stride self);
  word_ts ← Passed (get_word_ts_from_spaces self char_ts_in_feature_frame_idx
                                            _spaces_in_sec end_stamp);
  if negb (length (_trans_words : list string) =? length (word_ts : list timestamp))%nat
  then AssertionError
  else Passed (Ok (_trans_words, word_ts)).

(** [apply_delay]: the list is updated in place and returned; the integer
    [0] of [max(..., 0)] is the float zero here. *)
Definition apply_delay (self : ASR_attrs) (word_ts : list timestamp)
  : result (list timestamp) :=
  for_each (fun word_ts p =>
              w ← getitem word_ts p;
              w' ← getitem word_ts p;
              Ok (<[p := (Py.max (round2 ((w : timestamp).1 - asr_delay_sec self)) 0,
                          round2 ((w' : timestamp).2 - asr_delay_sec self))%float]> word_ts))
           (seq 0 (length word_ts)) word_ts.

(** The settings of a QuartzNet model: a stride of 0.02 s and a delay of
    0.18 s. *)
Definition sample_asr : ASR_attrs := mk_asr 0.02 0.18.

(** The number of spaces of a transcript. *)
Definition count_spaces (chars : list ascii) : nat :=
  length (List.filter (fun c => Ascii.eqb c " ") chars).

(** What the loop of [_get_spaces] has collected after [k] characters. *)
Definition spaces_inv (chars : list ascii) (k : nat) (st : spaces_state) : Prop :=
  (stt_idx st <= k)%nat
  /\ (stt_idx st < length chars)%nat
  /\ length (word_list st) = length (spaces_in_sec st)
  /\ length (spaces_in_sec st) = count_spaces (take k chars)
  /\ Forall (fun c => c <> " "%char) (take (k - stt_idx st) (drop (stt_idx st) chars))
  /\ Forall (fun w => Forall (fun c => c <> " "%char) (String.list_ascii_of_string w))
            (word_list st)
  /\ String.list_ascii_of_string
       (join_space (word_list st ++ [str_slice (stt_idx st) k chars]))
     = take k chars.

(** ** Silence time stamps *)

(** The variables of the loop of [_get_silence_timestamps]. *)
Record silence_state : Type := mk_silence {
  spaces : list (nat * nat);
  idx_state : nat;
  state : string
}.

(** The body of [for idx in range(1, probs.shape[0])]. *)
Definition silence_step
    (probs : list (list float)) (symbol_idx : Z) (state_symbol : string)
    (st : silence_state) (idx : nat) : result silence_state :=
  row ← getitem probs idx;
  current_char_idx ← Np.argmax row;
  let st :=
    if bool_decide (state st = state_symbol)
       && negb (Z.of_nat current_char_idx =? 0)
       && negb (Z.of_nat current_char_idx =? symbol_idx)
    then {| spaces := spaces st ++ [(idx_state st, (idx - 1)%nat)];
            idx_state := idx_state st; state := "" |}
    else st in
  Ok (if bool_decide (state st = "") then
        if Z.of_nat current_char_idx =? symbol_idx
        then {| spaces := spaces st; idx_state := idx; state := state_symbol |}
        else st
      else st).

(** [_get_silence_timestamps]: the runs of frames in the state
    [state_symbol], as pairs of the first and the last frame index. *)
Definition _get_silence_timestamps
    (probs : list (list float)) (symbol_idx : Z) (state_symbol : string)
  : result (list (nat * nat)) :=
  row ← getitem probs 0;
  first ← Np.argmax row;
  let state0 := if Z.of_nat first =? symbol_idx then state_symbol else "" in
  st ← for_each (silence_step probs symbol_idx state_symbol)
                (seq 1 (length probs - 1)) (mk_silence [] 0 state0);
  Ok (if bool_decide (state st = state_symbol)
      then spaces st ++ [(idx_state st, (length probs - 1)%nat)]
      else spaces st).

(** The index that [np.argmax] gives for the frame [j]. *)
Definition frame_class (probs : list (list float)) (j : nat) : option nat :=
  match probs !! j with
  | Some (x :: row) => Some (Np.argmax_from x 0 1 row)
  | _ => None
  end.

(** The frame [j] holds the symbol, or holds the symbol or the index 0. *)
Definition is_symbol (probs : list (list float)) (symbol_idx : Z) (j : nat) : Prop :=
  exists c, frame_class probs j = Some c /\ Z.of_nat c = symbol_idx.

Definition keeps_symbol (probs : list (list float)) (symbol_idx : Z) (j : nat) : Prop :=
  exists c, frame_class probs j = Some c /\ (Z.of_nat c = symbol_idx \/ c = 0%nat).

(** What the loop has collected after the frames below [k]. *)
Definition silence_inv
    (probs : list (list float)) (symbol_idx : Z) (state_symbol : string)
    (k : nat) (st : silence_state) : Prop :=
  (state st = state_symbol \/ state st = "")
  /\ (state st = state_symbol ->
      (idx_state st < k)%nat
      /\ is_symbol probs symbol_idx (idx_state st)
      /\ (forall j, (idx_state st <= j < k)%nat -> keeps_symbol probs symbol_idx j)
      /\ Forall (fun ab : nat * nat => (ab.2 + 1 < idx_state st)%nat) (spaces st))
  /\ Forall (fun ab : nat * nat =>
               (ab.1 <= ab.2)%nat /\ (ab.2 + 1 < k)%nat
               /\ is_symbol probs symbol_idx ab.1
               /\ forall j, (ab.1 <= j <= ab.2)%nat -> keeps_symbol probs symbol_idx j)
            (spaces st)
  /\ (forall i ab ab', spaces st !! i = Some ab -> spaces st !! S i = Some ab' ->
                       (ab.2 + 1 < ab'.1)%nat)
  /\ forall j, (j < k)%nat -> is_symbol probs symbol_idx j ->
               (exists ab, ab ∈ spaces st /\ (ab.1 <= j <= ab.2)%nat)
               \/ (state st = state_symbol /\ (idx_state st <= j)%nat).

(** ** Blocks of merged intervals *)

(** A block of consecutive intervals, with its first interval apart, and
    the interval that spans it. *)
Definition block_span (g : timestamp * list timestamp) : timestamp :=
  (g.1.1, (default g.1 (last g.2)).2).

Definition block_intervals (g : timestamp * list timestamp) : list timestamp :=
  g.1 :: g.2.

(** ** The keys of the structured transcripts *)

(** The structured transcripts after [i] sessions: a session identifier has
    no entry exactly when none of its sessions has a word. *)
Definition json_keys_inv
    (audio_file_list : list string) (word_ts_list : list (list timestamp))
    (i : nat) (out : transcripts) : Prop :=
  forall u, json_result out !! u = None
            <-> forall k path ts, (k < i)%nat -> audio_file_list !! k = Some path ->
                  get_uniq_id_from_audio_path path = u ->
                  word_ts_list !! k = Some ts -> ts = [].

(** A voice-activity trace with one frame below the threshold 0.5. *)
Definition sample_trace : list float := [1; 1; 1; 1; 1; 1; 1; 1; 1; 1; 1; 1; 0; 1]%float.

(** ** The interval active at the midpoint of a word *)

(** The interval [lab] is active at the time [t]: it has begun and it has
    not ended. *)
Definition active_at (lab : label) (t : float) : Prop :=
  (start_point lab <=? t)%float = true /\ (t <? end_point lab)%float = true.

(** No interval begins before the one before it has ended. *)
Definition in_order (labels : list label) : Prop :=
  forall i a b, labels !! i = Some a -> labels !! S i = Some b ->
                (end_point a <=? start_point b)%float = true.

(** The words keep up with the pointer [idx]: the interval active at the
    midpoint of each word is the one at the pointer or the one after it,
    and the pointer follows; [acts] lists the indices of these intervals. *)
Fixpoint keeps_up
    (labels : list label) (idx : nat) (word_ts : list timestamp) (acts : list nat)
  : Prop :=
  match word_ts, acts with
  | [], [] => True
  | w :: word_ts', i :: acts' =>
      (i = idx \/ i = S idx)
      /\ (exists lab, labels !! i = Some lab /\ active_at lab (midpoint w))
      /\ keeps_up labels i word_ts' acts'
  | _, _ => False
  end.

(** Three intervals, and one word that is spoken during the third. *)
Definition skip_labels : list label :=
  [mk_label 0 1 "speaker_0"; mk_label 1 2 "speaker_1"; mk_label 2 3 "speaker_2"].
Definition late_word_ts : list timestamp := [(2.4, 2.6)%float].

(** The first two words of [sample_words]: each lies in the interval at
    the pointer or in the next one. *)
Definition kept_words : list string := ["hi"; "there"].
Definition kept_word_ts : list timestamp := [(0.1, 0.4); (0.6, 1.5)]%float.

(** ** Floats between zero and one *)

(** A float of the interval from zero to one, on the specification side: a
    zero, a positive number below one (its exponent is at most -53), or
    one. *)
Definition unit_sf (x : spec_float) : Prop :=
  match x with
  | S754_zero _ => True
  | S754_finite false m e => e <= -53 \/ (e = -52 /\ m = 4503599627370496%positive)
  | _ => False
  end.

(** The [WDER_dict] that [get_WDER] returns for the two sessions of
    [two_riva]. *)
Definition two_wder : gmap string float :=
  {[ "a" := 1%float; "b" := 0%float; "total" := 0.25%float ]}.

(** ** Theorems *)

(** *** Facts about binary64 comparison and multiplication *)

Section FloatOrder.

Lemma SFcompare_antisym x y :
  SFcompare y x = CompOpp <$> SFcompare x y.
Proof.
  destruct x as [sx|sx| |sx mx ex], y as [sy|sy| |sy my ey]; simpl;
    try reflexivity; try (destruct sx; reflexivity); try (destruct sy; reflexivity);
    try (destruct sx, sy; reflexivity).
  change (Pos.compare_cont Eq my mx) with (Pos.compare my mx).
  change (Pos.compare_cont Eq mx my) with (Pos.compare mx my).
  rewrite (Z.compare_antisym ex ey), (Pos.compare_antisym mx my).
  destruct sx, sy; simpl; try reflexivity;
    destruct (ex ?= ey); simpl; try reflexivity; f_equal;
    destruct (mx ?= my)%positive; reflexivity.
Qed.

Lemma SFcompare_refl x : SFcompare x x = Some Eq \/ SFcompare x x = None.
Proof.
  destruct x as [s|s| |s m e]; simpl; auto.
  - destruct s; auto.
  - change (Pos.compare_cont Eq m m) with (Pos.compare m m).
    rewrite Z.compare_refl, Pos.compare_refl. destruct s; auto.
Qed.

Lemma ltb_irrefl x : (x <? x)%float = false.
Proof.
  rewrite ltb_spec. unfold SFltb.
  destruct (SFcompare_refl (Prim2SF x)) as [-> | ->]; reflexivity.
Qed.

Lemma ltb_asym x y : (x <? y)%float = true -> (y <? x)%float = false.
Proof.
  rewrite !ltb_spec. unfold SFltb. rewrite (SFcompare_antisym (Prim2SF x) (Prim2SF y)).
  destruct (SFcompare (Prim2SF x) (Prim2SF y)) as [[]|]; simpl; congruence.
Qed.

Lemma sf_ge_trans x y z : sf_ge x y -> sf_ge y z -> sf_ge x z.
Proof.
  unfold sf_ge.
  destruct x as [sx|sx| |sx mx ex], y as [sy|sy| |sy my ey], z as [sz|sz| |sz mz ez];
    simpl;
    repeat match goal with s : bool |- _ => destruct s end; simpl;
    try (intros [|] [|]; (congruence || auto); fail).
  all: change (Pos.compare_cont Eq mx my) with (Pos.compare mx my).
  all: change (Pos.compare_cont Eq my mz) with (Pos.compare my mz).
  all: change (Pos.compare_cont Eq mx mz) with (Pos.compare mx mz).
  all: destruct (Z.compare_spec ex ey), (Z.compare_spec ey ez), (Z.compare_spec ex ez);
    try lia; simpl; try (intros [|] [|]; (congruence || auto); fail).
  all: destruct (Pos.compare_spec mx my), (Pos.compare_spec my mz), (Pos.compare_spec mx mz);
    try lia; simpl; intros [|] [|]; (congruence || auto).
Qed.

Lemma is_nan_spec x :
  is_nan x = match Prim2SF x with S754_nan => true | _ => false end.
Proof.
  unfold is_nan. rewrite FloatAxioms.eqb_spec. unfold SFeqb.
  destruct (SFcompare_refl (Prim2SF x)) as [H | H]; rewrite H;
    destruct (Prim2SF x) as [s|s| |s m e]; simpl in *; try reflexivity; try discriminate.
Qed.

Lemma not_ltb_ge x y :
  (x <? y)%float = false -> is_nan x = false -> is_nan y = false ->
  sf_ge (Prim2SF x) (Prim2SF y).
Proof.
  rewrite !is_nan_spec, ltb_spec. unfold SFltb, sf_ge.
  destruct (Prim2SF x) as [sx|sx| |sx mx ex], (Prim2SF y) as [sy|sy| |sy my ey];
    try discriminate; intros H _ _;
    destruct (SFcompare _ _) as [[]|] eqn:Hc; try discriminate; auto;
    simpl in Hc; repeat match goal with s : bool |- _ => destruct s end; discriminate.
Qed.

Lemma ltb_nan_l x y : is_nan x = true -> (x <? y)%float = false.
Proof.
  rewrite is_nan_spec, ltb_spec. unfold SFltb.
  destruct (Prim2SF x); try discriminate. reflexivity.
Qed.

Lemma ltb_nan_r x y : is_nan y = true -> (x <? y)%float = false.
Proof.
  rewrite is_nan_spec, ltb_spec. unfold SFltb.
  destruct (Prim2SF y); try discriminate. destruct (Prim2SF x); reflexivity.
Qed.

Lemma ltb_neg_trans x y z :
  is_nan y = false ->
  (x <? y)%float = false -> (y <? z)%float = false -> (x <? z)%float = false.
Proof.
  intros Hy Hxy Hyz.
  destruct (is_nan x) eqn:Hx; [now apply ltb_nan_l|].
  destruct (is_nan z) eqn:Hz; [now apply ltb_nan_r|].
  pose proof (sf_ge_trans _ _ _ (not_ltb_ge _ _ Hxy Hx Hy) (not_ltb_ge _ _ Hyz Hy Hz)) as H.
  rewrite ltb_spec. unfold SFltb. destruct H as [-> | ->]; reflexivity.
Qed.

End FloatOrder.

(** Multiplying by one is exact: the product of the mantissas is shifted
    back by 52 bits without losing any. *)

Lemma digits2_pos_shift52 m :
  Zpos (digits2_pos (4503599627370496 * m)) = Zpos (digits2_pos m) + 52.
Proof.
  change (4503599627370496 * m)%positive
    with (m~0~0~0~0~0~0~0~0~0~0~0~0~0~0~0~0~0~0~0~0~0~0~0~0~0~0~0~0~0~0~0~0~0~0~0~0~0~0~0~0~0~0~0~0~0~0~0~0~0~0~0~0)%positive.
  cbn [digits2_pos]. lia.
Qed.

Lemma shr_shift52 m e0 :
  shr {| shr_m := Zpos (4503599627370496 * m); shr_r := false; shr_s := false |} e0 52
  = ({| shr_m := Zpos m; shr_r := false; shr_s := false |}, e0 + 52).
Proof.
  change (4503599627370496 * m)%positive
    with (m~0~0~0~0~0~0~0~0~0~0~0~0~0~0~0~0~0~0~0~0~0~0~0~0~0~0~0~0~0~0~0~0~0~0~0~0~0~0~0~0~0~0~0~0~0~0~0~0~0~0~0~0)%positive.
  reflexivity.
Qed.

Lemma round_one_mul s m e :
  bounded prec emax m e = true ->
  binary_round_aux prec emax s (Zpos (4503599627370496 * m)) (-52 + e) loc_Exact
  = S754_finite s m e.
Proof.
  unfold bounded, canonical_mantissa. intros [Hc He]%andb_prop.
  apply Z.eqb_eq in Hc.
  unfold binary_round_aux, shr_fexp.
  unfold Zdigits2 at 1. rewrite digits2_pos_shift52.
  replace (Z.pos (digits2_pos m) + 52 + (-52 + e)) with (Z.pos (digits2_pos m) + e) by lia.
  rewrite Hc. replace (e - (-52 + e)) with 52 by lia.
  cbn [shr_record_of_loc]. rewrite shr_shift52.
  cbn [loc_of_shr_record shr_m round_nearest_even].
  replace (-52 + e + 52) with e by lia.
  unfold Zdigits2. rewrite Hc, Z.sub_diag. cbn [shr shr_record_of_loc shr_m].
  rewrite He. reflexivity.
Qed.

Lemma mul_1_l (y : float) : (1 * y)%float = y.
Proof.
  apply Prim2SF_inj. rewrite mul_spec.
  pose proof (Prim2SF_valid y) as Hv.
  change (Prim2SF 1) with (S754_finite false 4503599627370496 (-52)).
  destruct (Prim2SF y) as [s|s| |s m e]; try reflexivity.
  unfold SF64mul, SFmul. cbn [xorb]. apply round_one_mul. exact Hv.
Qed.

(** Reduce a bind whose first computation has returned. *)
Ltac py_step := cbn [mbind result_bind bind mret result_ret].
Ltac py_step_in H := cbn [mbind result_bind bind mret result_ret] in H.

Section Merger.

Variable thr : float.

Lemma merge_right_nonempty a l : merge_right thr (a :: l) <> [].
Proof.
  unfold merge_right; simpl. unfold merge_step.
  destruct (foldr _ _ l) as [|b rest]; [discriminate|].
  destruct (_ <=? _)%float; discriminate.
Qed.

Lemma merge_loop_spec pre suf :
  suf <> [] ->
  merge_loop thr (length pre) (pre ++ merge_right thr suf)
  = Ok (merge_right thr (pre ++ suf)).
Proof.
  revert suf. induction pre as [|a pre IH] using rev_ind; intros suf Hsuf.
  - reflexivity.
  - rewrite length_app, Nat.add_1_r. simpl merge_loop.
    destruct suf as [|s suf]; [congruence|].
    pose proof (merge_right_nonempty s suf) as Hne.
    destruct (merge_right thr (s :: suf)) as [|b rest] eqn:Hm; [congruence|].
    rewrite <- !app_assoc. simpl app.
    assert (Hlen : (1 <? length (pre ++ a :: b :: rest))%nat = true).
    { apply Nat.ltb_lt. rewrite length_app. simpl. lia. }
    rewrite Hlen.
    assert (Hb : (pre ++ a :: b :: rest) !! S (length pre) = Some b).
    { rewrite lookup_app_r by lia.
      replace (S (length pre) - length pre)%nat with 1%nat by lia. reflexivity. }
    assert (Ha : (pre ++ a :: b :: rest) !! length pre = Some a).
    { rewrite lookup_app_r by lia. rewrite Nat.sub_diag. reflexivity. }
    unfold getitem, pop. rewrite Hb, Ha. py_step.
    specialize (IH (a :: s :: suf) ltac:(discriminate)).
    assert (Hstep : merge_right thr (a :: s :: suf) = merge_step thr a (b :: rest)).
    { unfold merge_right in *. simpl. simpl in Hm. rewrite Hm. reflexivity. }
    rewrite Hstep in IH. unfold merge_step in IH.
    destruct (b.1 - a.2 <=? thr)%float.
    + py_step.
      assert (Hd1 : delete (S (length pre)) (pre ++ a :: b :: rest) = pre ++ a :: rest).
      { replace (pre ++ a :: b :: rest) with ((pre ++ [a]) ++ b :: rest)
          by (rewrite <- app_assoc; reflexivity).
        replace (S (length pre)) with (length (pre ++ [a]))
          by (rewrite length_app; simpl; lia).
        rewrite delete_middle, <- app_assoc. reflexivity. }
      rewrite Hd1.
      assert (Ha' : (pre ++ a :: rest) !! length pre = Some a).
      { rewrite lookup_app_r by lia. rewrite Nat.sub_diag. reflexivity. }
      rewrite Ha'. py_step.
      assert (Hd2 : delete (length pre) (pre ++ a :: rest) = pre ++ rest).
      { apply delete_middle. }
      rewrite Hd2. unfold insert_at.
      rewrite take_app_length, drop_app_length. py_step.
      rewrite IH. reflexivity.
    + py_step. rewrite IH. reflexivity.
Qed.

End Merger.

(** *** The speech-interval merger: claims C3 and C4 *)

Section MergerClaims.

Variable self : ASR_DIAR_OFFLINE.

Lemma get_speech_labels_merge_right (l : list timestamp) :
  _get_speech_labels_from_decoded_prediction self l
  = Ok (merge_right (nonspeech_threshold self) l).
Proof.
  unfold _get_speech_labels_from_decoded_prediction.
  destruct l as [|a l]; [reflexivity|].
  destruct (exists_last (l := a :: l) ltac:(discriminate)) as (pre & z & Hl).
  rewrite Hl. rewrite length_app, Nat.add_1_r, Nat.sub_succ, Nat.sub_0_r.
  apply (merge_loop_spec (nonspeech_threshold self) pre [z]). discriminate.
Qed.

Lemma merge_right_cons thr a (l : list timestamp) :
  merge_right thr (a :: l) = merge_step thr a (merge_right thr l).
Proof. reflexivity. Qed.

Lemma merge_right_gaps_exceed thr (l : list timestamp) :
  gaps_exceed thr (merge_right thr l).
Proof.
  induction l as [|a l IH]; [exact I|].
  rewrite merge_right_cons. unfold merge_step.
  destruct (merge_right thr l) as [|b rest]; [exact I|].
  destruct (b.1 - a.2 <=? thr)%float eqn:Hgap.
  - destruct rest as [|c rest]; [exact I|]. exact IH.
  - split; [exact Hgap | exact IH].
Qed.

Lemma merge_right_fixpoint thr (l : list timestamp) :
  gaps_exceed thr l -> merge_right thr l = l.
Proof.
  induction l as [|a l IH]; [reflexivity|].
  intros Hg. rewrite merge_right_cons.
  destruct l as [|b l]; [reflexivity|].
  destruct Hg as [Hgap Hg]. rewrite (IH Hg). unfold merge_step. rewrite Hgap.
  reflexivity.
Qed.

End MergerClaims.

(** C3, as stated: the three sample intervals with threshold 0.1 do not
    merge into the single interval [0, 3].  In binary64 the first gap
    [1.1 - 1] is 0.10000000000000009, which is not [<= 0.1]; only the
    second pair is merged. *)
Lemma sample_intervals_not_single :
  _get_speech_labels_from_decoded_prediction (__init__ params_01) sample_intervals
  <> Ok [(0, 3)%float].
Proof.
  rewrite get_speech_labels_merge_right.
  vm_compute. intros H. inversion H.
Qed.

(** C3, amended: the merger returns the right-to-left pass [merge_right],
    in which an interval absorbs the head of the already merged suffix
    whenever the binary64 gap [next.start - previous.end] is [<=] the
    threshold, so merges cascade; the sample intervals with threshold 0.1
    give [0, 1], [1.1, 3], and intervals whose gaps are exactly
    representable and within the threshold give the single interval [0, 3]. *)
Theorem merger_right_to_left (self : ASR_DIAR_OFFLINE) (l : list timestamp) :
  _get_speech_labels_from_decoded_prediction self l
  = Ok (merge_right (nonspeech_threshold self) l)
  /\ (forall a b rest,
        merge_right (nonspeech_threshold self) l = b :: rest ->
        merge_right (nonspeech_threshold self) (a :: l)
        = if (b.1 - a.2 <=? nonspeech_threshold self)%float
          then (a.1, b.2) :: rest else a :: b :: rest)
  /\ _get_speech_labels_from_decoded_prediction (__init__ params_01) sample_intervals
     = Ok [(0, 1); (1.1, 3)]%float
  /\ _get_speech_labels_from_decoded_prediction (__init__ params_0125) dyadic_intervals
     = Ok [(0, 3)%float].
Proof.
  split; [apply get_speech_labels_merge_right|].
  split.
  { intros a b rest Hm. rewrite merge_right_cons, Hm. reflexivity. }
  split; rewrite get_speech_labels_merge_right; vm_compute; reflexivity.
Qed.

(** C4: the merger is idempotent.  It always returns a list; in that list
    no neighbouring gap is within the threshold, and merging it again
    returns it unchanged. *)
Theorem merger_idempotent (self : ASR_DIAR_OFFLINE) (l : list timestamp) :
  exists merged,
    _get_speech_labels_from_decoded_prediction self l = Ok merged
    /\ gaps_exceed (nonspeech_threshold self) merged
    /\ _get_speech_labels_from_decoded_prediction self merged = Ok merged.
Proof.
  exists (merge_right (nonspeech_threshold self) l).
  split; [apply get_speech_labels_merge_right|].
  split; [apply merge_right_gaps_exceed|].
  rewrite get_speech_labels_merge_right. f_equal.
  apply merge_right_fixpoint, merge_right_gaps_exceed.
Qed.

(** *** The overlap test: claim C5 *)

Lemma isOverlapArray_tile (refs : list timestamp) (w : timestamp) n :
  (length refs <= n)%nat ->
  isOverlapArray refs (Np.tile w n)
  = (fun r => (r.1 <? w.2)%float && (w.1 <? r.2)%float) <$> refs.
Proof.
  revert n. induction refs as [|r refs IH]; intros n Hn; [reflexivity|].
  destruct n as [|n]; [simpl in Hn; lia|].
  unfold isOverlapArray, Np.tile in *. simpl.
  rewrite (IH n) by (simpl in Hn; lia). f_equal. apply andb_comm.
Qed.

Lemma getOverlapRangeArray_tile (refs : list timestamp) (w : timestamp) n :
  (length refs <= n)%nat ->
  getOverlapRangeArray refs (Np.tile w n)
  = (fun r => (Np.minimum r.2 w.2 - Np.maximum r.1 w.1)%float) <$> refs.
Proof.
  revert n. induction refs as [|r refs IH]; intros n Hn; [reflexivity|].
  destruct n as [|n]; [simpl in Hn; lia|].
  unfold getOverlapRangeArray, Np.tile in *. simpl.
  rewrite (IH n) by (simpl in Hn; lia). reflexivity.
Qed.

(** C5: against the tiled word span, the overlap test holds for a
    reference row exactly when [wordEnd > refStart] and [refEnd > wordStart];
    spans that touch at an endpoint do not overlap; the overlap length is
    [min(refEnd, wordEnd) - max(refStart, wordStart)]; the word [1.0, 2.0]
    overlaps the reference [1.5, 2.5] with length 0.5. *)
Theorem overlap_test (refs : list timestamp) (wordStart wordEnd : float) :
  isOverlapArray refs (Np.tile (wordStart, wordEnd) (length refs))
  = (fun ref => (ref.1 <? wordEnd)%float && (wordStart <? ref.2)%float) <$> refs
  /\ getOverlapRangeArray refs (Np.tile (wordStart, wordEnd) (length refs))
     = (fun ref => (Np.minimum ref.2 wordEnd - Np.maximum ref.1 wordStart)%float) <$> refs
  /\ (forall refEnd, isOverlapArray [(wordEnd, refEnd)] [(wordStart, wordEnd)] = [false])
  /\ (forall refStart, isOverlapArray [(refStart, wordStart)] [(wordStart, wordEnd)] = [false])
  /\ isOverlapArray [(1.5, 2.5)%float] (Np.tile (1, 2)%float 1) = [true]
  /\ getOverlapRangeArray [(1.5, 2.5)%float] (Np.tile (1, 2)%float 1) = [0.5%float].
Proof.
  split; [apply isOverlapArray_tile; lia|].
  split; [apply getOverlapRangeArray_tile; lia|].
  split.
  { intros refEnd. unfold isOverlapArray. simpl.
    rewrite ltb_irrefl, andb_false_r. reflexivity. }
  split.
  { intros refStart. unfold isOverlapArray. simpl.
    rewrite ltb_irrefl. reflexivity. }
  split; vm_compute; reflexivity.
Qed.

(** *** Loops *)

Section Loops.

Context {A S : Type}.
Variable body : S -> nat * A -> result S.

Lemma for_each_app (xs ys : list (nat * A)) acc :
  for_each body (xs ++ ys) acc = bind (for_each body xs acc) (for_each body ys).
Proof.
  revert acc. induction xs as [|x xs IH]; intros acc; simpl; [reflexivity|].
  destruct (body acc x); simpl; [apply IH | reflexivity].
Qed.

Lemma enumerate_snoc (xs : list A) x :
  enumerate (xs ++ [x]) = enumerate xs ++ [(length xs, x)].
Proof.
  unfold enumerate. rewrite imap_app. simpl. rewrite Nat.add_0_r. reflexivity.
Qed.

(** Partial correctness: an invariant carried through a loop that returns. *)
Lemma for_each_enumerate_inv (I : nat -> S -> Prop) (xs : list A) acc0 s :
  I 0%nat acc0 ->
  (forall k x s s', xs !! k = Some x -> I k s -> body s (k, x) = Ok s' -> I (Datatypes.S k) s') ->
  for_each body (enumerate xs) acc0 = Ok s ->
  I (length xs) s.
Proof.
  intros H0. revert s. induction xs as [|x xs IH] using rev_ind; intros s Hstep Hrun.
  - simpl in Hrun. injection Hrun as <-. exact H0.
  - rewrite enumerate_snoc, for_each_app in Hrun.
    destruct (for_each body (enumerate xs) acc0) as [s1|e] eqn:H1; [|discriminate].
    simpl in Hrun. destruct (body s1 (length xs, x)) as [s2|e] eqn:H2; [|discriminate].
    simpl in Hrun. injection Hrun as <-.
    rewrite length_app, Nat.add_1_r.
    apply (Hstep (length xs) x s1 s2).
    + rewrite lookup_app_r by lia. rewrite Nat.sub_diag. reflexivity.
    + apply IH; [|reflexivity].
      intros k y t t' Hk. apply Hstep. rewrite lookup_app_l; [exact Hk|].
      apply lookup_lt_Some in Hk. exact Hk.
    + exact H2.
Qed.

(** Total correctness: the loop returns when every iteration does. *)
Lemma for_each_enumerate_ok (I : nat -> S -> Prop) (xs : list A) acc0 :
  I 0%nat acc0 ->
  (forall k x s, xs !! k = Some x -> I k s ->
                 exists s', body s (k, x) = Ok s' /\ I (Datatypes.S k) s') ->
  exists s, for_each body (enumerate xs) acc0 = Ok s /\ I (length xs) s.
Proof.
  intros H0. induction xs as [|x xs IH] using rev_ind; intros Hstep.
  - exists acc0. split; [reflexivity | exact H0].
  - destruct IH as (s1 & H1 & HI).
    { intros k y t Hk. apply Hstep. rewrite lookup_app_l; [exact Hk|].
      apply lookup_lt_Some in Hk. exact Hk. }
    destruct (Hstep (length xs) x s1) as (s2 & H2 & HI2); [|exact HI|].
    { rewrite lookup_app_r by lia. rewrite Nat.sub_diag. reflexivity. }
    exists s2. rewrite enumerate_snoc, for_each_app, H1. simpl. rewrite H2.
    split; [reflexivity|]. rewrite length_app, Nat.add_1_r. exact HI2.
Qed.

End Loops.

(** *** Silence extension *)

Lemma getitem_int_ok {A} (xs : list A) (i : Z) :
  - Z.of_nat (length xs) <= i < Z.of_nat (length xs) ->
  exists x, getitem_int xs i = Ok x.
Proof.
  intros Hi. unfold getitem_int, getitem.
  destruct (0 <=? i) eqn:H0.
  - apply Z.leb_le in H0. assert (Hlt : (i <? Z.of_nat (length xs)) = true) by (apply Z.ltb_lt; lia).
    rewrite Hlt. simpl.
    destruct (lookup_lt_is_Some_2 xs (Z.to_nat i)) as [x Hx]; [lia|].
    rewrite Hx. eauto.
  - apply Z.leb_gt in H0. simpl.
    assert (Hge : (- Z.of_nat (length xs) <=? i) = true) by (apply Z.leb_le; lia).
    assert (Hneg : (i <? 0) = true) by (apply Z.ltb_lt; lia).
    rewrite Hge, Hneg. simpl.
    destruct (lookup_lt_is_Some_2 xs (Z.to_nat (Z.of_nat (length xs) + i))) as [x Hx]; [lia|].
    rewrite Hx. eauto.
Qed.

Lemma silence_scan_ok fuel c (vad_frames : list float) thr :
  - Z.of_nat (length vad_frames) <= c ->
  exists c', silence_scan fuel c vad_frames thr = Ok c' /\ c <= c'.
Proof.
  revert c. induction fuel as [|fuel IH]; intros c Hc; simpl.
  - exists c. split; [reflexivity | lia].
  - destruct (c <? Z.of_nat (length vad_frames)) eqn:Hlt.
    + apply Z.ltb_lt in Hlt.
      destruct (getitem_int_ok vad_frames c) as [x Hx]; [lia|].
      rewrite Hx. py_step. destruct (x <? thr)%float.
      * exists c. split; [reflexivity | lia].
      * destruct (IH (c + 1)) as (c' & Hc' & Hle); [lia|].
        exists c'. split; [exact Hc' | lia].
    + exists c. split; [reflexivity | lia].
Qed.

(** The scan stops at a frame below the threshold or at the end of the trace. *)
Lemma silence_scan_stops c (vad_frames : list float) thr c' :
  silence_scan (Z.to_nat (Z.of_nat (length vad_frames) - c)) c vad_frames thr = Ok c' ->
  Z.of_nat (length vad_frames) <= c'
  \/ exists x, getitem_int vad_frames c' = Ok x /\ (x <? thr)%float = true.
Proof.
  remember (Z.to_nat (Z.of_nat (length vad_frames) - c)) as fuel eqn:Hf.
  revert c Hf. induction fuel as [|fuel IH]; intros c Hf; simpl.
  - intros [= <-]. left. lia.
  - destruct (c <? Z.of_nat (length vad_frames)) eqn:Hlt; [|intros [= <-]; left; apply Z.ltb_ge in Hlt; lia].
    destruct (getitem_int vad_frames c) as [x|e] eqn:Hx; py_step; [|discriminate].
    destruct (x <? thr)%float eqn:Hthr.
    + intros [= <-]. right. eauto.
    + apply IH. lia.
Qed.

Lemma closest_silence_start_ok z (vad_frames : list float) p :
  - Z.of_nat (length vad_frames) <= z + 10 ->
  exists x, closest_silence_start z vad_frames p 10 = Ok x.
Proof.
  intros Hz. unfold closest_silence_start.
  destruct (silence_scan_ok (Z.to_nat (Z.of_nat (length vad_frames) - (z + 10)))
              (z + 10) vad_frames (SAD_threshold_for_word_ts p) Hz) as (c' & Hc' & _).
  rewrite Hc'. py_step. eauto.
Qed.

Lemma fixed_word_len_floor p v wl n :
  (fixed_word_len p v wl n <? wl)%float = false.
Proof.
  unfold fixed_word_len. set (a := Py.min _ (Py.min v n)). unfold Py.max.
  destruct (a <? wl)%float eqn:H; [apply ltb_irrefl | exact H].
Qed.

Lemma fixed_word_len_cap p v wl n :
  (max_word_ts_length_in_sec p <? fixed_word_len p v wl n)%float = true ->
  fixed_word_len p v wl n = wl.
Proof.
  unfold fixed_word_len. set (x := Py.min v n).
  set (a := Py.min _ x). unfold Py.max.
  destruct (a <? wl)%float eqn:H; [reflexivity|].
  subst a. unfold Py.min.
  destruct (x <? max_word_ts_length_in_sec p)%float eqn:Hc.
  - intros Hx. apply ltb_asym in Hc. congruence.
  - rewrite ltb_irrefl. discriminate.
Qed.

Lemma fixed_word_len_next p v wl n :
  is_nan v = false ->
  (n <? fixed_word_len p v wl n)%float = true ->
  fixed_word_len p v wl n = wl.
Proof.
  intros Hv. unfold fixed_word_len.
  set (a := Py.min _ (Py.min v n)). unfold Py.max.
  destruct (a <? wl)%float eqn:H; [reflexivity|].
  subst a. unfold Py.min. destruct (n <? v)%float eqn:Hnv.
  - destruct (n <? max_word_ts_length_in_sec p)%float eqn:Hc.
    + rewrite ltb_irrefl. discriminate.
    + rewrite Hc. discriminate.
  - destruct (v <? max_word_ts_length_in_sec p)%float eqn:Hc.
    + rewrite Hnv. discriminate.
    + rewrite (ltb_neg_trans n v _ Hv Hnv Hc). discriminate.
Qed.

Section Enhance.

Variables (self : ASR_DIAR_OFFLINE) (p : params).

Lemma enhance_word_inv uniq_id (seq : list timestamp) N buf k w buf' :
  enhance_word self p uniq_id seq N buf (k, w) = Ok buf' ->
  if (k <? N - 1)%nat
  then exists next v, seq !! S k = Some next
                      /\ silence_estimate self p uniq_id w v
                      /\ buf' = buf ++ [enhanced_entry p v w next]
  else buf' = buf.
Proof.
  unfold enhance_word. destruct (k <? N - 1)%nat; [|intros [= <-]; reflexivity].
  destruct (int_of_float _) as [z|] eqn:Hz; py_step; [|discriminate].
  destruct (getkey _ _) as [vf|] eqn:Hvf; py_step; [|discriminate].
  destruct (closest_silence_start _ _ _ _) as [c|] eqn:Hc; py_step; [|discriminate].
  unfold getitem. rewrite Nat.add_1_r.
  destruct (seq !! S k) as [next|]; py_step; [|discriminate].
  intros [= <-]. exists next, (round2 (c - w.1)%float).
  split; [reflexivity|]. split; [|reflexivity].
  exists z, vf, c. unfold getkey in Hvf.
  destruct (frame_VAD self !! uniq_id) as [vf'|]; [|discriminate].
  injection Hvf as ->. auto.
Qed.

Lemma enhance_word_ok uniq_id (seq : list timestamp) N buf k w vad_frames :
  frame_VAD self !! uniq_id = Some vad_frames ->
  word_end_ok vad_frames w = true ->
  (S k < length seq)%nat ->
  exists buf', enhance_word self p uniq_id seq N buf (k, w) = Ok buf'.
Proof.
  intros Hvf Hw Hk. unfold enhance_word.
  destruct (k <? N - 1)%nat; [|eauto].
  unfold word_end_ok in Hw.
  destruct (int_of_float _) as [z|]; [|discriminate]. py_step.
  unfold getkey. rewrite Hvf. py_step.
  apply Z.leb_le in Hw.
  destruct (closest_silence_start_ok z vad_frames p Hw) as [c Hc]. rewrite Hc. py_step.
  unfold getitem. rewrite Nat.add_1_r.
  destruct (lookup_lt_is_Some_2 seq (S k) Hk) as [next Hn]. rewrite Hn. py_step.
  eauto.
Qed.

Lemma enhance_inv_step uniq_id (seq : list timestamp) k w buf buf' :
  seq !! k = Some w ->
  enhance_inv self p uniq_id seq k buf ->
  enhance_word self p uniq_id seq (length seq) buf (k, w) = Ok buf' ->
  enhance_inv self p uniq_id seq (S k) buf'.
Proof.
  intros Hk [Hlen Hent] Hrun. apply enhance_word_inv in Hrun.
  destruct (k <? length seq - 1)%nat eqn:Hlt.
  - apply Nat.ltb_lt in Hlt. destruct Hrun as (next & v & Hn & Hv & ->). split.
    + rewrite length_app. cbn [length]. lia.
    + intros j w' next' Hj Hw' Hn'.
      destruct (decide (j = k)) as [->|Hne].
      * exists v. split; [congruence|]. rewrite lookup_app_r by lia.
        replace (k - length buf)%nat with 0%nat by lia.
        simpl. congruence.
      * destruct (Hent j w' next') as (v' & Hs' & Hv'); [lia|assumption|assumption|].
        exists v'. split; [exact Hs'|].
        rewrite lookup_app_l; [exact Hv'|]. apply lookup_lt_Some in Hv'. exact Hv'.
  - apply Nat.ltb_ge in Hlt. subst buf'. split; [lia|].
    intros j w' next' Hj Hw' Hn'. apply Hent; [|assumption|assumption].
    apply lookup_lt_Some in Hn'. lia.
Qed.

Lemma enhance_inv_init uniq_id (seq : list timestamp) :
  enhance_inv self p uniq_id seq 0 [].
Proof. split; [reflexivity|]. intros j w next Hj. lia. Qed.

Lemma enhance_loop_inv uniq_id (seq : list timestamp) buf :
  for_each (enhance_word self p uniq_id seq (length seq)) (enumerate seq) [] = Ok buf ->
  enhance_inv self p uniq_id seq (length seq) buf.
Proof.
  apply (for_each_enumerate_inv _ (enhance_inv self p uniq_id seq)).
  - apply enhance_inv_init.
  - intros k x s s' Hk HI Hrun. exact (enhance_inv_step uniq_id seq k x s s' Hk HI Hrun).
Qed.

Lemma enhance_loop_ok path (seq : list timestamp) :
  utterance_enhanceable self path seq = true ->
  exists buf,
    for_each (enhance_word self p (get_uniq_id_from_audio_path path) seq (length seq))
             (enumerate seq) [] = Ok buf.
Proof.
  intros Hok.
  destruct (for_each_enumerate_ok
              (enhance_word self p (get_uniq_id_from_audio_path path) seq (length seq))
              (fun _ _ => True) seq []) as (buf & Hbuf & _); [exact I| |eauto].
  intros k w buf Hk _.
  assert (Hex : exists buf', enhance_word self p (get_uniq_id_from_audio_path path)
                               seq (length seq) buf (k, w) = Ok buf').
  { destruct (decide (S k < length seq)%nat) as [Hlt|Hge].
    - unfold utterance_enhanceable in Hok.
      destruct (length seq <=? 1)%nat eqn:H1; [apply Nat.leb_le in H1; lia|].
      simpl in Hok.
      destruct (frame_VAD self !! _) as [vf|] eqn:Hvf; [|discriminate].
      apply (enhance_word_ok _ seq _ buf k w vf Hvf); [|exact Hlt].
      rewrite forallb_forall in Hok. apply Hok.
      apply list_elem_of_In, list_elem_of_lookup. exists k.
      rewrite lookup_take_lt by lia. exact Hk.
    - unfold enhance_word.
      assert (Hf : (k <? length seq - 1)%nat = false) by (apply Nat.ltb_ge; lia).
      rewrite Hf. eauto. }
  destruct Hex as [buf' Hrun]. eauto.
Qed.

Lemma enhanced_inv_step audio_file_list (word_ts_list : list (list timestamp)) k seq out out' :
  word_ts_list !! k = Some seq ->
  enhanced_inv self p audio_file_list word_ts_list k out ->
  enhance_utterance self audio_file_list p out (k, seq) = Ok out' ->
  enhanced_inv self p audio_file_list word_ts_list (S k) out'.
Proof.
  intros Hk [Hlen Hent]. unfold enhance_utterance, getitem.
  destruct (audio_file_list !! k) as [path|] eqn:Hp; py_step; [|discriminate].
  destruct (for_each _ _ _) as [buf|] eqn:Hbuf; py_step; [|discriminate].
  intros [= <-]. apply enhance_loop_inv in Hbuf. split.
  - rewrite length_app. cbn [length]. lia.
  - intros i seq' Hi Hseq'. destruct (decide (i = k)) as [->|Hne].
    + exists path, buf. split; [exact Hp|]. rewrite lookup_app_r by lia.
      replace (k - length out)%nat with 0%nat by lia. split; [reflexivity|]. congruence.
    + destruct (Hent i seq') as (path' & buf' & Hp' & Hb & HI); [lia|assumption|].
      exists path', buf'. split; [exact Hp'|]. split; [|exact HI].
      rewrite lookup_app_l; [exact Hb|].
      apply lookup_lt_Some in Hb. exact Hb.
Qed.

Lemma enhanced_inv_init audio_file_list (word_ts_list : list (list timestamp)) :
  enhanced_inv self p audio_file_list word_ts_list 0 [].
Proof. split; [reflexivity|]. intros i seq Hi. lia. Qed.

Lemma get_enhanced_inv audio_file_list (word_ts_list : list (list timestamp)) out :
  get_enhanced_word_ts_list self audio_file_list word_ts_list p = Ok out ->
  enhanced_inv self p audio_file_list word_ts_list (length word_ts_list) out.
Proof.
  apply (for_each_enumerate_inv _ (enhanced_inv self p audio_file_list word_ts_list)).
  - apply enhanced_inv_init.
  - intros k x s s'. apply enhanced_inv_step.
Qed.

Lemma enhanceable_lookup audio_file_list (word_ts_list : list (list timestamp)) k seq :
  enhanceable self audio_file_list word_ts_list = true ->
  word_ts_list !! k = Some seq ->
  exists path, audio_file_list !! k = Some path /\ utterance_enhanceable self path seq = true.
Proof.
  unfold enhanceable. intros [Hlen Hall]%andb_prop Hk.
  apply Nat.leb_le in Hlen.
  destruct (lookup_lt_is_Some_2 audio_file_list k) as [path Hp].
  { apply lookup_lt_Some in Hk. lia. }
  exists path. split; [exact Hp|].
  rewrite forallb_forall in Hall. apply (Hall (path, seq)).
  apply list_elem_of_In, list_elem_of_lookup. exists k.
  unfold zip. apply lookup_zip_with_Some. eauto.
Qed.

Lemma get_enhanced_ok audio_file_list (word_ts_list : list (list timestamp)) :
  enhanceable self audio_file_list word_ts_list = true ->
  exists out,
    get_enhanced_word_ts_list self audio_file_list word_ts_list p = Ok out
    /\ enhanced_inv self p audio_file_list word_ts_list (length word_ts_list) out.
Proof.
  intros Hok.
  apply (for_each_enumerate_ok _ (enhanced_inv self p audio_file_list word_ts_list)).
  - apply enhanced_inv_init.
  - intros k seq out Hk HI.
    destruct (enhanceable_lookup _ _ k seq Hok Hk) as (path & Hp & Hu).
    destruct (enhance_loop_ok path seq Hu) as (buf & Hbuf).
    assert (Hrun : enhance_utterance self audio_file_list p out (k, seq) = Ok (out ++ [buf])).
    { unfold enhance_utterance, getitem. rewrite Hp. py_step. rewrite Hbuf. reflexivity. }
    exists (out ++ [buf]). split; [exact Hrun|].
    exact (enhanced_inv_step _ _ k seq out _ Hk HI Hrun).
Qed.

End Enhance.

(** C8, as stated: a word that is already longer than the cap keeps its
    length.  The first of the two sample words lasts 2 s; with a cap of
    1 s its entry is still [0, 2], longer than the cap. *)
Lemma extension_exceeds_cap :
  get_enhanced_word_ts_list silent_self ["u.wav"] long_word_ts params_cap1
  = Ok [[(0, 2)%float]]
  /\ (max_word_ts_length_in_sec params_cap1 <? 2 - 0)%float = true.
Proof. split; vm_compute; reflexivity. Qed.

(** C8, amended: on inputs that raise nothing the silence extension returns,
    and the entry of every word [w] that has a successor [next] is
    [[w.start, w.start + fixed]] with
    [fixed = max(min(cap, min(vad_est_len, len_to_next_word)), word_len)],
    where [word_len] and [len_to_next_word] are rounded to two decimals.
    [fixed] is never below [word_len]; it exceeds the cap only when it is
    [word_len] itself, and it exceeds [len_to_next_word] only when it is
    [word_len] itself. *)
Theorem silence_extension_bounds
    (self : ASR_DIAR_OFFLINE) (audio_file_list : list string)
    (word_ts_list : list (list timestamp)) (p : params) :
  enhanceable self audio_file_list word_ts_list = true ->
  exists out,
    get_enhanced_word_ts_list self audio_file_list word_ts_list p = Ok out
    /\ forall i path seq k w next,
         audio_file_list !! i = Some path ->
         word_ts_list !! i = Some seq -> seq !! k = Some w -> seq !! S k = Some next ->
         exists buf vad_est_len fixed,
           out !! i = Some buf
           /\ buf !! k = Some (w.1, (w.1 + fixed)%float)
           /\ silence_estimate self p (get_uniq_id_from_audio_path path) w vad_est_len
           /\ fixed = Py.max (Py.min (max_word_ts_length_in_sec p)
                                     (Py.min vad_est_len (round2 (next.1 - w.1 - 0.01))))
                             (round2 (w.2 - w.1))
           /\ (fixed <? round2 (w.2 - w.1))%float = false
           /\ ((max_word_ts_length_in_sec p <? fixed)%float = true ->
               fixed = round2 (w.2 - w.1)%float)
           /\ (is_nan vad_est_len = false ->
               (round2 (next.1 - w.1 - 0.01) <? fixed)%float = true ->
               fixed = round2 (w.2 - w.1)%float).
Proof.
  intros Hok. destruct (get_enhanced_ok self p _ _ Hok) as (out & Hrun & _ & Hent).
  exists out. split; [exact Hrun|].
  intros i path seq k w next Hp Hseq Hw Hn.
  destruct (Hent i seq) as (path' & buf & Hp' & Hb & _ & Hbuf).
  { apply lookup_lt_Some in Hseq. exact Hseq. }
  { exact Hseq. }
  assert (path' = path) as -> by congruence.
  destruct (Hbuf k w next) as (v & Hv & Hk); [|exact Hw|exact Hn|].
  { apply lookup_lt_Some in Hw. exact Hw. }
  exists buf, v,
    (fixed_word_len p v (round2 (w.2 - w.1)) (round2 (next.1 - w.1 - 0.01))).
  split; [exact Hb|]. split; [exact Hk|]. split; [exact Hv|].
  split; [reflexivity|].
  split; [apply fixed_word_len_floor|].
  split; [apply fixed_word_len_cap | apply fixed_word_len_next].
Qed.

Lemma silence_extension_bounds_witness :
  exists out,
    get_enhanced_word_ts_list silent_self ["u.wav"] long_word_ts params_cap1 = Ok out.
Proof.
  destruct (silence_extension_bounds silent_self ["u.wav"] long_word_ts params_cap1
              eq_refl) as (out & Hrun & _).
  exists out. exact Hrun.
Defined.

(** *** The alignment assembler *)

Section Assembler.

Variable strftime : string -> float -> string.

Lemma align_loop_spec labels (ws : list string) uniq_id (ts : list timestamp) n st :
  labels <> [] ->
  (n + length ts <= length ws)%nat ->
  for_each (align_word strftime labels ws uniq_id)
           (imap (fun k x => ((n + k)%nat, x)) ts) st
  = Ok (let asg := assign_speakers labels (idx st) (current st) ts in
        let r := with_words (riva st) (words (riva st) ++ aligned_words (drop n ws) ts asg) in
        {| string_out := render strftime (string_out st) (drop n ws) asg;
           idx := (final_pointer labels (idx st) (current st) ts).1;
           current := (final_pointer labels (idx st) (current st) ts).2;
           riva := r;
           total_riva_dict :=
             match ts with
             | [] => total_riva_dict st
             | _ => <[uniq_id := r]> (total_riva_dict st)
             end |}).
Proof.
  intros Hlab. revert n st. induction ts as [|x ts IH]; intros n st Hlen.
  - simpl. destruct st as [s i c r t]. simpl. rewrite app_nil_r.
    destruct r; reflexivity.
  - cbn [imap for_each]. rewrite Nat.add_0_r.
    cbn [length] in Hlen.
    destruct (lookup_lt_is_Some_2 ws n) as [w Hw]; [lia|].
    assert (Hdrop : drop n ws = w :: drop (S n) ws).
    { apply drop_S. exact Hw. }
    unfold align_word at 1. unfold getitem. rewrite Hw.
    fold (midpoint x).
    assert (Himap : imap ((fun k x0 => ((n + k)%nat, x0)) ∘ S) ts
                    = imap (fun k x0 => ((S n + k)%nat, x0)) ts).
    { apply imap_ext. intros k y _. simpl. f_equal. lia. }
    rewrite Himap.
    cbn [assign_speakers final_pointer]. rewrite Hdrop.
    destruct (midpoint x <? end_point (current st))%float.
    + py_step. fold (bind (A:=align_state) (B:=align_state)).
      rewrite IH by lia. cbn [string_out idx current riva total_riva_dict].
      cbn [render aligned_words fst]. f_equal.
      f_equal.
      * unfold with_words, add_json_to_dict. cbn. rewrite <- app_assoc. reflexivity.
      * unfold with_words, add_json_to_dict. cbn. rewrite <- app_assoc.
        destruct ts; [reflexivity|]. rewrite insert_insert_eq. reflexivity.
    + set (idx' := Nat.min (idx st + 1) (length labels - 1)).
      destruct (lookup_lt_is_Some_2 labels idx') as [lab Hl].
      { destruct labels; [congruence|]. subst idx'. simpl. lia. }
      rewrite Hl. py_step. fold (bind (A:=align_state) (B:=align_state)).
      rewrite IH by lia. cbn [string_out idx current riva total_riva_dict default].
      cbn [render aligned_words fst]. f_equal.
      f_equal.
      * unfold with_words, add_json_to_dict. cbn. rewrite <- app_assoc. reflexivity.
      * unfold with_words, add_json_to_dict. cbn. rewrite <- app_assoc.
        destruct ts; [reflexivity|]. rewrite insert_insert_eq. reflexivity.
Qed.

Lemma align_utterance_spec diar_labels word_list (word_ts_list : list (list timestamp))
    out k path labels first ws ts :
  diar_labels !! k = Some labels -> labels !! 0%nat = Some first ->
  word_list !! k = Some ws -> word_ts_list !! k = Some ts ->
  (length ts <= length ws)%nat ->
  align_utterance strftime diar_labels word_list word_ts_list out (k, path)
  = Ok (aligned_out strftime out (get_uniq_id_from_audio_path path) labels first ws ts).
Proof.
  intros Hl Hf Hw Ht Hlen. unfold align_utterance, getitem.
  rewrite Hl. py_step. rewrite Hw. py_step. rewrite Hf. py_step. rewrite Ht. py_step.
  unfold enumerate.
  rewrite (align_loop_spec labels ws _ ts 0); [|intros ->; discriminate|simpl; lia].
  py_step. cbn [string_out idx current riva total_riva_dict words drop app].
  unfold aligned_out, aligned_session, aligned_text, with_words. cbn.
  reflexivity.
Qed.

Lemma alignable_lookup audio_file_list diar_labels word_list
    (word_ts_list : list (list timestamp)) k path :
  alignable audio_file_list diar_labels word_list word_ts_list = true ->
  audio_file_list !! k = Some path ->
  exists labels first ws ts,
    diar_labels !! k = Some labels /\ labels !! 0%nat = Some first
    /\ word_list !! k = Some ws /\ word_ts_list !! k = Some ts
    /\ (length ts <= length ws)%nat.
Proof.
  unfold alignable. rewrite forallb_forall. intros Hall Hk.
  specialize (Hall k). unfold utterance_alignable in Hall.
  assert (Hin : In k (seq 0 (length audio_file_list))).
  { apply in_seq. apply lookup_lt_Some in Hk. lia. }
  specialize (Hall Hin).
  destruct (diar_labels !! k) as [[|first labels]|]; try discriminate.
  destruct (word_list !! k) as [ws|]; try discriminate.
  destruct (word_ts_list !! k) as [ts|]; try discriminate.
  apply Nat.leb_le in Hall. exists (first :: labels), first, ws, ts. auto.
Qed.

Lemma aligned_inv_step audio_file_list diar_labels word_list
    (word_ts_list : list (list timestamp)) i path labels first ws ts out :
  audio_file_list !! i = Some path ->
  diar_labels !! i = Some labels -> labels !! 0%nat = Some first ->
  word_list !! i = Some ws -> word_ts_list !! i = Some ts ->
  aligned_inv strftime audio_file_list diar_labels word_list word_ts_list i out ->
  aligned_inv strftime audio_file_list diar_labels word_list word_ts_list (S i)
    (aligned_out strftime out (get_uniq_id_from_audio_path path) labels first ws ts).
Proof.
  intros Hp Hl Hf Hw Ht HI k path' labels' first' ws' ts' Hk Hp' Hl' Hf' Hw' Ht' Hdup.
  destruct (decide (k = i)) as [->|Hne].
  - assert (path' = path) as -> by congruence.
    assert (labels' = labels) as -> by congruence.
    assert (first' = first) as -> by congruence.
    assert (ws' = ws) as -> by congruence.
    assert (ts' = ts) as -> by congruence.
    unfold aligned_out. cbn [json_result transcript_with_speaker_labels].
    split; [apply lookup_insert_eq|].
    intros Hne. destruct ts; [congruence|]. apply lookup_insert_eq.
  - assert (Hu : get_uniq_id_from_audio_path path <> get_uniq_id_from_audio_path path').
    { apply (Hdup i path); [lia|exact Hp]. }
    destruct (HI k path' labels' first' ws' ts') as [Htxt Hjson]; try assumption; [lia| |].
    { intros k' p' Hk'. apply Hdup. lia. }
    unfold aligned_out. cbn [json_result transcript_with_speaker_labels].
    split.
    + rewrite lookup_insert_ne by exact Hu. exact Htxt.
    + intros Hts. destruct ts; [auto|]. rewrite lookup_insert_ne by exact Hu. auto.
Qed.

Lemma align_all_ok audio_file_list diar_labels word_list
    (word_ts_list : list (list timestamp)) :
  alignable audio_file_list diar_labels word_list word_ts_list = true ->
  exists out,
    for_each (align_utterance strftime diar_labels word_list word_ts_list)
             (enumerate audio_file_list)
             {| json_result := ∅; transcript_with_speaker_labels := ∅ |} = Ok out
    /\ aligned_inv strftime audio_file_list diar_labels word_list word_ts_list
                   (length audio_file_list) out.
Proof.
  intros Hok.
  apply (for_each_enumerate_ok _
           (aligned_inv strftime audio_file_list diar_labels word_list word_ts_list)).
  - intros k path labels first ws ts Hk. lia.
  - intros i path out Hp HI.
    destruct (alignable_lookup _ _ _ _ i path Hok Hp)
      as (labels & first & ws & ts & Hl & Hf & Hw & Ht & Hlen).
    exists (aligned_out strftime out (get_uniq_id_from_audio_path path) labels first ws ts).
    split; [apply align_utterance_spec; assumption|].
    apply aligned_inv_step; assumption.
Qed.

Lemma length_assign_speakers labels idx cur (ts : list timestamp) :
  length (assign_speakers labels idx cur ts) = length ts.
Proof.
  revert idx cur. induction ts as [|w ts IH]; intros idx cur; [reflexivity|].
  cbn [assign_speakers]. destruct (_ <? _)%float; cbn [length]; rewrite IH; reflexivity.
Qed.

Lemma word_aligned_words (ws : list string) (ts : list timestamp) asg :
  length asg = length ts -> (length ts <= length ws)%nat ->
  word <$> aligned_words ws ts asg = take (length ts) ws.
Proof.
  revert ws asg. induction ts as [|t ts IH]; intros ws asg Ha Hl; [reflexivity|].
  destruct ws as [|w ws]; [simpl in Hl; lia|].
  destruct asg as [|a asg]; [discriminate|].
  cbn [aligned_words fmap list_fmap length take word]. f_equal.
  apply IH; simpl in *; lia.
Qed.

Lemma write_json_ok self audio_file_list diar_labels word_list
    (word_ts_list word_ts_eff : list (list timestamp)) :
  (if fix_word_ts_with_SAD (self_params self)
   then get_enhanced_word_ts_list self audio_file_list word_ts_list (self_params self)
   else Ok word_ts_list) = Ok word_ts_eff ->
  alignable audio_file_list diar_labels word_list word_ts_eff = true ->
  exists out,
    write_json_and_transcript strftime self audio_file_list diar_labels word_list
                              word_ts_list = Ok out
    /\ aligned_inv strftime audio_file_list diar_labels word_list word_ts_eff
                   (length audio_file_list) out.
Proof.
  intros Heff Hok. unfold write_json_and_transcript. rewrite Heff. py_step.
  apply align_all_ok. exact Hok.
Qed.

End Assembler.

Lemma alignable_enhanced audio_file_list diar_labels word_list
    (word_ts_list enhanced : list (list timestamp)) :
  alignable audio_file_list diar_labels word_list word_ts_list = true ->
  length enhanced = length word_ts_list ->
  (forall k ts buf, word_ts_list !! k = Some ts -> enhanced !! k = Some buf ->
                    (length buf <= length ts)%nat) ->
  alignable audio_file_list diar_labels word_list enhanced = true.
Proof.
  unfold alignable. rewrite !forallb_forall. intros Hall Hlen Hle k Hk.
  specialize (Hall k Hk). unfold utterance_alignable in *.
  destruct (diar_labels !! k) as [[|first labels]|]; try discriminate.
  destruct (word_list !! k) as [ws|]; try discriminate.
  destruct (word_ts_list !! k) as [ts|] eqn:Hts; try discriminate.
  destruct (lookup_lt_is_Some_2 enhanced k) as [buf Hbuf].
  { rewrite Hlen. apply lookup_lt_Some in Hts. exact Hts. }
  rewrite Hbuf. apply Nat.leb_le. apply Nat.leb_le in Hall.
  specialize (Hle k ts buf Hts Hbuf). lia.
Qed.

Lemma enhance_inv_starts self p uniq_id (seq buf : list timestamp) :
  enhance_inv self p uniq_id seq (length seq) buf ->
  fst <$> buf = fst <$> take (length seq - 1) seq.
Proof.
  intros [Hlen Hent]. apply list_eq. intros j. rewrite !list_lookup_fmap.
  destruct (decide (j < length seq - 1)%nat) as [Hj|Hj].
  - rewrite lookup_take_lt by lia.
    destruct (lookup_lt_is_Some_2 seq j) as [w Hw]; [lia|].
    destruct (lookup_lt_is_Some_2 seq (S j)) as [next Hn]; [lia|].
    destruct (Hent j w next) as (v & _ & Hb); [lia|assumption|assumption|].
    rewrite Hb, Hw. reflexivity.
  - rewrite (lookup_ge_None_2 buf) by lia.
    rewrite (lookup_ge_None_2 (take _ _)); [reflexivity|].
    rewrite length_take. lia.
Qed.

(** C10: the silence extension returns one entry for every word but the
    last one of a session, so [N - 1] entries for [N] time stamps; the
    assembler that then pairs the word list with the enhanced list writes
    the first [N - 1] words only, while the joined transcription keeps all
    [N] words. *)
Theorem enhanced_drops_last_word
    (strftime : string -> float -> string) (self : ASR_DIAR_OFFLINE)
    (audio_file_list : list string) (diar_labels : list (list label))
    (word_list : list (list string)) (word_ts_list : list (list timestamp)) :
  fix_word_ts_with_SAD (self_params self) = true ->
  enhanceable self audio_file_list word_ts_list = true ->
  alignable audio_file_list diar_labels word_list word_ts_list = true ->
  exists enhanced out,
    get_enhanced_word_ts_list self audio_file_list word_ts_list (self_params self)
    = Ok enhanced
    /\ write_json_and_transcript strftime self audio_file_list diar_labels word_list
                                 word_ts_list = Ok out
    /\ length enhanced = length word_ts_list
    /\ forall k path ws ts,
         audio_file_list !! k = Some path ->
         word_list !! k = Some ws -> word_ts_list !! k = Some ts ->
         exists buf,
           enhanced !! k = Some buf
           /\ length buf = (length ts - 1)%nat
           /\ fst <$> buf = fst <$> take (length ts - 1) ts
           /\ ((2 <= length ts)%nat ->
               (forall k' path', (k < k')%nat -> audio_file_list !! k' = Some path' ->
                  get_uniq_id_from_audio_path path' <> get_uniq_id_from_audio_path path) ->
               exists r,
                 json_result out !! get_uniq_id_from_audio_path path = Some r
                 /\ word <$> words r = take (length ts - 1) ws
                 /\ transcription r = join_space ws).
Proof.
  intros Hfix Henh Hal.
  destruct (get_enhanced_ok self (self_params self) _ _ Henh) as (enhanced & Hrun & Hlen & Hent).
  assert (Hbuf : forall k ts, word_ts_list !! k = Some ts ->
            exists path buf, audio_file_list !! k = Some path /\ enhanced !! k = Some buf
              /\ enhance_inv self (self_params self) (get_uniq_id_from_audio_path path)
                             ts (length ts) buf).
  { intros k ts Hts. apply Hent; [|exact Hts]. apply lookup_lt_Some in Hts. exact Hts. }
  assert (Hal' : alignable audio_file_list diar_labels word_list enhanced = true).
  { apply (alignable_enhanced _ _ _ word_ts_list); [exact Hal|exact Hlen|].
    intros k ts buf Hts Hb. destruct (Hbuf k ts Hts) as (path & buf' & _ & Hb' & Hl & _).
    assert (buf' = buf) as -> by congruence. lia. }
  destruct (write_json_ok strftime self audio_file_list diar_labels word_list
              word_ts_list enhanced) as (out & Hout & HI).
  { rewrite Hfix. exact Hrun. }
  { exact Hal'. }
  exists enhanced, out. split; [exact Hrun|]. split; [exact Hout|]. split; [exact Hlen|].
  intros k path ws ts Hp Hw Hts.
  destruct (Hbuf k ts Hts) as (path' & buf & Hp' & Hb & Hinv).
  exists buf. split; [exact Hb|]. split; [destruct Hinv as [Hl _]; lia|].
  split; [exact (enhance_inv_starts _ _ _ _ _ Hinv)|].
  intros HN Hdup.
  destruct (alignable_lookup audio_file_list diar_labels word_list enhanced k path Hal' Hp)
    as (labels & first & ws' & buf' & Hl & Hf & Hw' & Hb' & Hle).
  assert (ws' = ws) as -> by congruence.
  assert (buf' = buf) as -> by congruence.
  destruct (HI k path labels first ws buf) as [_ Hjson]; try assumption.
  { apply lookup_lt_Some in Hp. exact Hp. }
  { intros k' p' [Hk' _]. apply Hdup. exact Hk'. }
  assert (Hblen : length buf = (length ts - 1)%nat) by (destruct Hinv as [Hx _]; lia).
  eexists. split; [apply Hjson|].
  { intros ->. simpl in Hblen. lia. }
  cbn [aligned_session words transcription]. split; [|reflexivity].
  rewrite word_aligned_words; [rewrite Hblen; reflexivity| |exact Hle].
  apply length_assign_speakers.
Qed.

Lemma enhanced_drops_last_word_witness :
  exists enhanced out,
    get_enhanced_word_ts_list silent_self ["u.wav"] long_word_ts params_cap1 = Ok enhanced
    /\ write_json_and_transcript sample_strftime silent_self ["u.wav"] long_labels
         long_words long_word_ts = Ok out
    /\ (exists buf, enhanced !! 0%nat = Some buf /\ length buf = 1%nat)
    /\ (fun r => word <$> words r) <$> json_result out !! "u" = Some ["hello"].
Proof.
  destruct (enhanced_drops_last_word sample_strftime silent_self ["u.wav"] long_labels
              long_words long_word_ts eq_refl eq_refl eq_refl)
    as (enhanced & out & Henh & Hout & Hlen & Hk).
  exists enhanced, out. split; [exact Henh|]. split; [exact Hout|].
  destruct (Hk 0%nat "u.wav" ["hello"; "world"] [(0, 2); (3, 3.5)]%float
              eq_refl eq_refl eq_refl) as (buf & Hb & Hbl & _ & Hjson).
  split.
  - exists buf. split; [exact Hb | exact Hbl].
  - destruct Hjson as (r & Hr & Hw & _); [simpl; lia| |].
    { intros [|k'] path' Hk' Hp'; [lia | discriminate]. }
    change (get_uniq_id_from_audio_path "u.wav") with "u" in Hr.
    rewrite Hr. cbn [fmap option_fmap option_map]. rewrite Hw. reflexivity.
Defined.

(** *** The scorer: claims C2, C7 and C9 *)

(** *** Array indexing *)

Section Arrays.

Context {A : Type}.

Lemma compress_fmap {B} (P : A -> bool) (g : A -> B) (xs : list A) :
  Np.compress (P <$> xs) (g <$> xs) = g <$> List.filter P xs.
Proof.
  induction xs as [|x xs IH]; [reflexivity|].
  cbn [fmap list_fmap Np.compress List.filter]. fold (fmap P xs) (fmap g xs).
  destruct (P x); cbn [fmap list_fmap]; rewrite IH; reflexivity.
Qed.

Lemma any_fmap_false (P : A -> bool) (xs : list A) :
  Np.any (P <$> xs) = false <-> List.filter P xs = [].
Proof.
  unfold Np.any. induction xs as [|x xs IH]; [simpl; tauto|].
  cbn [fmap list_fmap existsb List.filter]. fold (fmap P xs).
  unfold id at 1. destruct (P x); simpl; [split; discriminate | exact IH].
Qed.

(** Indexing with the positions of the true entries of a mask selects the
    masked elements. *)
Lemma take_where_from (pre xs : list A) (bs : list bool) :
  length bs = length xs ->
  Np.take (pre ++ xs) (Np.where_from (length pre) bs) = Ok (Np.compress bs xs).
Proof.
  revert pre bs. induction xs as [|x xs IH]; intros pre bs Hlen.
  - destruct bs; [reflexivity | discriminate].
  - destruct bs as [|b bs]; [discriminate|].
    injection Hlen as Hlen.
    assert (IH' := IH (pre ++ [x]) bs Hlen).
    rewrite <- app_assoc, length_app, Nat.add_1_r in IH'. cbn [app] in IH'.
    cbn [Np.where_from Np.compress]. destruct b; [|exact IH'].
    cbn [Np.take]. unfold getitem.
    rewrite lookup_app_r by lia. rewrite Nat.sub_diag. cbn [lookup list_lookup].
    py_step. rewrite IH'. reflexivity.
Qed.

Lemma take_where (xs : list A) (bs : list bool) :
  length bs = length xs ->
  Np.take xs (Np.where_ bs) = Ok (Np.compress bs xs).
Proof. intros Hlen. exact (take_where_from [] xs bs Hlen). Qed.

(** Indexing through a selection of indices selects among the indexed
    elements. *)
Lemma take_compress (xs : list A) (idx : list nat) (ys : list A) (m : list bool) :
  Np.take xs idx = Ok ys ->
  Np.take xs (Np.compress m idx) = Ok (Np.compress m ys).
Proof.
  revert ys m. induction idx as [|i idx IH]; intros ys m Ht.
  - injection Ht as <-. destruct m; reflexivity.
  - cbn [Np.take] in Ht. destruct (getitem xs i) as [x|] eqn:Hx; [|discriminate].
    py_step_in Ht.
    destruct (Np.take xs idx) as [ys'|] eqn:Hy; [|discriminate].
    py_step_in Ht. injection Ht as <-.
    destruct m as [|b m]; [reflexivity|].
    cbn [Np.compress]. destruct b.
    + cbn [Np.take]. rewrite Hx. py_step. rewrite (IH ys' m eq_refl). reflexivity.
    + apply IH. reflexivity.
Qed.

Lemma take_lookup (xs : list A) (idx : list nat) (ys : list A) j i :
  Np.take xs idx = Ok ys -> idx !! j = Some i -> xs !! i = ys !! j /\ is_Some (ys !! j).
Proof.
  revert ys j. induction idx as [|i0 idx IH]; intros ys j Ht Hj; [discriminate|].
  cbn [Np.take] in Ht. unfold getitem in Ht.
  destruct (xs !! i0) as [x|] eqn:Hx; [|discriminate].
  py_step_in Ht.
  destruct (Np.take xs idx) as [ys'|] eqn:Hy; [|discriminate].
  py_step_in Ht. injection Ht as <-.
  destruct j as [|j].
  - injection Hj as <-. split; [exact Hx | eauto].
  - apply (IH ys' j eq_refl Hj).
Qed.

Lemma length_where_from i (bs : list bool) :
  length (Np.where_from i bs) = length (Np.compress bs bs).
Proof.
  revert i. induction bs as [|b bs IH]; intros i; [reflexivity|].
  cbn [Np.where_from Np.compress]. destruct b; cbn [length]; rewrite IH; reflexivity.
Qed.

End Arrays.

Lemma argmax_from_bound mp best i (xs : list float) :
  (best < i)%nat -> (Np.argmax_from mp best i xs < i + length xs)%nat.
Proof.
  revert mp best i. induction xs as [|x xs IH]; intros mp best i Hb; cbn [Np.argmax_from length].
  - lia.
  - destruct (is_nan mp); [lia|].
    destruct (x <=? mp)%float.
    + specialize (IH mp best (S i)). lia.
    + specialize (IH x i (S i)). lia.
Qed.

Lemma filter_fmap_id {A} (P : A -> bool) (xs : list A) :
  Np.compress (P <$> xs) xs = List.filter P xs.
Proof.
  rewrite <- (list_fmap_id xs) at 2. rewrite compress_fmap. apply list_fmap_id.
Qed.

Lemma length_where_filter {A} (P : A -> bool) (xs : list A) :
  length (Np.where_ (P <$> xs)) = length (List.filter P xs).
Proof.
  unfold Np.where_. generalize 0%nat. induction xs as [|x xs IH]; intros i; [reflexivity|].
  cbn [fmap list_fmap Np.where_from List.filter]. fold (fmap P xs).
  destruct (P x); cbn [length]; rewrite IH; reflexivity.
Qed.

(** *** Scoring one word *)

Lemma score_word_spec lenient mapping_dict labels c w :
  labels <> [] ->
  score_word lenient mapping_dict labels
             ((fun x => (start_point x, end_point x)) <$> labels) c w
  = Ok (c + (if word_correct lenient mapping_dict labels w then 1 else 0)).
Proof.
  intros Hlab. unfold score_word, word_correct.
  destruct (mapping_dict !! speaker_label w) as [est|]; [|rewrite Z.add_0_r; reflexivity].
  destruct labels as [|l0 labels0] eqn:Hlabels; [congruence|]. rewrite <- Hlabels.
  assert (Hg : getitem labels 0 = Ok l0) by (rewrite Hlabels; reflexivity).
  rewrite Hg. py_step. clear Hg.
  rewrite isOverlapArray_tile by reflexivity.
  rewrite getOverlapRangeArray_tile by reflexivity.
  rewrite <- !list_fmap_compose.
  change ((fun r : timestamp => (r.1 <? (start_time w, end_time w).2)%float
                                && ((start_time w, end_time w).1 <? r.2)%float)
          ∘ (fun x => (start_point x, end_point x))) with (overlaps w).
  change ((fun r : timestamp =>
             (Np.minimum r.2 (start_time w, end_time w).2
              - Np.maximum r.1 (start_time w, end_time w).1)%float)
          ∘ (fun x => (start_point x, end_point x))) with (overlap_length w).
  destruct (Np.any (overlaps w <$> labels)) eqn:Hany.
  2:{ apply any_fmap_false in Hany. rewrite Hany. cbn [negb]. rewrite Z.add_0_r. reflexivity. }
  cbn [negb].
  destruct (List.filter (overlaps w) labels) as [|r0 rest] eqn:Hc.
  { apply any_fmap_false in Hc. congruence. }
  assert (Htake : Np.take labels (Np.where_ (overlaps w <$> labels)) = Ok (r0 :: rest)).
  { rewrite take_where by (rewrite length_fmap; reflexivity).
    rewrite filter_fmap_id, Hc. reflexivity. }
  rewrite compress_fmap, Hc.
  destruct lenient.
  - set (mx := foldl Np.maximum (overlap_length w r0) (overlap_length w <$> rest)).
    change (Np.max (overlap_length w <$> r0 :: rest)) with (Ok mx). py_step.
    rewrite <- list_fmap_compose.
    rewrite take_where.
    2:{ rewrite length_fmap, length_where_filter, Hc. reflexivity. }
    py_step.
    rewrite (take_compress labels _ (r0 :: rest) _ Htake). py_step.
    rewrite filter_fmap_id.
    change ((fun x : float => (x =? mx)%float) ∘ overlap_length w)
      with (fun r => (overlap_length w r =? mx)%float).
    destruct (bool_decide _); [reflexivity | rewrite Z.add_0_r; reflexivity].
  - set (best := Np.argmax_from (overlap_length w r0) 0 1 (overlap_length w <$> rest)).
    change (Np.argmax (overlap_length w <$> r0 :: rest)) with (Ok best). py_step.
    assert (Hbest : (best < length (r0 :: rest))%nat).
    { subst best. pose proof (argmax_from_bound (overlap_length w r0) 0 1
                                (overlap_length w <$> rest) ltac:(lia)) as Hb.
      rewrite length_fmap in Hb. simpl. lia. }
    destruct (lookup_lt_is_Some_2 (Np.where_ (overlaps w <$> labels)) best) as [i Hi].
    { rewrite length_where_filter, Hc. exact Hbest. }
    unfold getitem. rewrite Hi. py_step.
    destruct (take_lookup labels _ _ best i Htake Hi) as [Hli [r Hr]].
    rewrite Hli, Hr. py_step.
    rewrite (nth_lookup_Some _ _ r0 r Hr). reflexivity.
Qed.


(** *** Scoring the sessions *)

Section Scoring.

Variables (self : ASR_DIAR_OFFLINE) (total_riva_dict : gmap string riva_dict)
          (DER_result_dict : gmap string der_result)
          (ref_labels_list : list (list label)).

Lemma score_loop_spec lenient mapping_dict labels (ws : list wdict) c :
  labels <> [] ->
  for_each (score_word lenient mapping_dict labels
              ((fun x => (start_point x, end_point x)) <$> labels)) ws c
  = Ok (c + correct_words lenient mapping_dict labels ws).
Proof.
  intros Hlab. unfold correct_words. revert c.
  induction ws as [|w ws IH]; intros c.
  - simpl. rewrite Z.add_0_r. reflexivity.
  - cbn [for_each]. rewrite score_word_spec by exact Hlab. cbn [bind].
    rewrite IH. cbn [List.filter].
    destruct (word_correct lenient mapping_dict labels w); cbn [length]; f_equal; lia.
Qed.

Lemma score_utterance_spec st k path c t :
  session_score self total_riva_dict DER_result_dict ref_labels_list (k, path) = Some (c, t) ->
  score_utterance self total_riva_dict DER_result_dict ref_labels_list st (k, path)
  = if t =? 0 then Raise ZeroDivisionError
    else Ok {| wder_dict := <[get_uniq_id_from_audio_path path := (1 - truediv c t)%float]>
                              (wder_dict st);
               grand_total_word_count := grand_total_word_count st + t;
               grand_correct_word_count := grand_correct_word_count st + c |}.
Proof.
  unfold session_score, score_utterance, getitem, getkey. cbn [fst snd].
  destruct (ref_labels_list !! k) as [[|l0 labels]|]; try discriminate. py_step.
  destruct (DER_result_dict !! _) as [der|]; try discriminate. py_step.
  destruct (mapping der) as [m|]; [|destruct (total_riva_dict !! _); discriminate].
  py_step.
  destruct (total_riva_dict !! _) as [riva|]; try discriminate. py_step.
  intros [= <- <-].
  rewrite score_loop_spec by discriminate. py_step.
  rewrite Z.add_0_l. unfold int_truediv.
  destruct (Z.of_nat (length (words riva)) =? 0); reflexivity.
Qed.

Lemma enumerate_lookup {A} (xs : list A) k x :
  xs !! k = Some x -> enumerate xs !! k = Some (k, x).
Proof. intros H. unfold enumerate. rewrite list_lookup_imap, H. reflexivity. Qed.

Lemma sum_Z_snoc xs x : sum_Z (xs ++ [x]) = sum_Z xs + x.
Proof.
  unfold sum_Z. induction xs as [|y xs IH]; simpl; [lia|]. rewrite IH. lia.
Qed.

Lemma session_scores_lookup audio_file_list k path c t :
  audio_file_list !! k = Some path ->
  session_score self total_riva_dict DER_result_dict ref_labels_list (k, path) = Some (c, t) ->
  session_scores self audio_file_list total_riva_dict DER_result_dict ref_labels_list !! k
  = Some (c, t).
Proof.
  intros Hp Hs. unfold session_scores.
  rewrite list_lookup_fmap, (enumerate_lookup _ _ _ Hp). cbn. rewrite Hs. reflexivity.
Qed.

Lemma scorable_lookup audio_file_list k path :
  forallb (session_ok self total_riva_dict DER_result_dict ref_labels_list)
          (enumerate audio_file_list) = true ->
  audio_file_list !! k = Some path ->
  exists c t,
    session_score self total_riva_dict DER_result_dict ref_labels_list (k, path) = Some (c, t)
    /\ 0 < t.
Proof.
  rewrite forallb_forall. intros Hall Hp.
  specialize (Hall (k, path)). unfold session_ok in Hall.
  destruct (session_score _ _ _ _ _) as [[c t]|].
  - exists c, t. split; [reflexivity|]. apply Z.ltb_lt, Hall.
    apply list_elem_of_In, list_elem_of_lookup. exists k. apply enumerate_lookup, Hp.
  - assert (false = true); [|discriminate]. apply Hall.
    apply list_elem_of_In, list_elem_of_lookup. exists k. apply enumerate_lookup, Hp.
Qed.

Lemma wder_inv_step audio_file_list i path c t st :
  audio_file_list !! i = Some path ->
  session_score self total_riva_dict DER_result_dict ref_labels_list (i, path) = Some (c, t) ->
  0 < t ->
  wder_inv self audio_file_list total_riva_dict DER_result_dict ref_labels_list i st ->
  wder_inv self audio_file_list total_riva_dict DER_result_dict ref_labels_list (S i)
    {| wder_dict := <[get_uniq_id_from_audio_path path := (1 - truediv c t)%float]>
                      (wder_dict st);
       grand_total_word_count := grand_total_word_count st + t;
       grand_correct_word_count := grand_correct_word_count st + c |}.
Proof.
  intros Hp Hs Ht (Hc & Htot & Hnn & Hpos & Hd). unfold wder_inv.
  rewrite (take_S_r _ _ (c, t)) by exact (session_scores_lookup _ i path c t Hp Hs).
  rewrite !fmap_app. cbn [fmap list_fmap fst snd]. rewrite !sum_Z_snoc.
  cbn [wder_dict grand_total_word_count grand_correct_word_count].
  split; [lia|]. split; [lia|]. split; [lia|]. split; [lia|].
  intros k path' c' t' Hk Hp' Hs' Hdup.
  destruct (decide (k = i)) as [->|Hne].
  - assert (path' = path) as -> by congruence.
    rewrite Hs in Hs'. injection Hs' as <- <-. apply lookup_insert_eq.
  - rewrite lookup_insert_ne.
    + apply (Hd k path' c' t'); [lia|assumption|assumption|].
      intros k' p' Hk'. apply Hdup. lia.
    + apply (Hdup i path); [lia|exact Hp].
Qed.

Lemma wder_inv_init audio_file_list :
  wder_inv self audio_file_list total_riva_dict DER_result_dict ref_labels_list 0
    {| wder_dict := ∅; grand_total_word_count := 0; grand_correct_word_count := 0 |}.
Proof.
  unfold wder_inv. rewrite take_0. cbn.
  split; [reflexivity|]. split; [reflexivity|]. split; [lia|]. split; [lia|].
  intros k path c t Hk. lia.
Qed.

Lemma score_all_ok audio_file_list :
  forallb (session_ok self total_riva_dict DER_result_dict ref_labels_list)
          (enumerate audio_file_list) = true ->
  exists st,
    for_each (score_utterance self total_riva_dict DER_result_dict ref_labels_list)
             (enumerate audio_file_list)
             {| wder_dict := ∅; grand_total_word_count := 0; grand_correct_word_count := 0 |}
    = Ok st
    /\ wder_inv self audio_file_list total_riva_dict DER_result_dict ref_labels_list
                (length audio_file_list) st.
Proof.
  intros Hok.
  apply (for_each_enumerate_ok _
           (wder_inv self audio_file_list total_riva_dict DER_result_dict ref_labels_list)).
  - apply wder_inv_init.
  - intros k path st Hp HI.
    destruct (scorable_lookup _ k path Hok Hp) as (c & t & Hs & Ht).
    eexists. split.
    + rewrite (score_utterance_spec st k path c t Hs).
      assert (Hz : (t =? 0) = false) by (apply Z.eqb_neq; lia). rewrite Hz. reflexivity.
    + apply wder_inv_step; assumption.
Qed.

End Scoring.

(** *** The largest overlap *)

Lemma leb_ltb x y :
  is_nan x = false -> is_nan y = false -> (x <=? y)%float = negb (y <? x)%float.
Proof.
  rewrite !is_nan_spec, leb_spec, ltb_spec. unfold SFleb, SFltb.
  rewrite (SFcompare_antisym (Prim2SF x) (Prim2SF y)).
  destruct (Prim2SF x) as [sx|sx| |sx mx ex], (Prim2SF y) as [sy|sy| |sy my ey];
    try discriminate; intros _ _;
    destruct (SFcompare _ _) as [[]|] eqn:Hc; try reflexivity;
    simpl in Hc; repeat match goal with s : bool |- _ => destruct s end; discriminate.
Qed.

Lemma maximum_cases a b :
  is_nan a = false -> is_nan b = false ->
  (Np.maximum a b = a /\ (a <? b)%float = false)
  \/ (Np.maximum a b = b /\ (a <? b)%float = true).
Proof.
  intros Ha Hb. unfold Np.maximum. rewrite Ha, orb_false_r.
  rewrite (leb_ltb b a Hb Ha). destruct (a <? b)%float; simpl; auto.
Qed.

Lemma foldl_maximum_is_max (x0 : float) (xs : list float) :
  Forall (fun x => is_nan x = false) (x0 :: xs) ->
  is_max (foldl Np.maximum x0 xs) (x0 :: xs).
Proof.
  intros Hn.
  assert (Hgen : forall seen acc,
            is_nan acc = false -> is_max acc seen ->
            Forall (fun x => is_nan x = false) xs ->
            is_max (foldl Np.maximum acc xs) (seen ++ xs)).
  { clear Hn. induction xs as [|x xs IH]; intros seen acc Hacc Hm Hxs.
    - rewrite app_nil_r. exact Hm.
    - inversion Hxs as [|? ? Hx Hxs']; subst. cbn [foldl].
      replace (seen ++ x :: xs) with ((seen ++ [x]) ++ xs) by (rewrite <- app_assoc; reflexivity).
      destruct Hm as [Hin Hmax].
      destruct (maximum_cases acc x Hacc Hx) as [[-> Hlt]|[-> Hlt]].
      + apply IH; [exact Hacc| |exact Hxs'].
        split; [apply elem_of_app; auto|].
        intros y [Hy|Hy%list_elem_of_singleton]%elem_of_app; [auto | subst; exact Hlt].
      + apply IH; [exact Hx| |exact Hxs'].
        split; [apply elem_of_app; right; apply list_elem_of_singleton; reflexivity|].
        intros y [Hy|Hy%list_elem_of_singleton]%elem_of_app; [|subst; apply ltb_irrefl].
        apply (ltb_neg_trans x acc y Hacc); [apply ltb_asym, Hlt | apply Hmax, Hy]. }
  inversion Hn as [|? ? H0 Hxs]; subst.
  apply (Hgen [x0] x0 H0); [|exact Hxs].
  split; [apply list_elem_of_singleton; reflexivity|].
  intros y Hy%list_elem_of_singleton. subst. apply ltb_irrefl.
Qed.

Lemma ltb_of_not_ltb x y z :
  is_nan y = false ->
  (x <? y)%float = false -> (x <? z)%float = true -> (y <? z)%float = true.
Proof.
  intros Hy Hxy Hxz. destruct (y <? z)%float eqn:Hyz; [reflexivity|].
  rewrite (ltb_neg_trans x y z Hy Hxy Hyz) in Hxz. discriminate.
Qed.

Lemma argmax_from_is_first_max (x0 : float) (xs : list float) :
  Forall (fun x => is_nan x = false) (x0 :: xs) ->
  is_first_max (Np.argmax_from x0 0 1 xs) (x0 :: xs).
Proof.
  intros Hn.
  assert (Hgen : forall seen mp best,
            is_nan mp = false -> seen !! best = Some mp ->
            (forall x, x ∈ seen -> (mp <? x)%float = false) ->
            (forall j x, (j < best)%nat -> seen !! j = Some x -> (x <? mp)%float = true) ->
            Forall (fun x => is_nan x = false) seen ->
            Forall (fun x => is_nan x = false) xs ->
            is_first_max (Np.argmax_from mp best (length seen) xs) (seen ++ xs)).
  { clear Hn. induction xs as [|x xs IH]; intros seen mp best Hmp Hb Hmax Hfirst Hseen Hxs.
    - rewrite app_nil_r. cbn. exists mp. auto.
    - inversion Hxs as [|? ? Hx Hxs']; subst. cbn [Np.argmax_from]. rewrite Hmp.
      replace (seen ++ x :: xs) with ((seen ++ [x]) ++ xs) by (rewrite <- app_assoc; reflexivity).
      replace (S (length seen)) with (length (seen ++ [x]))
        by (rewrite length_app; simpl; lia).
      assert (Hbl : (best < length seen)%nat) by (apply lookup_lt_Some in Hb; exact Hb).
      assert (Hseen' : Forall (fun x => is_nan x = false) (seen ++ [x])).
      { apply Forall_app. split; [exact Hseen|]. constructor; [exact Hx|constructor]. }
      rewrite (leb_ltb x mp Hx Hmp). destruct (mp <? x)%float eqn:Hlt; cbn [negb].
      + (* a new maximum at the current position *)
        replace (length seen) with (length (seen ++ [x]) - 1)%nat at 1
          by (rewrite length_app; simpl; lia).
        rewrite length_app. cbn [length]. rewrite Nat.add_1_r, Nat.sub_succ, Nat.sub_0_r.
        replace (S (length seen)) with (length (seen ++ [x]))
          by (rewrite length_app; simpl; lia).
        apply IH; [exact Hx| | | |exact Hseen'|exact Hxs'].
        * rewrite lookup_app_r by lia. rewrite Nat.sub_diag. reflexivity.
        * intros y [Hy|Hy%list_elem_of_singleton]%elem_of_app; [|subst; apply ltb_irrefl].
          apply (ltb_neg_trans x mp y Hmp); [apply ltb_asym, Hlt | apply Hmax, Hy].
        * intros j y Hj Hy. rewrite lookup_app_l in Hy by lia.
          apply (ltb_of_not_ltb mp y x); [|apply Hmax; eapply list_elem_of_lookup_2; exact Hy|exact Hlt].
          rewrite Forall_forall in Hseen. apply Hseen.
          eapply list_elem_of_lookup_2. exact Hy.
      + apply IH; [exact Hmp| | | |exact Hseen'|exact Hxs'].
        * rewrite lookup_app_l by lia. exact Hb.
        * intros y [Hy|Hy%list_elem_of_singleton]%elem_of_app; [auto | subst; exact Hlt].
        * intros j y Hj Hy. rewrite lookup_app_l in Hy by lia. eauto. }
  inversion Hn as [|? ? H0 Hxs]; subst.
  apply (Hgen [x0] x0 0%nat H0); [reflexivity| | | |exact Hxs].
  - intros y Hy%list_elem_of_singleton. subst. apply ltb_irrefl.
  - intros j x Hj. lia.
  - constructor; [exact H0|constructor].
Qed.

(** C7: a word counts as correct exactly by the rule [word_correct].  Under
    lenient matching that is: its speaker is mapped, and the mapped label
    is the speaker of some reference interval that overlaps the word and
    whose overlap length equals the maximum over the overlapping
    intervals.  Under strict matching: its speaker is mapped, some
    interval overlaps, and the mapped label is the speaker of the
    overlapping interval that [np.argmax] selects.  For overlap lengths
    that are numbers, that maximum is a largest length and the selected
    interval is the first of largest length. *)
Theorem word_scored_by_max_overlap
    (lenient : bool) (mapping_dict : gmap string string) (labels : list label)
    (c : Z) (w : wdict) :
  labels <> [] ->
  score_word lenient mapping_dict labels
             ((fun x => (start_point x, end_point x)) <$> labels) c w
  = Ok (c + (if word_correct lenient mapping_dict labels w then 1 else 0))
  /\ (word_correct true mapping_dict labels w = true <->
      exists est r0 rest ref,
        mapping_dict !! speaker_label w = Some est
        /\ List.filter (overlaps w) labels = r0 :: rest
        /\ ref ∈ labels /\ overlaps w ref = true
        /\ (overlap_length w ref
            =? foldl Np.maximum (overlap_length w r0) (overlap_length w <$> rest))%float
           = true
        /\ speaker ref = est)
  /\ (word_correct false mapping_dict labels w = true <->
      exists est r0 rest,
        mapping_dict !! speaker_label w = Some est
        /\ List.filter (overlaps w) labels = r0 :: rest
        /\ speaker (nth (Np.argmax_from (overlap_length w r0) 0 1
                                        (overlap_length w <$> rest))
                        (r0 :: rest) r0) = est)
  /\ (forall r0 rest,
        List.filter (overlaps w) labels = r0 :: rest ->
        Forall (fun x => is_nan x = false) (overlap_length w <$> r0 :: rest) ->
        is_max (foldl Np.maximum (overlap_length w r0) (overlap_length w <$> rest))
               (overlap_length w <$> r0 :: rest)
        /\ is_first_max (Np.argmax_from (overlap_length w r0) 0 1
                                        (overlap_length w <$> rest))
                        (overlap_length w <$> r0 :: rest)).
Proof.
  intros Hlab. split; [apply score_word_spec, Hlab|]. split; [|split].
  - unfold word_correct.
    destruct (mapping_dict !! speaker_label w) as [est|].
    2:{ split; [discriminate|]. intros (est & r0 & rest & ref & He & _). discriminate. }
    destruct (List.filter (overlaps w) labels) as [|r0 rest] eqn:Hc.
    { split; [discriminate|]. intros (e & r0 & rest & ref & _ & Hf & _). discriminate. }
    rewrite bool_decide_eq_true, list_elem_of_fmap. split.
    + intros (ref & -> & Hin). apply list_elem_of_In, filter_In in Hin.
      destruct Hin as [Hin Hmx].
      rewrite <- Hc in Hin. apply filter_In in Hin. destruct Hin as [Hl Ho].
      exists (speaker ref), r0, rest, ref.
      repeat split; try assumption; try reflexivity. apply list_elem_of_In, Hl.
    + intros (e & r0' & rest' & ref & [= <-] & [= <- <-] & Hin & Ho & Hmx & <-).
      exists ref. split; [reflexivity|].
      apply list_elem_of_In, filter_In. split; [|exact Hmx].
      rewrite <- Hc. apply filter_In. split; [apply list_elem_of_In, Hin | exact Ho].
  - unfold word_correct.
    destruct (mapping_dict !! speaker_label w) as [est|].
    2:{ split; [discriminate|]. intros (est & r0 & rest & He & _). discriminate. }
    destruct (List.filter (overlaps w) labels) as [|r0 rest] eqn:Hc.
    { split; [discriminate|]. intros (e & r0 & rest & _ & Hf & _). discriminate. }
    rewrite bool_decide_eq_true. split.
    + intros ->. exists (speaker (nth (Np.argmax_from (overlap_length w r0) 0 1
                                         (overlap_length w <$> rest)) (r0 :: rest) r0)),
        r0, rest. auto.
    + intros (e & r0' & rest' & [= <-] & [= <- <-] & <-). reflexivity.
  - intros r0 rest _ Hn. split.
    + exact (foldl_maximum_is_max (overlap_length w r0) (overlap_length w <$> rest) Hn).
    + exact (argmax_from_is_first_max (overlap_length w r0) (overlap_length w <$> rest) Hn).
Qed.

Lemma word_scored_by_max_overlap_witness :
  score_word true tie_mapping tie_labels
             ((fun x => (start_point x, end_point x)) <$> tie_labels) 0 tie_word = Ok 1
  /\ score_word false tie_mapping tie_labels
                ((fun x => (start_point x, end_point x)) <$> tie_labels) 0 tie_word = Ok 0.
Proof.
  split.
  - rewrite (proj1 (word_scored_by_max_overlap true tie_mapping tie_labels 0 tie_word
                      ltac:(discriminate))).
    reflexivity.
  - rewrite (proj1 (word_scored_by_max_overlap false tie_mapping tie_labels 0 tie_word
                      ltac:(discriminate))).
    reflexivity.
Defined.

Section ScoringClaims.

Variables (self : ASR_DIAR_OFFLINE) (total_riva_dict : gmap string riva_dict)
          (DER_result_dict : gmap string der_result)
          (ref_labels_list : list (list label)).

Lemma score_prefix_ok (l : list (nat * string)) st :
  forallb (session_ok self total_riva_dict DER_result_dict ref_labels_list) l = true ->
  exists st',
    for_each (score_utterance self total_riva_dict DER_result_dict ref_labels_list) l st
    = Ok st'.
Proof.
  revert st. induction l as [|[k path] l IH]; intros st Hok; [eexists; reflexivity|].
  cbn [forallb] in Hok. apply andb_prop in Hok. destruct Hok as [Hk Hl].
  unfold session_ok in Hk.
  destruct (session_score _ _ _ _ _) as [[c t]|] eqn:Hs; [|discriminate].
  cbn [for_each]. rewrite (score_utterance_spec _ _ _ _ st k path c t Hs).
  assert (Hz : (t =? 0) = false) by (apply Z.eqb_neq; apply Z.ltb_lt in Hk; lia).
  rewrite Hz. cbn [bind]. apply IH, Hl.
Qed.

Lemma score_utterance_no_words st k path labels der m riva :
  ref_labels_list !! k = Some labels ->
  DER_result_dict !! get_uniq_id_from_audio_path path = Some der ->
  mapping der = Some m ->
  total_riva_dict !! get_uniq_id_from_audio_path path = Some riva ->
  words riva = [] ->
  score_utterance self total_riva_dict DER_result_dict ref_labels_list st (k, path)
  = Raise ZeroDivisionError.
Proof.
  intros Hl Hd Hm Hr Hw. unfold score_utterance, getitem, getkey.
  rewrite Hl. py_step. rewrite Hd. py_step. rewrite Hm. py_step. rewrite Hr. py_step.
  rewrite Hw. reflexivity.
Qed.

End ScoringClaims.

(** C9: the division by [total_word_count] is not guarded.  When the loop
    reaches a session whose word list is empty, [get_WDER] raises
    [ZeroDivisionError]; so does the aggregate division for an empty file
    list. *)
Theorem wder_zero_words_raises
    (self : ASR_DIAR_OFFLINE) (audio_file_list : list string)
    (total_riva_dict : gmap string riva_dict)
    (DER_result_dict : gmap string der_result) (ref_labels_list : list (list label))
    (k : nat) (path : string) (labels : list label) (der : der_result)
    (m : gmap string string) (riva : riva_dict) :
  audio_file_list !! k = Some path ->
  forallb (session_ok self total_riva_dict DER_result_dict ref_labels_list)
          (take k (enumerate audio_file_list)) = true ->
  ref_labels_list !! k = Some labels ->
  DER_result_dict !! get_uniq_id_from_audio_path path = Some der ->
  mapping der = Some m ->
  total_riva_dict !! get_uniq_id_from_audio_path path = Some riva ->
  words riva = [] ->
  get_WDER self audio_file_list total_riva_dict DER_result_dict ref_labels_list
  = Raise ZeroDivisionError
  /\ get_WDER self [] total_riva_dict DER_result_dict ref_labels_list
     = Raise ZeroDivisionError.
Proof.
  intros Hp Hpre Hl Hd Hm Hr Hw. split; [|reflexivity].
  unfold get_WDER.
  rewrite <- (take_drop_middle (enumerate audio_file_list) k (k, path))
    by (apply enumerate_lookup, Hp).
  rewrite for_each_app.
  destruct (score_prefix_ok self total_riva_dict DER_result_dict ref_labels_list _
              {| wder_dict := ∅; grand_total_word_count := 0;
                 grand_correct_word_count := 0 |} Hpre) as [st Hst].
  rewrite Hst. cbn [bind for_each].
  rewrite (score_utterance_no_words self total_riva_dict DER_result_dict ref_labels_list
             st k path labels der m riva Hl Hd Hm Hr Hw).
  reflexivity.
Qed.

Lemma wder_zero_words_raises_witness :
  get_WDER (__init__ params_plain) ["e.wav"] empty_riva empty_der empty_refs
  = Raise ZeroDivisionError.
Proof.
  exact (proj1 (wder_zero_words_raises (__init__ params_plain) ["e.wav"] empty_riva
                  empty_der empty_refs 0 "e.wav" [mk_label 0 1 "A"]
                  (mk_der 0 0 0 0 (Some ∅)) ∅ (riva_of "e" [])
                  eq_refl eq_refl eq_refl eq_refl eq_refl eq_refl eq_refl)).
Defined.

(** C2: on inputs that raise nothing [get_WDER] returns; the entry of a
    session is [1 - correct / total] of its own counts, and the entry
    [total] is [1 - (sum of correct) / (sum of total)] over all sessions.
    For the two sample sessions of one and of three words the session
    values are 1 and 0 and the pooled value is 0.25, not their mean 0.5. *)
Theorem wder_pooled
    (self : ASR_DIAR_OFFLINE) (audio_file_list : list string)
    (total_riva_dict : gmap string riva_dict)
    (DER_result_dict : gmap string der_result) (ref_labels_list : list (list label)) :
  scorable self audio_file_list total_riva_dict DER_result_dict ref_labels_list = true ->
  (exists WDER_dict,
      get_WDER self audio_file_list total_riva_dict DER_result_dict ref_labels_list
      = Ok WDER_dict
      /\ WDER_dict !! "total"
         = Some (1 - truediv
                       (sum_Z (fst <$> session_scores self audio_file_list total_riva_dict
                                         DER_result_dict ref_labels_list))
                       (sum_Z (snd <$> session_scores self audio_file_list total_riva_dict
                                         DER_result_dict ref_labels_list)))%float
      /\ forall k path,
           audio_file_list !! k = Some path ->
           get_uniq_id_from_audio_path path <> "total" ->
           (forall k' path', (k < k')%nat -> audio_file_list !! k' = Some path' ->
              get_uniq_id_from_audio_path path' <> get_uniq_id_from_audio_path path) ->
           exists correct_word_count total_word_count,
             session_score self total_riva_dict DER_result_dict ref_labels_list (k, path)
             = Some (correct_word_count, total_word_count)
             /\ 0 < total_word_count
             /\ WDER_dict !! get_uniq_id_from_audio_path path
                = Some (1 - truediv correct_word_count total_word_count)%float)
  /\ (exists WDER_dict,
        get_WDER (__init__ params_plain) ["a.wav"; "b.wav"] two_riva two_der two_refs
        = Ok WDER_dict
        /\ WDER_dict !! "a" = Some 1%float /\ WDER_dict !! "b" = Some 0%float
        /\ WDER_dict !! "total" = Some 0.25%float
        /\ ((1 + 0) / 2 =? 0.25)%float = false).
Proof.
  intros Hok. split.
  - unfold scorable in Hok.
    destruct audio_file_list as [|a0 audio] eqn:Haudio; [discriminate|].
    rewrite <- Haudio in *.
    destruct (score_all_ok self total_riva_dict DER_result_dict ref_labels_list
                audio_file_list Hok) as (st & Hst & HI).
    destruct HI as (Hc & Ht & Hnn & Hpos & Hd).
    assert (Hlen : (0 < length audio_file_list)%nat) by (rewrite Haudio; simpl; lia).
    specialize (Hpos Hlen).
    rewrite firstn_all2 in Hc, Ht
      by (unfold session_scores, enumerate; rewrite length_fmap, length_imap; lia).
    eexists. split; [|split].
    + unfold get_WDER. rewrite Hst. py_step. unfold int_truediv.
      assert (Hz : (grand_total_word_count st =? 0) = false) by (apply Z.eqb_neq; lia).
      rewrite Hz. py_step. reflexivity.
    + rewrite lookup_insert_eq, Hc, Ht. reflexivity.
    + intros k path Hp Hne Hdup.
      destruct (scorable_lookup self total_riva_dict DER_result_dict ref_labels_list
                  audio_file_list k path Hok Hp) as (c & t & Hs & Htpos).
      exists c, t. split; [exact Hs|]. split; [exact Htpos|].
      rewrite lookup_insert_ne by (intros Heq; apply Hne; symmetry; exact Heq).
      apply (Hd k path c t); [apply lookup_lt_Some in Hp; exact Hp|exact Hp|exact Hs|].
      intros k' p' [Hk' _]. apply Hdup. exact Hk'.
  - eexists. split; [vm_compute; reflexivity|].
    repeat split; vm_compute; reflexivity.
Qed.

Lemma wder_pooled_witness :
  exists WDER_dict,
    get_WDER (__init__ params_plain) ["a.wav"; "b.wav"] two_riva two_der two_refs
    = Ok WDER_dict
    /\ WDER_dict !! "total" = Some 0.25%float.
Proof.
  destruct (proj1 (wder_pooled (__init__ params_plain) ["a.wav"; "b.wav"] two_riva two_der
                     two_refs eq_refl)) as (d & Hrun & Htotal & _).
  exists d. split; [exact Hrun|]. rewrite Htotal. vm_compute. reflexivity.
Defined.

(** ** Further properties of the code *)

(** *** CTC decoding *)

Lemma foldl_snoc {A B} (f : A -> B -> A) a l x :
  foldl f a (l ++ [x]) = f (foldl f a l) x.
Proof. rewrite foldl_app. reflexivity. Qed.

Lemma emit_cond blank_id prev p :
  (negb (p =? prev) || (prev =? blank_id)) && negb (p =? blank_id) = true
  <-> p <> blank_id /\ p <> prev.
Proof.
  destruct (Z.eqb_spec p prev), (Z.eqb_spec prev blank_id), (Z.eqb_spec p blank_id);
    simpl; split; intros; try discriminate; try tauto; try (split; congruence);
    try (destruct H; congruence).
Qed.

Lemma starts_token_lt blank_id xs pdx :
  starts_token blank_id xs pdx -> (pdx < length xs)%nat.
Proof. intros (p & Hp & _). apply lookup_lt_Some in Hp. exact Hp. Qed.

Lemma starts_token_snoc blank_id xs p pdx :
  starts_token blank_id (xs ++ [p]) pdx
  <-> starts_token blank_id xs pdx
      \/ (pdx = length xs /\ p <> blank_id /\ p <> default blank_id (last xs)).
Proof.
  unfold starts_token. split.
  - intros (q & Hq & Hnb & Hprev).
    destruct (decide (pdx < length xs)%nat) as [Hlt|Hge].
    + left. rewrite lookup_app_l in Hq by exact Hlt. exists q.
      split; [exact Hq|]. split; [exact Hnb|].
      destruct Hprev as [->|Hprev]; [left; reflexivity|right].
      rewrite lookup_app_l in Hprev by lia. exact Hprev.
    + right. assert (Hpdx : pdx = length xs).
      { apply lookup_lt_Some in Hq. rewrite length_app in Hq. simpl in Hq. lia. }
      subst pdx. rewrite lookup_app_r, Nat.sub_diag in Hq by lia. injection Hq as <-.
      split; [reflexivity|]. split; [exact Hnb|].
      destruct Hprev as [H0|Hprev].
      * destruct xs; [simpl; exact Hnb | discriminate].
      * rewrite last_lookup.
        destruct xs as [|x0 xs']; [simpl; exact Hnb|].
        rewrite lookup_app_l in Hprev by (simpl; lia).
        replace (Nat.pred (length (x0 :: xs'))) with (length (x0 :: xs') - 1)%nat by lia.
        destruct ((x0 :: xs') !! (length (x0 :: xs') - 1)%nat) as [q|] eqn:Hl; simpl.
        -- intros ->. apply Hprev. reflexivity.
        -- exact Hnb.
  - intros [(q & Hq & Hnb & Hprev) | (-> & Hnb & Hprev)].
    + pose proof (lookup_lt_Some _ _ _ Hq) as Hlt.
      exists q. rewrite lookup_app_l by exact Hlt.
      split; [exact Hq|]. split; [exact Hnb|].
      destruct Hprev as [->|Hprev]; [left; reflexivity|right].
      rewrite lookup_app_l by lia. exact Hprev.
    + exists p. rewrite lookup_app_r, Nat.sub_diag by lia.
      split; [reflexivity|]. split; [exact Hnb|].
      destruct xs as [|x0 xs']; [left; reflexivity|right].
      rewrite lookup_app_l by (simpl; lia).
      rewrite last_lookup in Hprev.
      replace (Nat.pred (length (x0 :: xs'))) with (length (x0 :: xs') - 1)%nat in Hprev by lia.
      destruct ((x0 :: xs') !! (length (x0 :: xs') - 1)%nat) as [q|] eqn:Hl; simpl in Hprev.
      * intros [= ->]. apply Hprev. reflexivity.
      * discriminate.
Qed.

Lemma ctc_inv_step blank_id xs st p :
  ctc_inv blank_id xs st ->
  ctc_inv blank_id (xs ++ [p]) (ctc_step blank_id st (length xs, p)).
Proof.
  intros (Hprev & Hlen & Hmem & Hsort & Hval). unfold ctc_inv, ctc_step.
  destruct ((negb (p =? previous st) || (previous st =? blank_id)) && negb (p =? blank_id))
    eqn:Hc; cbn [previous decoded_prediction decoded_timing_list].
  - apply emit_cond in Hc. destruct Hc as [Hnb Hne]. rewrite Hprev in Hne.
    split; [rewrite last_snoc; reflexivity|].
    split; [rewrite !length_app; simpl; lia|].
    split.
    { intros pdx. rewrite starts_token_snoc, elem_of_app, list_elem_of_singleton, Hmem.
      tauto. }
    split.
    { intros i j pdx pdx' Hij Hi Hj.
      assert (Hjl : (j < length (decoded_timing_list st ++ [length xs]))%nat)
        by (apply lookup_lt_Some in Hj; exact Hj).
      rewrite length_app in Hjl. cbn [length] in Hjl.
      rewrite lookup_app_l in Hi by lia.
      destruct (decide (j < length (decoded_timing_list st))%nat) as [Hlt|Hge].
      - rewrite lookup_app_l in Hj by exact Hlt. exact (Hsort i j pdx pdx' Hij Hi Hj).
      - rewrite lookup_app_r in Hj by lia.
        replace (j - length (decoded_timing_list st))%nat with 0%nat in Hj by lia.
        injection Hj as <-.
        apply (starts_token_lt blank_id), Hmem. eapply list_elem_of_lookup_2. exact Hi. }
    intros i pdx Hi.
    destruct (decide (i < length (decoded_timing_list st))%nat) as [Hlt|Hge].
    + rewrite lookup_app_l in Hi by exact Hlt.
      rewrite lookup_app_l by lia. rewrite (Hval i pdx Hi).
      assert (Hp : (pdx < length xs)%nat).
      { apply (starts_token_lt blank_id), Hmem. eapply list_elem_of_lookup_2. exact Hi. }
      rewrite lookup_app_l by exact Hp. reflexivity.
    + assert (Hi' : i = length (decoded_timing_list st)).
      { apply lookup_lt_Some in Hi. rewrite length_app in Hi. simpl in Hi. lia. }
      subst i. rewrite lookup_app_r, Nat.sub_diag in Hi by lia. injection Hi as <-.
      rewrite <- Hlen. rewrite !lookup_app_r, !Nat.sub_diag by lia. reflexivity.
  - assert (Hno : ~ (p <> blank_id /\ p <> default blank_id (last xs))).
    { rewrite <- Hprev. intros H. apply emit_cond in H. congruence. }
    split; [rewrite last_snoc; reflexivity|].
    split; [exact Hlen|].
    split.
    { intros pdx. rewrite starts_token_snoc, Hmem. tauto. }
    split; [exact Hsort|].
    intros i pdx Hi. rewrite (Hval i pdx Hi).
    assert (Hp : (pdx < length xs)%nat).
    { apply (starts_token_lt blank_id), Hmem. eapply list_elem_of_lookup_2. exact Hi. }
    rewrite lookup_app_l by exact Hp. reflexivity.
Qed.

Lemma ctc_decode_inv blank_id prediction :
  ctc_inv blank_id prediction
    (foldl (ctc_step blank_id) (mk_ctc [] [] blank_id) (enumerate prediction)).
Proof.
  induction prediction as [|p xs IH] using rev_ind.
  - unfold ctc_inv. cbn. split; [reflexivity|]. split; [reflexivity|].
    split.
    { intros pdx. split; [intros H; inversion H|].
      intros (p & Hp & _). discriminate. }
    split; [intros i j pdx pdx' _ Hi; discriminate|]. intros i pdx Hi. discriminate.
  - rewrite enumerate_snoc, foldl_snoc. apply ctc_inv_step, IH.
Qed.

(** X14: the CTC decoding loop emits exactly the frames that start a
    token (frames that are not the blank and differ from the frame before
    them), in increasing order of frame index, each with the token of its
    frame; no emitted token is the blank. *)
Theorem ctc_decode_emits_token_starts (blank_id : Z) (prediction : list Z) :
  length (ctc_decode blank_id prediction).1 = length (ctc_decode blank_id prediction).2
  /\ (forall pdx, pdx ∈ (ctc_decode blank_id prediction).2
                  <-> starts_token blank_id prediction pdx)
  /\ (forall i j pdx pdx', (i < j)%nat ->
        (ctc_decode blank_id prediction).2 !! i = Some pdx ->
        (ctc_decode blank_id prediction).2 !! j = Some pdx' -> (pdx < pdx')%nat)
  /\ (forall i pdx, (ctc_decode blank_id prediction).2 !! i = Some pdx ->
                    (ctc_decode blank_id prediction).1 !! i = prediction !! pdx)
  /\ Forall (fun p => p <> blank_id) (ctc_decode blank_id prediction).1.
Proof.
  destruct (ctc_decode_inv blank_id prediction) as (_ & Hlen & Hmem & Hsort & Hval).
  unfold ctc_decode. cbn [fst snd].
  split; [exact Hlen|]. split; [exact Hmem|]. split; [exact Hsort|]. split; [exact Hval|].
  apply Forall_forall. intros p Hp. apply list_elem_of_lookup in Hp. destruct Hp as [i Hi].
  destruct (lookup_lt_is_Some_2 (decoded_timing_list
              (foldl (ctc_step blank_id) (mk_ctc [] [] blank_id) (enumerate prediction))) i)
    as [pdx Hpdx].
  { rewrite <- Hlen. apply lookup_lt_Some in Hi. exact Hi. }
  pose proof (Hval i pdx Hpdx) as Hv. rewrite Hi in Hv.
  assert (Hst : starts_token blank_id prediction pdx).
  { apply Hmem. eapply list_elem_of_lookup_2. exact Hpdx. }
  destruct Hst as (q & Hq & Hnb & _). congruence.
Qed.

(** Tokens only. *)
Lemma ctc_tokens_from blank_id (l : list Z) (f : nat -> nat) st :
  decoded_prediction (foldl (ctc_step blank_id) st (imap (fun k x => (f k, x)) l))
  = decoded_prediction st ++ ctc_collapse blank_id (previous st) l.
Proof.
  revert f st. induction l as [|p l IH]; intros f st.
  - simpl. rewrite app_nil_r. reflexivity.
  - cbn [imap foldl ctc_collapse].
    change (imap ((fun k x => (f k, x)) ∘ S) l) with (imap (fun k x => ((f ∘ S) k, x)) l).
    rewrite IH. unfold ctc_step.
    destruct ((negb (p =? previous st) || (previous st =? blank_id)) && negb (p =? blank_id));
      cbn [decoded_prediction previous]; [rewrite <- app_assoc|]; reflexivity.
Qed.

Lemma ctc_decode_collapse blank_id prediction :
  (ctc_decode blank_id prediction).1 = ctc_collapse blank_id blank_id prediction.
Proof.
  unfold ctc_decode, enumerate. cbn [fst].
  rewrite (ctc_tokens_from blank_id prediction (fun k => k)). reflexivity.
Qed.

Lemma ctc_collapse_repeat blank_id prev p l :
  ctc_collapse blank_id prev (p :: p :: l) = ctc_collapse blank_id prev (p :: l).
Proof.
  cbn [ctc_collapse]. rewrite Z.eqb_refl. cbn [negb orb].
  destruct (Z.eqb_spec p blank_id) as [->|Hne]; cbn [negb andb].
  - rewrite !andb_false_r. reflexivity.
  - reflexivity.
Qed.

(** X15: repeating a frame of the prediction does not change the decoded
    tokens. *)
Theorem ctc_decode_repeated_frame (blank_id : Z) (before after : list Z) (p : Z) :
  (ctc_decode blank_id (before ++ p :: p :: after)).1
  = (ctc_decode blank_id (before ++ p :: after)).1.
Proof.
  rewrite !ctc_decode_collapse. generalize blank_id at 2 4 as prev.
  induction before as [|q before IH]; intros prev.
  - apply ctc_collapse_repeat.
  - cbn [app ctc_collapse]. rewrite IH. reflexivity.
Qed.

(** decode_ids_to_tokens_with_ts on token lists without blanks. *)
Lemma decode_ids_no_blank self (tokens : list Z) (timestamps : list nat) :
  Forall (fun c => c <> blank_id self /\ is_Some (labels_map self !! c)) tokens ->
  (length tokens <= length timestamps)%nat ->
  exists token_list,
    decode_ids_to_tokens_with_ts self tokens timestamps
    = Ok (token_list, take (length tokens) timestamps)
    /\ Forall2 (fun c s => labels_map self !! c = Some s) tokens token_list.
Proof.
  unfold decode_ids_to_tokens_with_ts.
  induction tokens as [|c tokens IH] using rev_ind; intros Hall Hlen.
  - exists []. split; [reflexivity | constructor].
  - apply Forall_app in Hall. destruct Hall as [Hall Hc].
    inversion Hc as [|? ? [Hnb [s Hs]] _]; subst.
    rewrite length_app in Hlen. cbn [length] in Hlen.
    destruct (IH Hall ltac:(lia)) as (token_list & Hrun & Hrel).
    destruct (lookup_lt_is_Some_2 timestamps (length tokens)) as [ts Hts]; [lia|].
    exists (token_list ++ [s]). split.
    + rewrite enumerate_snoc, for_each_app, Hrun. cbn [bind for_each].
      assert (Hb : (c =? blank_id self) = false) by (apply Z.eqb_neq; exact Hnb).
      rewrite Hb. cbn [negb]. rewrite Hs. py_step. unfold getitem. rewrite Hts. py_step.
      rewrite length_app. cbn [length]. rewrite Nat.add_1_r.
      rewrite (take_S_r _ _ ts Hts). reflexivity.
    + apply Forall2_app; [exact Hrel|]. repeat constructor. exact Hs.
Qed.

(** X16: when every frame of the prediction is the blank or has a label,
    [decode_ids_to_tokens_with_ts] applied to the output of the decoding
    loop returns, with the label of every decoded token and the list of
    frame indices unchanged. *)
Theorem decode_ids_keeps_decoded_timing (self : WER_TS) (prediction : list Z) :
  Forall (fun p => p = blank_id self \/ is_Some (labels_map self !! p)) prediction ->
  exists token_list,
    decode_ids_to_tokens_with_ts self (ctc_decode (blank_id self) prediction).1
                                 (ctc_decode (blank_id self) prediction).2
    = Ok (token_list, (ctc_decode (blank_id self) prediction).2)
    /\ Forall2 (fun c s => labels_map self !! c = Some s)
               (ctc_decode (blank_id self) prediction).1 token_list.
Proof.
  intros Hall.
  destruct (ctc_decode_inv (blank_id self) prediction) as (_ & Hlen & Hmem & _ & Hval).
  unfold ctc_decode. cbn [fst snd].
  set (st := foldl (ctc_step (blank_id self)) (mk_ctc [] [] (blank_id self))
                   (enumerate prediction)) in *.
  destruct (decode_ids_no_blank self (decoded_prediction st) (decoded_timing_list st))
    as (token_list & Hrun & Hrel).
  - apply Forall_forall. intros p Hp. apply list_elem_of_lookup in Hp. destruct Hp as [i Hi].
    destruct (lookup_lt_is_Some_2 (decoded_timing_list st) i) as [pdx Hpdx].
    { rewrite <- Hlen. apply lookup_lt_Some in Hi. exact Hi. }
    pose proof (Hval i pdx Hpdx) as Hv. rewrite Hi in Hv.
    assert (Hst : starts_token (blank_id self) prediction pdx).
    { apply Hmem. eapply list_elem_of_lookup_2. exact Hpdx. }
    destruct Hst as (q & Hq & Hnb & _). assert (q = p) as -> by congruence.
    split; [exact Hnb|].
    rewrite Forall_forall in Hall.
    destruct (Hall p) as [|Hin]; [eapply list_elem_of_lookup_2; exact Hq|congruence|exact Hin].
  - lia.
  - exists token_list. split; [|exact Hrel].
    rewrite Hrun, Hlen, firstn_all. reflexivity.
Qed.

Lemma decode_ids_keeps_decoded_timing_witness :
  exists token_list,
    decode_ids_to_tokens_with_ts sample_wer_ts
      (ctc_decode 28 [28; 8; 8; 28; 9; 9; 28]).1 (ctc_decode 28 [28; 8; 8; 28; 9; 9; 28]).2
    = Ok (token_list, [1; 4]%nat).
Proof.
  destruct (decode_ids_keeps_decoded_timing sample_wer_ts [28; 8; 8; 28; 9; 9; 28])
    as (token_list & Hrun & _).
  - repeat (apply Forall_cons; split;
            [first [left; reflexivity | right; eexists; reflexivity]|]).
    apply Forall_nil. exact I.
  - exists token_list. exact Hrun.
Defined.

(** The BPE decoder and the character decoder. *)
Lemma bpe_decode_from time_stride blank_id (l : list Z) (f : nat -> nat) st bst :
  bpe_decoded_prediction bst = decoded_prediction st ->
  char_ts bst = (fun pdx => round2 (float_of_int (Z.of_nat pdx) * time_stride)%float)
                  <$> decoded_timing_list st ->
  timestamp_list bst = char_ts bst ->
  bpe_previous bst = previous st ->
  let bst' := foldl (bpe_step time_stride blank_id) bst (imap (fun k x => (f k, x)) l) in
  let st' := foldl (ctc_step blank_id) st (imap (fun k x => (f k, x)) l) in
  bpe_decoded_prediction bst' = decoded_prediction st'
  /\ char_ts bst' = (fun pdx => round2 (float_of_int (Z.of_nat pdx) * time_stride)%float)
                      <$> decoded_timing_list st'
  /\ timestamp_list bst' = char_ts bst'.
Proof.
  revert f st bst. induction l as [|p l IH]; intros f st bst Hd Hc Ht Hp; cbn zeta.
  - simpl. auto.
  - cbn [imap foldl].
    change (imap ((fun k x => (f k, x)) ∘ S) l) with (imap (fun k x => ((f ∘ S) k, x)) l).
    apply IH; unfold bpe_step, ctc_step; rewrite Hp;
      destruct ((negb (p =? previous st) || (previous st =? blank_id)) && negb (p =? blank_id));
      cbn [bpe_decoded_prediction char_ts timestamp_list bpe_previous
           decoded_prediction decoded_timing_list previous];
      rewrite ?fmap_app; cbn [fmap list_fmap]; congruence.
Qed.

(** X17: the decoding loop of [WERBPE_TS] emits the same tokens as the one
    of [WER_TS]; its two time-stamp lists are equal and hold, for each
    token, the product of the frame index and the stride rounded to two
    decimals. *)
Theorem bpe_decode_scales_frames (time_stride : float) (blank_id : Z) (prediction : list Z) :
  bpe_decoded_prediction (bpe_decode time_stride blank_id prediction)
  = (ctc_decode blank_id prediction).1
  /\ char_ts (bpe_decode time_stride blank_id prediction)
     = (fun pdx => round2 (float_of_int (Z.of_nat pdx) * time_stride)%float)
         <$> (ctc_decode blank_id prediction).2
  /\ timestamp_list (bpe_decode time_stride blank_id prediction)
     = char_ts (bpe_decode time_stride blank_id prediction).
Proof.
  unfold bpe_decode, ctc_decode, enumerate. cbn [fst snd].
  apply (bpe_decode_from time_stride blank_id prediction (fun k => k)); reflexivity.
Qed.

(** *** Strings as lists of characters *)

Lemma length_list_ascii (s : string) :
  length (String.list_ascii_of_string s) = String.length s.
Proof. induction s as [|a s IH]; simpl; [reflexivity | rewrite IH; reflexivity]. Qed.

Lemma list_ascii_app (s1 s2 : string) :
  String.list_ascii_of_string (s1 +:+ s2)
  = String.list_ascii_of_string s1 ++ String.list_ascii_of_string s2.
Proof. induction s1 as [|a s1 IH]; simpl; [reflexivity | rewrite IH; reflexivity]. Qed.

Lemma get_list_ascii (s : string) (i : nat) :
  String.get i s = String.list_ascii_of_string s !! i.
Proof.
  revert i. induction s as [|a s IH]; intros [|i]; simpl; try reflexivity. apply IH.
Qed.

Lemma lstrip_split (s : string) :
  exists pre, String.list_ascii_of_string s = pre ++ String.list_ascii_of_string (lstrip s).
Proof.
  induction s as [|a s [pre IH]]; [exists []; reflexivity|].
  simpl. destruct (is_space a).
  - exists (a :: pre). simpl. rewrite IH. reflexivity.
  - exists []. reflexivity.
Qed.

Lemma rstrip_split (s : string) :
  exists suf, String.list_ascii_of_string s = String.list_ascii_of_string (rstrip s) ++ suf.
Proof.
  induction s as [|a s [suf IH]]; [exists []; reflexivity|].
  simpl. destruct (rstrip s) as [|b r] eqn:Hr.
  - destruct (is_space a).
    + exists (a :: suf). simpl. rewrite IH. reflexivity.
    + exists suf. simpl. rewrite IH. reflexivity.
  - exists suf. simpl. rewrite IH. reflexivity.
Qed.

(** *** clean_trans_and_TS *)

Lemma clean_trans_and_TS_spec (trans : string) (char_ts : list Z) :
  trans <> "" -> String.length trans = length char_ts ->
  exists d,
    clean_trans_and_TS trans char_ts
    = Passed (Ok (strip trans, take (String.length (strip trans)) (drop d char_ts)))
    /\ (d + String.length (strip trans) <= String.length trans)%nat
    /\ forall i, (i < String.length (strip trans))%nat ->
                 String.get i (strip trans) = String.get (d + i) trans.
Proof.
  intros Hne Hlen. unfold clean_trans_and_TS.
  assert (H0 : (0 < String.length trans)%nat) by (destruct trans; [congruence | simpl; lia]).
  assert (Ha1 : ((0 <? String.length trans)%nat && (0 <? length char_ts)%nat) = true).
  { apply andb_true_intro. split; apply Nat.ltb_lt; lia. }
  assert (Ha2 : (String.length trans =? length char_ts)%nat = true) by (apply Nat.eqb_eq; exact Hlen).
  rewrite Ha1, Ha2. cbn [negb].
  destruct (lstrip_split trans) as [pre Hpre].
  destruct (rstrip_split (lstrip trans)) as [suf Hsuf].
  fold (strip trans) in Hsuf |- *.
  pose proof (f_equal length Hpre) as Lpre.
  pose proof (f_equal length Hsuf) as Lsuf.
  rewrite length_app, !length_list_ascii in Lpre, Lsuf.
  exists (length pre).
  assert (Hs1 : slice_from (Z.of_nat (length char_ts) - Z.of_nat (String.length (lstrip trans)))
                           char_ts = drop (length pre) char_ts).
  { unfold slice_from.
    replace (Z.of_nat (length char_ts) - Z.of_nat (String.length (lstrip trans)))
      with (Z.of_nat (length pre)) by lia.
    destruct (Z.ltb_spec (Z.of_nat (length pre)) 0); [lia|].
    rewrite Nat2Z.id. reflexivity. }
  rewrite Hs1.
  assert (Ld : length (drop (length pre) char_ts) = String.length (lstrip trans)).
  { rewrite length_drop. lia. }
  rewrite Ld.
  replace (Z.of_nat (String.length (lstrip trans)) - Z.of_nat (String.length (strip trans)))
    with (Z.of_nat (length suf)) by lia.
  split; [|split].
  - f_equal. f_equal. f_equal.
    destruct (Z.ltb_spec 0 (Z.of_nat (length suf))) as [Hpos|Hz].
    + unfold slice_to. rewrite Ld.
      destruct (Z.ltb_spec (-1 * Z.of_nat (length suf)) 0); [|lia].
      f_equal. lia.
    + rewrite firstn_all2; [reflexivity|]. rewrite Ld. lia.
  - lia.
  - intros i Hi. rewrite !get_list_ascii, Hpre, Hsuf.
    rewrite lookup_app_r by lia. replace (length pre + i - length pre)%nat with i by lia.
    rewrite lookup_app_l by (rewrite length_list_ascii; exact Hi). reflexivity.
Qed.

(** X18: for a non-empty transcript with one time stamp per character,
    [clean_trans_and_TS] returns the stripped transcript and exactly the
    time stamps of the characters it keeps: both results have the same
    length, and for the number [d] of leading characters removed the
    character and the time stamp of index [i] of the results are those of
    index [d + i] of the arguments. *)
Theorem clean_trans_and_TS_in_step (trans : string) (char_ts : list Z) :
  trans <> "" -> String.length trans = length char_ts ->
  exists d ts,
    clean_trans_and_TS trans char_ts = Passed (Ok (strip trans, ts))
    /\ length ts = String.length (strip trans)
    /\ forall i, (i < String.length (strip trans))%nat ->
         String.get i (strip trans) = String.get (d + i) trans
         /\ ts !! i = char_ts !! (d + i)%nat.
Proof.
  intros Hne Hlen.
  destruct (clean_trans_and_TS_spec trans char_ts Hne Hlen) as (d & Hrun & Hd & Hget).
  exists d, (take (String.length (strip trans)) (drop d char_ts)).
  split; [exact Hrun|]. split.
  - rewrite length_take, length_drop. lia.
  - intros i Hi. split; [apply Hget, Hi|].
    rewrite lookup_take_lt by exact Hi. rewrite lookup_drop. reflexivity.
Qed.

Lemma clean_trans_and_TS_in_step_witness :
  exists ts, clean_trans_and_TS " hi " [4; 5; 6; 7] = Passed (Ok ("hi", ts))
             /\ ts !! 0%nat = Some 5.
Proof.
  destruct (clean_trans_and_TS_in_step " hi " [4; 5; 6; 7] ltac:(discriminate) eq_refl)
    as (d & ts & Hrun & Hlen & Hi).
  exists ts. split; [exact Hrun|].
  injection Hrun as <-. reflexivity.
Defined.

(** *** The spaces of a transcript *)

Lemma join_space_snoc (ws : list string) (w : string) :
  String.list_ascii_of_string (join_space (ws ++ [w]))
  = match ws with
    | [] => String.list_ascii_of_string w
    | _ => String.list_ascii_of_string (join_space ws)
           ++ " "%char :: String.list_ascii_of_string w
    end.
Proof.
  induction ws as [|a ws IH]; [reflexivity|].
  destruct ws as [|b ws].
  - cbn [app join_space]. rewrite !list_ascii_app. reflexivity.
  - change (join_space ((a :: b :: ws) ++ [w]))
      with (a +:+ " " +:+ join_space ((b :: ws) ++ [w])).
    change (join_space (a :: b :: ws)) with (a +:+ " " +:+ join_space (b :: ws)).
    rewrite !list_ascii_app, IH, <- !app_assoc. reflexivity.
Qed.

Lemma join_space_snoc_ne (ws : list string) (w : string) :
  ws <> [] ->
  String.list_ascii_of_string (join_space (ws ++ [w]))
  = String.list_ascii_of_string (join_space ws) ++ " "%char :: String.list_ascii_of_string w.
Proof. intros Hne. rewrite join_space_snoc. destruct ws; [congruence | reflexivity]. Qed.

Lemma str_slice_chars i j chars :
  String.list_ascii_of_string (str_slice i j chars) = take (j - i) (drop i chars).
Proof. unfold str_slice. apply String.list_ascii_of_string_of_list_ascii. Qed.

Lemma spaces_inv_step chars (char_ts : list Z) time_stride k s st st' :
  length chars = length char_ts ->
  chars !! k = Some s ->
  spaces_inv chars k st ->
  get_spaces_step chars char_ts time_stride st (k, s) = Ok st' ->
  spaces_inv chars (S k) st'.
Proof.
  intros Hlen Hk (Hle & Hlt & Hwl & Hsp & Hns & Hws & Hjoin). unfold get_spaces_step.
  assert (Htk : take (S k) chars = take k chars ++ [s]) by (apply take_S_r, Hk).
  destruct (Ascii.eqb_spec s " ") as [->|Hs].
  - destruct (getitem char_ts k) as [t0|] eqn:H0; py_step; [|discriminate].
    destruct (float_of_int_checked t0) as [x0|]; py_step; [|discriminate].
    destruct (getitem char_ts (k + 1)) as [t1|] eqn:H1; py_step; [|discriminate].
    destruct (float_of_int_checked (t1 - 1)) as [x1|]; py_step; [|discriminate].
    intros [= <-]. unfold spaces_inv. cbn [stt_idx word_list spaces_in_sec].
    assert (Hk1 : (k + 1 < length chars)%nat).
    { unfold getitem in H1. destruct (char_ts !! (k + 1)%nat) eqn:Hl; [|discriminate].
      apply lookup_lt_Some in Hl. lia. }
    split; [lia|]. split; [exact Hk1|].
    split; [rewrite !length_app; simpl; lia|].
    split.
    { rewrite length_app, Hsp, Htk. unfold count_spaces.
      rewrite List.filter_app, length_app. reflexivity. }
    split.
    { replace (S k - (k + 1))%nat with 0%nat by lia. constructor. }
    split.
    { apply Forall_app. split; [exact Hws|]. constructor; [|constructor].
      rewrite str_slice_chars. exact Hns. }
    rewrite join_space_snoc_ne by (destruct (word_list st); discriminate).
    rewrite Hjoin, str_slice_chars.
    replace (S k - (k + 1))%nat with 0%nat by lia. rewrite Htk. reflexivity.
  - intros [= <-]. unfold spaces_inv.
    assert (Hsl : take (S k - stt_idx st) (drop (stt_idx st) chars)
                  = take (k - stt_idx st) (drop (stt_idx st) chars) ++ [s]).
    { replace (S k - stt_idx st)%nat with (S (k - stt_idx st)) by lia.
      apply take_S_r. rewrite lookup_drop.
      replace (stt_idx st + (k - stt_idx st))%nat with k by lia. exact Hk. }
    split; [lia|]. split; [exact Hlt|]. split; [exact Hwl|].
    split.
    { rewrite Hsp, Htk. unfold count_spaces. rewrite List.filter_app. cbn [List.filter].
      destruct (Ascii.eqb_spec s " "); [congruence|]. rewrite app_nil_r. reflexivity. }
    split.
    { rewrite Hsl. apply Forall_app. split; [exact Hns|]. repeat constructor. exact Hs. }
    split; [exact Hws|].
    rewrite join_space_snoc in Hjoin |- *. rewrite str_slice_chars in Hjoin |- *.
    rewrite Hsl, Htk.
    destruct (word_list st); rewrite <- Hjoin; [reflexivity|].
    rewrite <- app_assoc. reflexivity.
Qed.

Lemma get_spaces_loop_inv chars (char_ts : list Z) time_stride st :
  chars <> [] -> length chars = length char_ts ->
  for_each (get_spaces_step chars char_ts time_stride) (enumerate chars) (mk_spaces [] [] 0)
  = Ok st ->
  spaces_inv chars (length chars) st.
Proof.
  intros Hne Hlen Hrun.
  apply (for_each_enumerate_inv (get_spaces_step chars char_ts time_stride)
           (spaces_inv chars) chars (mk_spaces [] [] 0) st); [| |exact Hrun].
  - unfold spaces_inv. cbn. split; [lia|]. split; [destruct chars; [congruence|simpl; lia]|].
    split; [reflexivity|]. split; [reflexivity|]. split; [constructor|].
    split; [constructor|reflexivity].
  - intros k x s s' Hk HI Hstep. eapply spaces_inv_step; eassumption.
Qed.

Lemma get_spaces_spec (trans : string) (char_ts : list Z) (time_stride : float) spaces words :
  _get_spaces trans char_ts time_stride = Passed (Ok (spaces, words)) ->
  exists st,
    spaces_inv (String.list_ascii_of_string trans) (String.length trans) st
    /\ spaces = spaces_in_sec st
    /\ words = word_list st
                ++ [str_slice (stt_idx st) (String.length trans)
                              (String.list_ascii_of_string trans)].
Proof.
  unfold _get_spaces. rewrite length_list_ascii.
  set (chars := String.list_ascii_of_string trans).
  destruct ((0 <? String.length trans)%nat && (0 <? length char_ts)%nat) eqn:Ha1;
    [|discriminate].
  destruct (String.length trans =? length char_ts)%nat eqn:Ha2; [|discriminate].
  cbn [negb]. apply andb_prop in Ha1. destruct Ha1 as [Hc0 _].
  apply Nat.ltb_lt in Hc0. apply Nat.eqb_eq in Ha2.
  destruct (for_each _ _ _) as [st|] eqn:Hrun; py_step; [|discriminate].
  assert (Hlc : length chars = String.length trans) by apply length_list_ascii.
  assert (Hne : chars <> []) by (intros E; rewrite E in Hlc; simpl in Hlc; lia).
  pose proof (get_spaces_loop_inv chars char_ts time_stride st Hne ltac:(lia) Hrun) as HI.
  rewrite Hlc in HI.
  destruct HI as (Hle & Hlt & Hwl & Hsp & Hns & Hws & Hjoin).
  destruct (lookup_lt_is_Some_2 chars (stt_idx st) Hlt) as [c Hc].
  rewrite Hc.
  assert (Hcs : c <> " "%char).
  { rewrite Forall_forall in Hns. apply Hns.
    apply (list_elem_of_lookup_2 _ 0%nat). rewrite lookup_take_lt by lia.
    rewrite lookup_drop, Nat.add_0_r. exact Hc. }
  destruct (Ascii.eqb_spec c " "); [congruence|]. cbn [negb].
  intros [= <- <-]. exists st. repeat split; assumption.
Qed.

Lemma get_spaces_lengths (trans : string) (char_ts : list Z) (time_stride : float)
    spaces words :
  _get_spaces trans char_ts time_stride = Passed (Ok (spaces, words)) ->
  join_space words = trans /\ length words = S (length spaces).
Proof.
  intros Hrun.
  destruct (get_spaces_spec _ _ _ _ _ Hrun)
    as (st & (Hle & Hlt & Hwl & Hsp & Hns & Hws & Hjoin) & -> & ->).
  split.
  - rewrite <- (String.string_of_list_ascii_of_string (join_space _)), Hjoin.
    rewrite <- (length_list_ascii trans), firstn_all.
    apply String.string_of_list_ascii_of_string.
  - rewrite length_app. simpl. lia.
Qed.

(** X19: whenever [_get_spaces] returns, the words it returns joined by
    single spaces give back the transcript, no word contains a space,
    there is one word more than there are space intervals, and one space
    interval per space of the transcript. *)
Theorem get_spaces_words_join_back
    (trans : string) (char_ts : list Z) (time_stride : float)
    (spaces_in_sec : list timestamp) (word_list : list string) :
  _get_spaces trans char_ts time_stride = Passed (Ok (spaces_in_sec, word_list)) ->
  join_space word_list = trans
  /\ Forall (fun w => Forall (fun c => c <> " "%char) (String.list_ascii_of_string w))
            word_list
  /\ length word_list = S (length spaces_in_sec)
  /\ length spaces_in_sec = count_spaces (String.list_ascii_of_string trans).
Proof.
  intros Hrun. destruct (get_spaces_lengths _ _ _ _ _ Hrun) as [Hjoin Hlen].
  destruct (get_spaces_spec _ _ _ _ _ Hrun)
    as (st & (Hle & Hlt & Hwl & Hsp & Hns & Hws & _) & -> & ->).
  split; [exact Hjoin|]. split; [|split; [exact Hlen|]].
  - apply Forall_app. split; [exact Hws|]. constructor; [|constructor].
    rewrite str_slice_chars. exact Hns.
  - rewrite Hsp, <- (length_list_ascii trans), firstn_all. reflexivity.
Qed.

Lemma get_spaces_words_join_back_witness :
  join_space ["hi"; "there"] = "hi there".
Proof.
  exact (proj1 (get_spaces_words_join_back "hi there" [3; 4; 5; 6; 7; 8; 9; 10] 0.02
                  [(0.1, 0.1)%float] ["hi"; "there"] eq_refl)).
Defined.

(** *** Words and word time stamps of one utterance *)

Ltac as_step := cbn [mbind asserted_bind mret asserted_ret].

(** A loop whose body appends one element. *)
Lemma for_each_append_length {A B : Type} (f : list B -> A -> result (list B)) xs acc r :
  (forall acc x acc', f acc x = Ok acc' -> length acc' = S (length acc)) ->
  for_each f xs acc = Ok r -> length r = (length acc + length xs)%nat.
Proof.
  intros Hf. revert acc. induction xs as [|x xs IH]; intros acc; cbn [for_each].
  - intros [= <-]. simpl. lia.
  - destruct (f acc x) as [acc'|] eqn:Hx; cbn [bind]; [|discriminate].
    intros Hr. rewrite (IH acc' Hr), (Hf acc x acc' Hx). simpl. lia.
Qed.

Lemma get_word_ts_length self (char_ts : list Z) (spaces : list timestamp) end_stamp word_ts :
  get_word_ts_from_spaces self char_ts spaces end_stamp = Ok word_ts ->
  spaces <> [] /\ length word_ts = S (length spaces).
Proof.
  unfold get_word_ts_from_spaces.
  destruct (getitem char_ts 0) as [c0|]; py_step; [|discriminate].
  destruct (float_of_int_checked c0) as [x0|]; py_step; [|discriminate].
  destruct (float_of_int_checked end_stamp) as [xe|]; py_step; [|discriminate].
  destruct (for_each _ _ _) as [middle|] eqn:Hm; py_step; [|discriminate].
  apply for_each_append_length in Hm.
  2:{ intros acc k acc'.
      destruct (getitem spaces k) as [a|]; py_step; [|discriminate].
      destruct (getitem spaces (k + 1)) as [b|]; py_step; [|discriminate].
      intros [= <-]. rewrite length_app. simpl. lia. }
  rewrite length_seq in Hm. simpl in Hm.
  destruct spaces as [|s0 spaces]; [discriminate|].
  destruct (getitem_int (s0 :: spaces) 0) as [first|]; py_step; [|discriminate].
  destruct (getitem_int (s0 :: spaces) (-1)) as [last|]; py_step; [|discriminate].
  intros [= <-]. split; [discriminate|].
  cbn [length app]. rewrite length_app, Hm. simpl. lia.
Qed.

Lemma get_word_ts_no_spaces self (char_ts : list Z) c0 end_stamp :
  char_ts !! 0%nat = Some c0 ->
  is_infinity (float_of_int c0) = false ->
  is_infinity (float_of_int end_stamp) = false ->
  get_word_ts_from_spaces self char_ts [] end_stamp = Raise IndexError.
Proof.
  intros H0 Hc He. unfold get_word_ts_from_spaces, getitem, float_of_int_checked.
  rewrite H0. py_step. rewrite Hc. py_step. rewrite He. py_step. reflexivity.
Qed.

(** A transcript without a space: the loop collects nothing. *)
Lemma get_spaces_loop_no_space chars (char_ts : list Z) time_stride (l : list (nat * ascii)) st :
  Forall (fun ks => ks.2 <> " "%char) l ->
  for_each (get_spaces_step chars char_ts time_stride) l st = Ok st.
Proof.
  induction 1 as [|[k s] l Hs Hl IH]; [reflexivity|].
  cbn [for_each]. unfold get_spaces_step at 1. cbn [snd] in Hs.
  destruct (Ascii.eqb_spec s " "); [congruence|]. cbn [bind]. exact IH.
Qed.

Lemma get_spaces_single_word (trans : string) (char_ts : list Z) time_stride :
  trans <> "" -> String.length trans = length char_ts ->
  Forall (fun c => c <> " "%char) (String.list_ascii_of_string trans) ->
  _get_spaces trans char_ts time_stride = Passed (Ok ([], [trans])).
Proof.
  intros Hne Hlen Hns. unfold _get_spaces.
  rewrite length_list_ascii.
  assert (H0 : (0 < String.length trans)%nat) by (destruct trans; [congruence | simpl; lia]).
  assert (Ha1 : ((0 <? String.length trans)%nat && (0 <? length char_ts)%nat) = true).
  { apply andb_true_intro. split; apply Nat.ltb_lt; lia. }
  assert (Ha2 : (String.length trans =? length char_ts)%nat = true) by (apply Nat.eqb_eq; exact Hlen).
  rewrite Ha1, Ha2. cbn [negb].
  rewrite get_spaces_loop_no_space.
  2:{ apply Forall_forall. intros [k s] Hin. cbn [snd].
      apply list_elem_of_lookup in Hin. destruct Hin as [i Hi].
      unfold enumerate in Hi. rewrite list_lookup_imap in Hi.
      destruct (String.list_ascii_of_string trans !! i) as [c|] eqn:Hc; [|discriminate].
      injection Hi as <- <-. rewrite Forall_forall in Hns. apply Hns.
      eapply list_elem_of_lookup_2. exact Hc. }
  py_step. cbn [stt_idx word_list spaces_in_sec].
  destruct (lookup_lt_is_Some_2 (String.list_ascii_of_string trans) 0) as [c Hc].
  { rewrite length_list_ascii. exact H0. }
  rewrite Hc.
  assert (Hcs : c <> " "%char).
  { rewrite Forall_forall in Hns. apply Hns. eapply list_elem_of_lookup_2. exact Hc. }
  destruct (Ascii.eqb_spec c " "); [congruence|]. cbn [negb app].
  unfold str_slice. rewrite drop_0, Nat.sub_0_r, <- (length_list_ascii trans), firstn_all.
  rewrite String.string_of_list_ascii_of_string. reflexivity.
Qed.

Lemma strip_empty_or (s : string) : strip s = "" \/ strip s <> "".
Proof. destruct (strip s); [left; reflexivity | right; discriminate]. Qed.

Lemma clean_trans_and_TS_asserts (trans : string) (char_ts : list Z) :
  (trans = "" \/ char_ts = [] \/ String.length trans <> length char_ts) ->
  clean_trans_and_TS trans char_ts = AssertionError.
Proof.
  intros H. unfold clean_trans_and_TS.
  destruct ((0 <? String.length trans)%nat && (0 <? length char_ts)%nat) eqn:Ha1;
    [|reflexivity].
  destruct (String.length trans =? length char_ts)%nat eqn:Ha2; [|reflexivity].
  apply andb_prop in Ha1. destruct Ha1 as [H1 H2].
  apply Nat.ltb_lt in H1, H2. apply Nat.eqb_eq in Ha2.
  destruct H as [-> | [-> | H]]; [simpl in H1; lia | simpl in H2; lia | congruence].
Qed.

Lemma get_spaces_empty (char_ts : list Z) time_stride :
  _get_spaces "" char_ts time_stride = AssertionError.
Proof. reflexivity. Qed.

Lemma get_spaces_not_assert (trans : string) (char_ts : list Z) time_stride :
  trans <> "" -> String.length trans = length char_ts ->
  exists r, _get_spaces trans char_ts time_stride = Passed r.
Proof.
  intros Hne Hlen. unfold _get_spaces. rewrite length_list_ascii.
  assert (H0 : (0 < String.length trans)%nat) by (destruct trans; [congruence | simpl; lia]).
  assert (Ha1 : ((0 <? String.length trans)%nat && (0 <? length char_ts)%nat) = true).
  { apply andb_true_intro. split; apply Nat.ltb_lt; lia. }
  assert (Ha2 : (String.length trans =? length char_ts)%nat = true) by (apply Nat.eqb_eq; exact Hlen).
  rewrite Ha1, Ha2. cbn [negb]. eauto.
Qed.

(** X20: the steps of [run_ASR_QuartzNet_CTC] on one utterance raise
    [AssertionError] exactly for an empty hypothesis, an empty time-stamp
    list, lists of different lengths and a hypothesis of white space only:
    the assertion that compares the number of words and of word time
    stamps never fails.  When the steps return, there are as many words as
    word time stamps, at least two, and the words joined by single spaces
    are the stripped hypothesis. *)
Theorem words_and_word_ts_lengths_agree
    (self : ASR_attrs) (text : string) (char_ts : list Z) (end_stamp : Z) :
  (words_and_word_ts self text char_ts end_stamp = AssertionError
   <-> text = "" \/ char_ts = [] \/ String.length text <> length char_ts
       \/ strip text = "")
  /\ forall words word_ts,
       words_and_word_ts self text char_ts end_stamp = Passed (Ok (words, word_ts)) ->
       length words = length word_ts
       /\ join_space words = strip text
       /\ (2 <= length words)%nat.
Proof.
  unfold words_and_word_ts.
  destruct (decide (text = "")) as [He|Hne].
  { rewrite clean_trans_and_TS_asserts by auto. as_step.
    split; [split; auto|]. intros ? ? [=]. }
  destruct (decide (String.length text = length char_ts)) as [Hlen|Hlen].
  2:{ rewrite clean_trans_and_TS_asserts by auto. as_step.
      split; [split; auto|]. intros ? ? [=]. }
  destruct (clean_trans_and_TS_spec text char_ts Hne Hlen) as (d & Hrun & Hd & _).
  set (ts := take (String.length (strip text)) (drop d char_ts)) in *.
  assert (Hts : length ts = String.length (strip text)).
  { subst ts. rewrite length_take, length_drop. lia. }
  rewrite Hrun. as_step.
  assert (Hc : char_ts <> []).
  { intros ->. destruct text; [congruence | discriminate]. }
  destruct (strip_empty_or text) as [Hs|Hs].
  { rewrite Hs. rewrite get_spaces_empty. as_step.
    split; [split; auto|]. intros ? ? [=]. }
  destruct (get_spaces_not_assert (strip text) ts (time_stride self) Hs (eq_sym Hts))
    as [r Hr].
  assert (Hno : ~ (text = "" \/ char_ts = [] \/ String.length text <> length char_ts
                   \/ strip text = "")) by tauto.
  rewrite Hr. destruct r as [[spaces words]|e]; as_step.
  2:{ split; [split; [discriminate|tauto]|]. intros ? ? [=]. }
  destruct (get_spaces_lengths _ _ _ _ _ Hr) as (Hjoin & Hwl).
  destruct (get_word_ts_from_spaces self ts spaces end_stamp) as [word_ts|e] eqn:Hw; as_step.
  2:{ split; [split; [discriminate|tauto]|]. intros ? ? [=]. }
  destruct (get_word_ts_length _ _ _ _ _ Hw) as [Hsp Hl].
  assert (Heq : (length words =? length word_ts)%nat = true) by (apply Nat.eqb_eq; lia).
  rewrite Heq. cbn [negb].
  split; [split; [discriminate|tauto]|].
  intros ? ? [= <- <-]. split; [lia|]. split; [exact Hjoin|].
  destruct spaces; [congruence|]. simpl in Hwl. lia.
Qed.

(** X21: for a hypothesis that is one word (no space once stripped) the
    steps of [run_ASR_QuartzNet_CTC] raise [IndexError]:
    [get_word_ts_from_spaces] indexes the empty list of spaces. *)
Theorem words_and_word_ts_single_word
    (self : ASR_attrs) (text : string) (char_ts : list Z) (end_stamp : Z) :
  String.length text = length char_ts ->
  strip text <> "" ->
  Forall (fun c => c <> " "%char) (String.list_ascii_of_string (strip text)) ->
  Forall (fun z => is_infinity (float_of_int z) = false) (end_stamp :: char_ts) ->
  words_and_word_ts self text char_ts end_stamp = Passed (Raise IndexError).
Proof.
  intros Hlen Hs Hns Hfit. unfold words_and_word_ts.
  assert (Hne : text <> "") by (intros ->; apply Hs; reflexivity).
  destruct (clean_trans_and_TS_spec text char_ts Hne Hlen) as (d & Hrun & Hd & _).
  set (ts := take (String.length (strip text)) (drop d char_ts)) in *.
  assert (Hts : length ts = String.length (strip text)).
  { subst ts. rewrite length_take, length_drop. lia. }
  rewrite Hrun. as_step.
  rewrite (get_spaces_single_word (strip text) ts (time_stride self) Hs (eq_sym Hts) Hns).
  as_step.
  assert (H0 : (0 < String.length (strip text))%nat).
  { destruct (strip text); [congruence | simpl; lia]. }
  assert (Ht0 : ts !! 0%nat = char_ts !! (d + 0)%nat).
  { subst ts. rewrite lookup_take_lt by exact H0. apply lookup_drop. }
  destruct (lookup_lt_is_Some_2 ts 0) as [c0 Hc0]; [lia|].
  inversion Hfit as [|? ? He Hcs]; subst.
  rewrite (get_word_ts_no_spaces self ts c0 end_stamp Hc0); [reflexivity| |exact He].
  rewrite Forall_forall in Hcs. apply Hcs.
  rewrite Hc0 in Ht0. symmetry in Ht0. eapply list_elem_of_lookup_2. exact Ht0.
Qed.

Lemma words_and_word_ts_single_word_witness :
  words_and_word_ts sample_asr " hello " [1; 2; 3; 4; 5; 6; 7] 20 = Passed (Raise IndexError).
Proof.
  apply (words_and_word_ts_single_word sample_asr " hello " [1; 2; 3; 4; 5; 6; 7] 20).
  - reflexivity.
  - discriminate.
  - repeat constructor; discriminate.
  - repeat constructor.
Defined.

Lemma words_and_word_ts_lengths_agree_witness :
  exists words word_ts,
    words_and_word_ts sample_asr "  hi there " [1; 2; 3; 4; 5; 6; 7; 8; 9; 10; 11] 20
    = Passed (Ok (words, word_ts))
    /\ length words = length word_ts /\ join_space words = "hi there".
Proof.
  eexists _, _. split; [vm_compute; reflexivity|].
  destruct (proj2 (words_and_word_ts_lengths_agree sample_asr "  hi there "
                     [1; 2; 3; 4; 5; 6; 7; 8; 9; 10; 11] 20) _ _ eq_refl)
    as (H1 & H2 & _).
  split; [exact H1 | exact H2].
Defined.

(** *** apply_delay *)

Lemma apply_delay_loop self (done todo : list timestamp) :
  for_each (fun word_ts p =>
              w ← getitem word_ts p;
              w' ← getitem word_ts p;
              Ok (<[p := (Py.max (round2 ((w : timestamp).1 - asr_delay_sec self)) 0,
                          round2 ((w' : timestamp).2 - asr_delay_sec self))%float]> word_ts))
           (seq (length done) (length todo)) (done ++ todo)
  = Ok (done ++ ((fun w : timestamp =>
                    (Py.max (round2 (w.1 - asr_delay_sec self)) 0,
                     round2 (w.2 - asr_delay_sec self))%float) <$> todo)).
Proof.
  revert done. induction todo as [|w todo IH]; intros done; [reflexivity|].
  cbn [length seq for_each]. unfold getitem at 1 2.
  rewrite lookup_app_r, Nat.sub_diag by lia. cbn [lookup list_lookup]. py_step. cbn [bind].
  replace (<[length done := _]> (done ++ w :: todo))
    with ((done ++ [(Py.max (round2 (w.1 - asr_delay_sec self)) 0,
                     round2 (w.2 - asr_delay_sec self))%float]) ++ todo).
  2:{ rewrite <- app_assoc. rewrite insert_app_r_alt, Nat.sub_diag by lia. reflexivity. }
  specialize (IH (done ++ [(Py.max (round2 (w.1 - asr_delay_sec self)) 0,
                            round2 (w.2 - asr_delay_sec self))%float])).
  rewrite length_app in IH. cbn [length] in IH. rewrite Nat.add_1_r in IH.
  rewrite IH, <- app_assoc. reflexivity.
Qed.

(** X22: [apply_delay] returns a list of the same length in which the
    word of index [p] is
    [[max(round(start - delay, 2), 0), round(end - delay, 2)]]; no start is
    below zero, while the end is not clamped. *)
Theorem apply_delay_start_not_negative (self : ASR_attrs) (word_ts : list timestamp) :
  exists out,
    apply_delay self word_ts = Ok out
    /\ length out = length word_ts
    /\ (forall p w, word_ts !! p = Some w ->
          out !! p = Some (Py.max (round2 (w.1 - asr_delay_sec self)) 0,
                           round2 (w.2 - asr_delay_sec self))%float)
    /\ Forall (fun w : timestamp => (w.1 <? 0)%float = false) out.
Proof.
  eexists. split; [exact (apply_delay_loop self [] word_ts)|].
  cbn [app]. split; [apply length_fmap|]. split.
  - intros p w Hp. rewrite list_lookup_fmap, Hp. reflexivity.
  - apply Forall_fmap, Forall_forall. intros w _. unfold Py.max, compose. cbn [fst].
    destruct (round2 (w.1 - asr_delay_sec self) <? 0)%float eqn:H;
      [reflexivity | exact H].
Qed.

(** *** Silence time stamps *)

Lemma for_each_snoc {A St : Type} (body : St -> A -> result St) (xs : list A) (x : A) acc :
  for_each body (xs ++ [x]) acc = bind (for_each body xs acc) (fun s => body s x).
Proof.
  revert acc. induction xs as [|y xs IH]; intros acc; simpl.
  - destruct (body acc x); reflexivity.
  - destruct (body acc y); simpl; [apply IH | reflexivity].
Qed.

(** A loop over [range(a, a + n)] that keeps an invariant returns. *)
Lemma for_each_range_ok {St : Type} (body : St -> nat -> result St) (I : nat -> St -> Prop)
    (a n : nat) acc0 :
  I a acc0 ->
  (forall k s, (a <= k < a + n)%nat -> I k s ->
               exists s', body s k = Ok s' /\ I (S k) s') ->
  exists s, for_each body (seq a n) acc0 = Ok s /\ I (a + n)%nat s.
Proof.
  intros H0. induction n as [|n IH]; intros Hstep.
  - exists acc0. rewrite Nat.add_0_r. split; [reflexivity | exact H0].
  - destruct IH as (s1 & H1 & HI); [intros k s Hk; apply Hstep; lia|].
    destruct (Hstep (a + n)%nat s1) as (s2 & H2 & HI2); [lia|exact HI|].
    exists s2. rewrite seq_S, for_each_snoc, H1. cbn [bind]. rewrite H2.
    split; [reflexivity|]. replace (a + S n)%nat with (S (a + n)) by lia. exact HI2.
Qed.

Lemma frame_class_argmax probs j row :
  probs !! j = Some row -> row <> [] ->
  exists c, Np.argmax row = Ok c /\ frame_class probs j = Some c.
Proof.
  intros Hj Hne. unfold frame_class. rewrite Hj.
  destruct row as [|x row]; [congruence|]. eexists. split; reflexivity.
Qed.

Lemma lookup_snoc_pair {A} (l : list A) (x : A) i a b :
  (l ++ [x]) !! i = Some a -> (l ++ [x]) !! S i = Some b ->
  (l !! i = Some a /\ l !! S i = Some b)
  \/ (l !! i = Some a /\ S i = length l /\ b = x).
Proof.
  intros Ha Hb.
  assert (Hi : (S i < length (l ++ [x]))%nat) by (apply lookup_lt_Some in Hb; exact Hb).
  rewrite length_app in Hi. simpl in Hi.
  rewrite lookup_app_l in Ha by lia.
  destruct (decide (S i < length l)%nat).
  - left. rewrite lookup_app_l in Hb by lia. auto.
  - right. assert (S i = length l) by lia. split; [exact Ha|]. split; [assumption|].
    rewrite lookup_app_r in Hb by lia.
    replace (S i - length l)%nat with 0%nat in Hb by lia. simpl in Hb. congruence.
Qed.

Lemma silence_inv_step probs symbol_idx state_symbol k st :
  state_symbol <> "" ->
  Forall (fun row => row <> []) probs ->
  (1 <= k < length probs)%nat ->
  silence_inv probs symbol_idx state_symbol k st ->
  exists st', silence_step probs symbol_idx state_symbol st k = Ok st'
              /\ silence_inv probs symbol_idx state_symbol (S k) st'.
Proof.
  intros Hsym Hrows Hk (Hst & Hopen & Hall & Hsort & Hcov).
  destruct (lookup_lt_is_Some_2 probs k) as [row Hrow]; [lia|].
  assert (Hne : row <> []).
  { rewrite Forall_forall in Hrows. apply Hrows. eapply list_elem_of_lookup_2. exact Hrow. }
  destruct (frame_class_argmax probs k row Hrow Hne) as (c & Hc & Hfc).
  unfold silence_step, getitem. rewrite Hrow. py_step. rewrite Hc. py_step.
  eexists. split; [reflexivity|].
  assert (Hweak : Forall (fun ab : nat * nat =>
               (ab.1 <= ab.2)%nat /\ (ab.2 + 1 < S k)%nat
               /\ is_symbol probs symbol_idx ab.1
               /\ forall j, (ab.1 <= j <= ab.2)%nat -> keeps_symbol probs symbol_idx j)
            (spaces st)).
  { eapply Forall_impl; [exact Hall|]. intros ab (H1 & H2 & H3 & H4). repeat split; auto; lia. }
  destruct Hst as [Hs|Hs].
  - (* inside a run of the symbol *)
    destruct (Hopen Hs) as (Hlt & Hfirst & Hrun & Hbefore).
    rewrite (bool_decide_eq_true_2 _ Hs). cbn [andb].
    destruct (Z.eqb_spec (Z.of_nat c) 0) as [H0|H0];
      destruct (Z.eqb_spec (Z.of_nat c) symbol_idx) as [Hsi|Hsi]; cbn [negb andb].
    1,2,3:
      (rewrite Hs; rewrite (bool_decide_eq_false_2 _ Hsym);
       unfold silence_inv; split; [left; exact Hs|];
       split;
       [intros _; split; [lia|]; split; [exact Hfirst|]; split; [|exact Hbefore];
        intros j Hj; destruct (decide (j = k)) as [->|Hjk];
        [exists c; split; [exact Hfc|]; lia | apply Hrun; lia]|];
       split; [exact Hweak|]; split; [exact Hsort|];
       intros j Hj Hsj; destruct (decide (j = k)) as [->|Hjk];
       [right; split; [exact Hs|lia] | apply Hcov; [lia|exact Hsj]]).
    (* the run ends at [k - 1] *)
    cbn [state spaces idx_state]. rewrite bool_decide_eq_true_2 by reflexivity.
    unfold silence_inv. cbn [state spaces idx_state].
    split; [right; reflexivity|].
    split; [intros E; congruence|].
    split.
    { apply Forall_app. split; [exact Hweak|]. constructor; [|constructor].
      cbn [fst snd]. split; [lia|]. split; [lia|]. split; [exact Hfirst|].
      intros j Hj. apply Hrun. lia. }
    split.
    { intros i ab ab' Ha Hb.
      destruct (lookup_snoc_pair _ _ _ _ _ Ha Hb) as [[Ha' Hb']|(Ha' & _ & ->)].
      - eapply Hsort; eassumption.
      - cbn [fst]. rewrite Forall_forall in Hbefore. apply Hbefore.
        eapply list_elem_of_lookup_2. exact Ha'. }
    intros j Hj Hsj. left.
    destruct (decide (j = k)) as [->|Hjk].
    { destruct Hsj as (c' & Hc' & Hcs). rewrite Hfc in Hc'. injection Hc' as <-. congruence. }
    destruct (Hcov j ltac:(lia) Hsj) as [(ab & Hin & Hab)|[_ Hge]].
    + exists ab. split; [apply elem_of_app; left; exact Hin | exact Hab].
    + exists (idx_state st, (k - 1)%nat). split; [|cbn [fst snd]; lia].
      apply elem_of_app. right. apply list_elem_of_singleton. reflexivity.
  - (* outside a run *)
    assert (Hns : state st <> state_symbol) by congruence.
    rewrite (bool_decide_eq_false_2 _ Hns). cbn [andb].
    rewrite (bool_decide_eq_true_2 _ Hs).
    destruct (Z.eqb_spec (Z.of_nat c) symbol_idx) as [Hsi|Hsi].
    + unfold silence_inv. cbn [state spaces idx_state].
      split; [left; reflexivity|].
      split.
      { intros _. split; [lia|]. split; [exists c; auto|]. split.
        - intros j Hj. assert (j = k) as -> by lia. exists c. auto.
        - eapply Forall_impl; [exact Hall|]. intros ab (_ & H2 & _). exact H2. }
      split; [exact Hweak|]. split; [exact Hsort|].
      intros j Hj Hsj. destruct (decide (j = k)) as [->|Hjk]; [right; split; [reflexivity|lia]|].
      destruct (Hcov j ltac:(lia) Hsj) as [H|[E _]]; [left; exact H | congruence].
    + unfold silence_inv.
      split; [right; exact Hs|].
      split; [intros E; congruence|].
      split; [exact Hweak|]. split; [exact Hsort|].
      intros j Hj Hsj. destruct (decide (j = k)) as [->|Hjk].
      { destruct Hsj as (c' & Hc' & Hcs). rewrite Hfc in Hc'. injection Hc' as <-. congruence. }
      destruct (Hcov j ltac:(lia) Hsj) as [H|[E _]]; [left; exact H | congruence].
Qed.

(** X23: for a non-empty array of non-empty rows and a non-empty state
    symbol, [_get_silence_timestamps] returns intervals [[a, b]] of frame
    indices with [a <= b < len(probs)] that are increasing and separated
    by at least one frame; the frame [a] holds the symbol, every frame of
    an interval holds the symbol or the index 0, and every frame that holds
    the symbol lies in one of the intervals. *)
Theorem silence_timestamps_are_symbol_runs
    (probs : list (list float)) (symbol_idx : Z) (state_symbol : string) :
  probs <> [] -> Forall (fun row => row <> []) probs -> state_symbol <> "" ->
  exists spaces,
    _get_silence_timestamps probs symbol_idx state_symbol = Ok spaces
    /\ Forall (fun ab : nat * nat =>
                 (ab.1 <= ab.2 < length probs)%nat
                 /\ is_symbol probs symbol_idx ab.1
                 /\ forall j, (ab.1 <= j <= ab.2)%nat -> keeps_symbol probs symbol_idx j)
              spaces
    /\ (forall i ab ab', spaces !! i = Some ab -> spaces !! S i = Some ab' ->
                         (ab.2 + 1 < ab'.1)%nat)
    /\ forall j, is_symbol probs symbol_idx j ->
                 exists ab, ab ∈ spaces /\ (ab.1 <= j <= ab.2)%nat.
Proof.
  intros Hne Hrows Hsym. unfold _get_silence_timestamps.
  destruct probs as [|row0 rest] eqn:Hp; [congruence|]. rewrite <- Hp in *.
  assert (Hlen : (1 <= length probs)%nat) by (rewrite Hp; simpl; lia).
  assert (H0 : probs !! 0%nat = Some row0) by (rewrite Hp; reflexivity).
  assert (Hr0 : row0 <> []).
  { rewrite Forall_forall in Hrows. apply Hrows. eapply list_elem_of_lookup_2. exact H0. }
  destruct (frame_class_argmax probs 0 row0 H0 Hr0) as (c0 & Hc0 & Hfc0).
  unfold getitem. rewrite H0. py_step. rewrite Hc0. py_step.
  set (state0 := if Z.of_nat c0 =? symbol_idx then state_symbol else "").
  destruct (for_each_range_ok (silence_step probs symbol_idx state_symbol)
              (silence_inv probs symbol_idx state_symbol) 1 (length probs - 1)
              (mk_silence [] 0 state0)) as (st & Hrun & HI).
  { unfold silence_inv. cbn [state spaces idx_state]. subst state0.
    destruct (Z.eqb_spec (Z.of_nat c0) symbol_idx) as [Hs|Hs].
    - split; [left; reflexivity|]. split.
      { intros _. split; [lia|]. split; [exists c0; auto|]. split; [|constructor].
        intros j Hj. assert (j = 0%nat) as -> by lia. exists c0. auto. }
      split; [constructor|]. split; [intros i ab ab' Ha; discriminate|].
      intros j Hj _. right. split; [reflexivity|lia].
    - split; [right; reflexivity|]. split; [intros E; congruence|].
      split; [constructor|]. split; [intros i ab ab' Ha; discriminate|].
      intros j Hj Hsj. assert (j = 0%nat) as -> by lia.
      destruct Hsj as (c' & Hc' & Hcs). rewrite Hfc0 in Hc'. injection Hc' as <-. congruence. }
  { intros k s Hk HIk. apply silence_inv_step; [exact Hsym|exact Hrows|lia|exact HIk]. }
  rewrite Hrun. py_step.
  replace (1 + (length probs - 1))%nat with (length probs) in HI by lia.
  destruct HI as (Hst & Hopen & Hall & Hsort & Hcov).
  assert (Hcls : forall j, is_symbol probs symbol_idx j -> (j < length probs)%nat).
  { intros j (c & Hc & _). unfold frame_class in Hc.
    destruct (probs !! j) eqn:Hj; [|discriminate]. apply lookup_lt_Some in Hj. exact Hj. }
  assert (Hall' : Forall (fun ab : nat * nat =>
                 (ab.1 <= ab.2 < length probs)%nat
                 /\ is_symbol probs symbol_idx ab.1
                 /\ forall j, (ab.1 <= j <= ab.2)%nat -> keeps_symbol probs symbol_idx j)
              (spaces st)).
  { eapply Forall_impl; [exact Hall|]. intros ab (H1 & H2 & H3 & H4). repeat split; auto; lia. }
  eexists. split; [reflexivity|].
  destruct Hst as [Hs|Hs].
  - rewrite (bool_decide_eq_true_2 _ Hs).
    destruct (Hopen Hs) as (Hlt & Hfirst & Hrunk & Hbefore).
    split.
    { apply Forall_app. split; [exact Hall'|]. constructor; [|constructor].
      cbn [fst snd]. split; [lia|]. split; [exact Hfirst|].
      intros j Hj. apply Hrunk. lia. }
    split.
    { intros i ab ab' Ha Hb.
      destruct (lookup_snoc_pair _ _ _ _ _ Ha Hb) as [[Ha' Hb']|(Ha' & _ & ->)].
      - eapply Hsort; eassumption.
      - cbn [fst]. rewrite Forall_forall in Hbefore. apply Hbefore.
        eapply list_elem_of_lookup_2. exact Ha'. }
    intros j Hsj. pose proof (Hcls j Hsj) as Hj.
    destruct (Hcov j Hj Hsj) as [(ab & Hin & Hab)|[_ Hge]].
    + exists ab. split; [apply elem_of_app; left; exact Hin | exact Hab].
    + exists (idx_state st, (length probs - 1)%nat). split; [|cbn [fst snd]; lia].
      apply elem_of_app. right. apply list_elem_of_singleton. reflexivity.
  - assert (Hns : state st <> state_symbol) by congruence.
    rewrite (bool_decide_eq_false_2 _ Hns).
    split; [exact Hall'|]. split; [exact Hsort|].
    intros j Hsj. destruct (Hcov j (Hcls j Hsj) Hsj) as [H|[E _]]; [exact H | congruence].
Qed.

Lemma silence_timestamps_are_symbol_runs_witness :
  exists spaces,
    _get_silence_timestamps
      [[0; 1; 0]; [0; 1; 0]; [0; 0; 1]; [0; 1; 0]; [1; 0; 0]; [0; 1; 0]]%float 1 "space"
    = Ok spaces
    /\ spaces = [(0, 1); (3, 5)]%nat.
Proof.
  destruct (silence_timestamps_are_symbol_runs
              [[0; 1; 0]; [0; 1; 0]; [0; 0; 1]; [0; 1; 0]; [1; 0; 0]; [0; 1; 0]]%float
              1 "space"
              ltac:(discriminate) ltac:(repeat constructor; discriminate)
              ltac:(discriminate)) as (spaces & Hrun & _).
  exists spaces. split; [exact Hrun|].
  vm_compute in Hrun. injection Hrun as <-. reflexivity.
Defined.

(** *** The session identifier *)

Lemma contains_app c (s1 s2 : string) :
  contains c (s1 +:+ s2) = contains c s1 || contains c s2.
Proof.
  induction s1 as [|a s1 IH]; [reflexivity|].
  simpl. destruct (Ascii.eqb a c); [reflexivity | exact IH].
Qed.

Lemma contains_head c (s : string) : contains c (String c s) = true.
Proof. simpl. rewrite Ascii.eqb_refl. reflexivity. Qed.

Lemma basename_dir (dir name : string) :
  contains "/" name = false -> basename (dir +:+ "/" +:+ name) = name.
Proof.
  intros Hn. induction dir as [|a dir IH].
  - change ("" +:+ "/" +:+ name) with (String "/" name).
    cbn [basename]. rewrite Hn. reflexivity.
  - change ((String a dir) +:+ "/" +:+ name) with (String a (dir +:+ "/" +:+ name)).
    cbn [basename]. rewrite IH, contains_app.
    change ("/" +:+ name) with (String "/" name). rewrite contains_head, orb_true_r.
    reflexivity.
Qed.

Lemma basename_no_dir (name : string) :
  contains "/" name = false -> basename name = name.
Proof.
  destruct name as [|a name]; [reflexivity|]. simpl.
  destruct (Ascii.eqb a "/"); [discriminate|]. intros ->. reflexivity.
Qed.

Lemma drop_extension_ext (stem ext : string) :
  contains "." ext = false -> drop_extension (stem +:+ "." +:+ ext) = stem.
Proof.
  intros He. induction stem as [|a stem IH].
  - change ("" +:+ "." +:+ ext) with (String "." ext).
    cbn [drop_extension]. rewrite He. reflexivity.
  - change ((String a stem) +:+ "." +:+ ext) with (String a (stem +:+ "." +:+ ext)).
    cbn [drop_extension]. rewrite IH, contains_app.
    change ("." +:+ ext) with (String "." ext). rewrite contains_head, orb_true_r.
    reflexivity.
Qed.

Lemma drop_extension_no_dot (name : string) :
  contains "." name = false -> drop_extension name = "".
Proof.
  destruct name as [|a name]; [reflexivity|]. simpl.
  destruct (Ascii.eqb a "."); [discriminate|]. intros ->. reflexivity.
Qed.

(** X11: the identifier of [dir/stem.ext] and of [stem.ext] is [stem],
    for a [stem] without a slash and an extension without a slash or a dot;
    dots in the directory part or in the stem do not matter. *)
Theorem uniq_id_is_stem (dir stem ext : string) :
  contains "/" stem = false -> contains "/" ext = false -> contains "." ext = false ->
  get_uniq_id_from_audio_path (dir +:+ "/" +:+ stem +:+ "." +:+ ext) = stem
  /\ get_uniq_id_from_audio_path (stem +:+ "." +:+ ext) = stem.
Proof.
  intros Hs He Hd. unfold get_uniq_id_from_audio_path.
  assert (Hn : contains "/" (stem +:+ "." +:+ ext) = false).
  { rewrite !contains_app, Hs, He. reflexivity. }
  rewrite (basename_dir dir _ Hn), (basename_no_dir _ Hn).
  split; apply drop_extension_ext, Hd.
Qed.

Lemma uniq_id_is_stem_witness :
  get_uniq_id_from_audio_path "/data/an4.v2/fcaw-an406.wav" = "fcaw-an406".
Proof.
  exact (proj1 (uniq_id_is_stem "/data/an4.v2" "fcaw-an406" "wav" eq_refl eq_refl eq_refl)).
Defined.

(** X12: a path whose file name has no dot has the empty identifier, so
    all such files share one identifier. *)
Theorem uniq_id_without_extension (path path' : string) :
  contains "." (basename path) = false ->
  contains "." (basename path') = false ->
  get_uniq_id_from_audio_path path = ""
  /\ get_uniq_id_from_audio_path path = get_uniq_id_from_audio_path path'.
Proof.
  intros H H'. unfold get_uniq_id_from_audio_path.
  rewrite !drop_extension_no_dot by assumption. split; reflexivity.
Qed.

Lemma uniq_id_without_extension_witness :
  get_uniq_id_from_audio_path "/data.v1/session_a"
  = get_uniq_id_from_audio_path "/data.v1/session_b".
Proof.
  exact (proj2 (uniq_id_without_extension "/data.v1/session_a" "/data.v1/session_b"
                  eq_refl eq_refl)).
Defined.

(** *** The merger keeps blocks of consecutive intervals *)

Lemma merge_right_blocks thr (l : list timestamp) :
  exists blocks : list (timestamp * list timestamp),
    merge_right thr l = block_span <$> blocks
    /\ l = concat (block_intervals <$> blocks).
Proof.
  induction l as [|[a1 a2] l (blocks & Hm & Hl)]; [exists []; split; reflexivity|].
  rewrite merge_right_cons, Hm. unfold merge_step.
  destruct blocks as [|[b0 bs] blocks].
  - exists [((a1, a2), [])]. simpl in Hl. subst l. split; reflexivity.
  - cbn [fmap list_fmap]. fold (fmap block_span blocks).
    destruct ((block_span (b0, bs)).1 - (a1, a2).2 <=? thr)%float.
    + exists (((a1, a2), b0 :: bs) :: blocks). split.
      * cbn [fmap list_fmap]. f_equal. unfold block_span. cbn [fst snd].
        f_equal. destruct bs as [|b bs']; [reflexivity|].
        rewrite !last_cons. destruct (last bs'); reflexivity.
      * rewrite Hl. reflexivity.
    + exists (((a1, a2), []) :: (b0, bs) :: blocks). split; [reflexivity|].
      rewrite Hl. reflexivity.
Qed.

(** X1: the merger returns, and every interval it returns spans a block of
    consecutive input intervals, from the start of the block's first
    interval to the end of its last one.  The blocks, taken in order, make
    up the input, so the result is never longer than the input. *)
Theorem merger_spans_blocks (self : ASR_DIAR_OFFLINE) (input_word_ts : list timestamp) :
  exists blocks : list (timestamp * list timestamp),
    _get_speech_labels_from_decoded_prediction self input_word_ts
    = Ok (block_span <$> blocks)
    /\ input_word_ts = concat (block_intervals <$> blocks)
    /\ (length blocks <= length input_word_ts)%nat.
Proof.
  destruct (merge_right_blocks (nonspeech_threshold self) input_word_ts)
    as (blocks & Hm & Hl).
  exists blocks. split; [rewrite get_speech_labels_merge_right, Hm; reflexivity|].
  split; [exact Hl|].
  rewrite Hl. clear. induction blocks as [|g blocks IH]; [simpl; lia|].
  cbn [fmap list_fmap concat]. rewrite length_app. unfold block_intervals at 1.
  cbn [length] in *. fold (fmap block_intervals blocks). lia.
Qed.

(** *** The overlap test is symmetric *)

(** X10: the overlap test is symmetric in its two arrays (of the same
    number of rows). *)
Theorem isOverlapArray_symmetric (rangeA rangeB : list timestamp) :
  length rangeA = length rangeB ->
  isOverlapArray rangeA rangeB = isOverlapArray rangeB rangeA.
Proof.
  intros _. unfold isOverlapArray. revert rangeB.
  induction rangeA as [|a rangeA IH]; intros [|b rangeB]; try reflexivity.
  cbn [zip_with]. rewrite IH, andb_comm. reflexivity.
Qed.

Lemma isOverlapArray_symmetric_witness :
  isOverlapArray [(1.5, 2.5)%float] [(1, 2)%float]
  = isOverlapArray [(1, 2)%float] [(1.5, 2.5)%float].
Proof.
  exact (isOverlapArray_symmetric [(1.5, 2.5)%float] [(1, 2)%float] eq_refl).
Defined.

(** *** The speaker count *)

(** X13: the speaker count is at most the number of labels, at least one
    for a non-empty label list, and the same for two label lists with the
    same set of speakers: order and repetition do not matter. *)
Theorem num_of_spk_counts_distinct (labels labels' : list label) :
  (get_num_of_spk_from_labels labels <= length labels)%nat
  /\ (labels <> [] -> (1 <= get_num_of_spk_from_labels labels)%nat)
  /\ ((forall s, s ∈ speaker <$> labels <-> s ∈ speaker <$> labels') ->
      get_num_of_spk_from_labels labels = get_num_of_spk_from_labels labels').
Proof.
  unfold get_num_of_spk_from_labels. split; [|split].
  - rewrite <- (length_fmap speaker labels).
    generalize (speaker <$> labels). intros l.
    induction l as [|x l IH]; [reflexivity|].
    cbn [remove_dups length]. destruct (decide_rel elem_of x l); cbn [length]; lia.
  - intros Hne. destruct labels as [|lab labels0]; [congruence|].
    assert (Hin : speaker lab ∈ remove_dups (speaker <$> lab :: labels0)).
    { apply elem_of_remove_dups. left. }
    destruct (remove_dups (speaker <$> lab :: labels0)); [inversion Hin | simpl; lia].
  - intros Hsame. apply Permutation_length, NoDup_Permutation.
    + apply NoDup_remove_dups.
    + apply NoDup_remove_dups.
    + intros s. rewrite !elem_of_remove_dups. apply Hsame.
Qed.

(** *** A difference of two numbers is a number *)

Lemma shr_1_nonneg mrs : 0 <= shr_m mrs -> 0 <= shr_m (shr_1 mrs).
Proof.
  destruct mrs as [m r s]. destruct m as [|p|p]; cbn [shr_m]; intros H; try lia.
  - simpl. lia.
  - destruct p; simpl; lia.
Qed.

Lemma iter_pos_keeps {A : Type} (P : A -> Prop) (f : A -> A) :
  (forall x, P x -> P (f x)) ->
  forall p x, P x -> P (SpecFloat.iter_pos f p x).
Proof.
  intros Hf. induction p as [p IH|p IH|]; intros x Hx; simpl; auto.
Qed.

Lemma shr_nonneg mrs e n : 0 <= shr_m mrs -> 0 <= shr_m (shr mrs e n).1.
Proof.
  intros H. unfold shr. destruct n as [|p|p]; cbn [fst]; try exact H.
  apply (iter_pos_keeps (fun mrs => 0 <= shr_m mrs)); [apply shr_1_nonneg | exact H].
Qed.

Lemma shr_fexp_nonneg m e l : 0 <= m -> 0 <= shr_m (shr_fexp prec emax m e l).1.
Proof.
  intros H. unfold shr_fexp. apply shr_nonneg.
  destruct l as [|[]]; exact H.
Qed.

Lemma round_nearest_even_nonneg m l : 0 <= m -> 0 <= round_nearest_even m l.
Proof.
  intros H. unfold round_nearest_even. destruct l as [|[]]; try lia.
  destruct (Z.even m); lia.
Qed.

Lemma binary_round_aux_not_nan s m e l :
  0 <= m -> binary_round_aux prec emax s m e l <> S754_nan.
Proof.
  intros H. unfold binary_round_aux.
  pose proof (shr_fexp_nonneg m e l H) as H1.
  destruct (shr_fexp prec emax m e l) as [mrs' e'] eqn:E1. cbn [fst] in H1.
  pose proof (shr_fexp_nonneg _ e' loc_Exact
                (round_nearest_even_nonneg _ (loc_of_shr_record mrs') H1)) as H2.
  destruct (shr_fexp prec emax (round_nearest_even _ _) e' loc_Exact) as [mrs'' e''] eqn:E2.
  cbn [fst] in H2.
  destruct (shr_m mrs'') as [|p|p]; [discriminate| |lia].
  destruct (e'' <=? emax - prec); discriminate.
Qed.

Lemma binary_normalize_not_nan m e sz : binary_normalize prec emax m e sz <> S754_nan.
Proof.
  unfold binary_normalize. destruct m as [|p|p]; [discriminate| |];
    unfold binary_round; destruct (shl_align _ _ _) as [mz ez];
    apply binary_round_aux_not_nan; lia.
Qed.

Lemma SFsub_nan x y :
  SFsub prec emax x y = S754_nan ->
  x = S754_nan \/ y = S754_nan
  \/ exists s, x = S754_infinity s /\ y = S754_infinity s.
Proof.
  destruct x as [sx|sx| |sx mx ex], y as [sy|sy| |sy my ey]; cbn [SFsub]; auto;
    try discriminate.
  - destruct sx, sy; discriminate.
  - destruct sx, sy; try discriminate; intros _; right; right; eauto.
  - intros H. apply binary_normalize_not_nan in H. destruct H.
Qed.

Lemma ltb_true_sides x y :
  (x <? y)%float = true ->
  Prim2SF x <> S754_nan /\ Prim2SF y <> S754_nan
  /\ Prim2SF x <> S754_infinity false /\ Prim2SF y <> S754_infinity true.
Proof.
  rewrite ltb_spec. unfold SFltb.
  destruct (Prim2SF x) as [sx|sx| |sx mx ex], (Prim2SF y) as [sy|sy| |sy my ey];
    cbn [SFcompare]; try discriminate;
    repeat match goal with s : bool |- _ => destruct s end;
    try discriminate; intros _; repeat split; discriminate.
Qed.

Lemma minimum_one a b : Np.minimum a b = a \/ Np.minimum a b = b.
Proof. unfold Np.minimum. destruct (_ || _); auto. Qed.

Lemma maximum_one a b : Np.maximum a b = a \/ Np.maximum a b = b.
Proof. unfold Np.maximum. destruct (_ || _); auto. Qed.

Lemma overlap_not_nan (sa ea sb eb : float) :
  (sb <? ea)%float && (sa <? eb)%float = true ->
  is_nan (Np.minimum ea eb - Np.maximum sa sb)%float = false.
Proof.
  intros [H1 H2]%andb_prop.
  apply ltb_true_sides in H1, H2.
  destruct H1 as (Hsb & Hea & Hsb' & Hea'), H2 as (Hsa & Heb & Hsa' & Heb').
  rewrite is_nan_spec, sub_spec.
  destruct (SF64sub _ _) eqn:E; try reflexivity.
  apply SFsub_nan in E.
  destruct (minimum_one ea eb) as [Hm | Hm], (maximum_one sa sb) as [HM | HM];
    rewrite Hm, HM in E;
    destruct E as [E | [E | ([] & E1 & E2)]]; congruence.
Qed.

Lemma overlap_length_not_nan (w : wdict) (r : label) :
  overlaps w r = true -> is_nan (overlap_length w r) = false.
Proof.
  unfold overlaps, overlap_length. rewrite andb_comm. apply overlap_not_nan.
Qed.

(** X9: a row that passes the overlap test has an overlap length that is
    a number: there the difference [right - left] is never NaN. *)
Theorem overlapping_rows_have_a_length (rangeA rangeB : list timestamp) (i : nat) :
  length rangeA = length rangeB ->
  isOverlapArray rangeA rangeB !! i = Some true ->
  exists x, getOverlapRangeArray rangeA rangeB !! i = Some x /\ is_nan x = false.
Proof.
  unfold isOverlapArray, getOverlapRangeArray. intros _ Hi.
  apply lookup_zip_with_Some in Hi. destruct Hi as (a & b & Ha & Hb & Hov).
  eexists. split.
  - apply lookup_zip_with_Some. exists a, b. split; [reflexivity|]. split; assumption.
  - cbn zeta. apply overlap_not_nan. symmetry. exact Ha.
Qed.

Lemma overlapping_rows_have_a_length_witness :
  exists x, getOverlapRangeArray [(1.5, 2.5)%float] (Np.tile (1, 2)%float 1) !! 0%nat = Some x
            /\ is_nan x = false.
Proof.
  exact (overlapping_rows_have_a_length [(1.5, 2.5)%float] (Np.tile (1, 2)%float 1) 0
           eq_refl eq_refl).
Defined.

Lemma eqb_of_not_ltb x y :
  is_nan x = false -> is_nan y = false ->
  (x <? y)%float = false -> (y <? x)%float = false -> (x =? y)%float = true.
Proof.
  intros Hx Hy Hxy Hyx.
  pose proof (not_ltb_ge x y Hxy Hx Hy) as H1.
  pose proof (not_ltb_ge y x Hyx Hy Hx) as H2.
  rewrite FloatAxioms.eqb_spec. unfold SFeqb. unfold sf_ge in *.
  rewrite (SFcompare_antisym (Prim2SF x) (Prim2SF y)) in H2.
  destruct (SFcompare (Prim2SF x) (Prim2SF y)) as [[]|]; simpl in *;
    destruct H1, H2; congruence.
Qed.

(** *** Strict and lenient matching *)

Lemma strict_word_is_lenient mapping_dict labels w :
  word_correct false mapping_dict labels w = true ->
  word_correct true mapping_dict labels w = true.
Proof.
  unfold word_correct.
  destruct (mapping_dict !! speaker_label w) as [est|]; [|discriminate].
  destruct (List.filter (overlaps w) labels) as [|r0 rest] eqn:Hf; [discriminate|].
  assert (Hn : Forall (fun x => is_nan x = false)
                      (overlap_length w r0 :: (overlap_length w <$> rest))).
  { change (overlap_length w r0 :: (overlap_length w <$> rest))
      with (overlap_length w <$> r0 :: rest).
    apply Forall_fmap, Forall_forall. intros r Hr.
    apply overlap_length_not_nan.
    rewrite <- Hf in Hr. apply list_elem_of_In, filter_In in Hr. apply Hr. }
  destruct (foldl_maximum_is_max _ _ Hn) as [Hin Hmax].
  destruct (argmax_from_is_first_max _ _ Hn) as (v & Hv & Hvmax & _).
  set (best := Np.argmax_from (overlap_length w r0) 0 1 (overlap_length w <$> rest)) in *.
  set (mx := foldl Np.maximum (overlap_length w r0) (overlap_length w <$> rest)) in *.
  assert (Hvin : v ∈ overlap_length w r0 :: (overlap_length w <$> rest))
    by (eapply list_elem_of_lookup_2; exact Hv).
  assert (Heq : (v =? mx)%float = true).
  { rewrite Forall_forall in Hn. apply eqb_of_not_ltb; auto. }
  change (overlap_length w r0 :: (overlap_length w <$> rest))
    with (overlap_length w <$> r0 :: rest) in Hv.
  rewrite list_lookup_fmap in Hv.
  destruct ((r0 :: rest) !! best) as [r|] eqn:Hr; [|discriminate].
  injection Hv as Hv. rewrite (nth_lookup_Some _ _ r0 r Hr).
  rewrite !bool_decide_eq_true. intros ->.
  apply list_elem_of_fmap. exists r. split; [reflexivity|].
  apply list_elem_of_In, filter_In. split.
  - apply list_elem_of_In. eapply list_elem_of_lookup_2. exact Hr.
  - rewrite Hv. exact Heq.
Qed.

Lemma length_filter_le {A} (P Q : A -> bool) (xs : list A) :
  (forall x, P x = true -> Q x = true) ->
  (length (List.filter P xs) <= length (List.filter Q xs) <= length xs)%nat.
Proof.
  intros HPQ. induction xs as [|x xs IH]; [simpl; lia|].
  cbn [List.filter]. specialize (HPQ x).
  destruct (P x), (Q x); cbn [length]; try lia; discriminate (HPQ eq_refl).
Qed.

(** X2: on a session with reference labels both scoring loops return, and
    a word that strict matching counts is counted by lenient matching too:
    the strict count of correct words is at most the lenient count, which
    is at most the number of words.  No overlap length of an overlapping
    interval is NaN, so this holds for all time stamps. *)
Theorem strict_count_below_lenient
    (mapping_dict : gmap string string) (labels : list label) (words_list : list wdict) :
  labels <> [] ->
  exists strict lenient,
    for_each (score_word false mapping_dict labels
                ((fun x => (start_point x, end_point x)) <$> labels)) words_list 0
    = Ok strict
    /\ for_each (score_word true mapping_dict labels
                   ((fun x => (start_point x, end_point x)) <$> labels)) words_list 0
       = Ok lenient
    /\ 0 <= strict <= lenient
    /\ lenient <= Z.of_nat (length words_list).
Proof.
  intros Hlab. eexists _, _.
  split; [apply score_loop_spec, Hlab|].
  split; [apply score_loop_spec, Hlab|].
  unfold correct_words.
  pose proof (length_filter_le (word_correct false mapping_dict labels)
                (word_correct true mapping_dict labels) words_list
                (strict_word_is_lenient mapping_dict labels)).
  lia.
Qed.

Lemma strict_count_below_lenient_witness :
  exists strict lenient,
    for_each (score_word false tie_mapping tie_labels
                ((fun x => (start_point x, end_point x)) <$> tie_labels)) [tie_word] 0
    = Ok strict
    /\ for_each (score_word true tie_mapping tie_labels
                   ((fun x => (start_point x, end_point x)) <$> tie_labels)) [tie_word] 0
       = Ok lenient
    /\ strict < lenient.
Proof.
  destruct (strict_count_below_lenient tie_mapping tie_labels [tie_word]
              ltac:(discriminate)) as (strict & lenient & Hs & Hl & _).
  exists strict, lenient. split; [exact Hs|]. split; [exact Hl|].
  vm_compute in Hs, Hl. injection Hs as <-. injection Hl as <-. reflexivity.
Defined.

(** *** Missing entries in the scorer *)

Lemma score_utterance_missing self (total_riva_dict : gmap string riva_dict)
    (DER_result_dict : gmap string der_result) (ref_labels_list : list (list label))
    st k path labels :
  ref_labels_list !! k = Some labels ->
  (DER_result_dict !! get_uniq_id_from_audio_path path = None
   \/ exists der, DER_result_dict !! get_uniq_id_from_audio_path path = Some der
                  /\ (mapping der = None
                      \/ total_riva_dict !! get_uniq_id_from_audio_path path = None)) ->
  score_utterance self total_riva_dict DER_result_dict ref_labels_list st (k, path)
  = Raise KeyError.
Proof.
  intros Hl H. unfold score_utterance, getitem, getkey. rewrite Hl. py_step.
  destruct H as [Hd | (der & Hd & H)]; rewrite Hd; py_step; [reflexivity|].
  destruct (mapping der) as [m|]; py_step.
  - destruct H as [H|H]; [discriminate|]. rewrite H. reflexivity.
  - reflexivity.
Qed.

Lemma get_WDER_raises_at self audio_file_list (total_riva_dict : gmap string riva_dict)
    (DER_result_dict : gmap string der_result) (ref_labels_list : list (list label))
    k path e :
  audio_file_list !! k = Some path ->
  forallb (session_ok self total_riva_dict DER_result_dict ref_labels_list)
          (take k (enumerate audio_file_list)) = true ->
  (forall st, score_utterance self total_riva_dict DER_result_dict ref_labels_list st
                (k, path) = Raise e) ->
  get_WDER self audio_file_list total_riva_dict DER_result_dict ref_labels_list = Raise e.
Proof.
  intros Hp Hpre Hk. unfold get_WDER.
  rewrite <- (take_drop_middle (enumerate audio_file_list) k (k, path))
    by (apply enumerate_lookup, Hp).
  rewrite for_each_app.
  destruct (score_prefix_ok self total_riva_dict DER_result_dict ref_labels_list _
              {| wder_dict := ∅; grand_total_word_count := 0;
                 grand_correct_word_count := 0 |} Hpre) as [st Hst].
  rewrite Hst. cbn [bind for_each]. rewrite Hk. reflexivity.
Qed.

(** X3: when the loop of [get_WDER] reaches a session with reference
    labels whose identifier has no entry in [DER_result_dict], whose entry
    has no mapping, or that has no entry in [total_riva_dict], [get_WDER]
    raises [KeyError]. *)
Theorem wder_missing_entry_raises
    (self : ASR_DIAR_OFFLINE) (audio_file_list : list string)
    (total_riva_dict : gmap string riva_dict)
    (DER_result_dict : gmap string der_result) (ref_labels_list : list (list label))
    (k : nat) (path : string) (labels : list label) :
  audio_file_list !! k = Some path ->
  forallb (session_ok self total_riva_dict DER_result_dict ref_labels_list)
          (take k (enumerate audio_file_list)) = true ->
  ref_labels_list !! k = Some labels ->
  (DER_result_dict !! get_uniq_id_from_audio_path path = None
   \/ exists der, DER_result_dict !! get_uniq_id_from_audio_path path = Some der
                  /\ (mapping der = None
                      \/ total_riva_dict !! get_uniq_id_from_audio_path path = None)) ->
  get_WDER self audio_file_list total_riva_dict DER_result_dict ref_labels_list
  = Raise KeyError.
Proof.
  intros Hp Hpre Hl H.
  apply (get_WDER_raises_at self audio_file_list _ _ _ k path KeyError Hp Hpre).
  intros st. apply (score_utterance_missing _ _ _ _ st k path labels Hl H).
Qed.

Lemma wder_missing_entry_raises_witness :
  get_WDER (__init__ params_plain) ["a.wav"; "c.wav"] two_riva two_der
           [[mk_label 0 10 "B"]; [mk_label 0 10 "B"]]
  = Raise KeyError.
Proof.
  apply (wder_missing_entry_raises (__init__ params_plain) ["a.wav"; "c.wav"] two_riva
           two_der [[mk_label 0 10 "B"]; [mk_label 0 10 "B"]] 1 "c.wav"
           [mk_label 0 10 "B"] eq_refl eq_refl eq_refl).
  left. reflexivity.
Defined.

(** *** The assembler raises nothing but [IndexError] *)

Section AssemblerErrors.

Variable strftime : string -> float -> string.
Variables (diar_labels : list (list label)) (word_list : list (list string))
          (word_ts_list : list (list timestamp)).

Lemma align_prefix_ok (l : list (nat * string)) out :
  Forall (fun ka => utterance_alignable diar_labels word_list word_ts_list ka.1 = true) l ->
  exists out',
    for_each (align_utterance strftime diar_labels word_list word_ts_list) l out = Ok out'.
Proof.
  intros Hl. revert out. induction Hl as [|[k path] l Hk Hl IH]; intros out.
  - eexists. reflexivity.
  - cbn [fst] in Hk. unfold utterance_alignable in Hk.
    destruct (diar_labels !! k) as [[|first labels]|] eqn:Hd; try discriminate.
    destruct (word_list !! k) as [ws|] eqn:Hw; try discriminate.
    destruct (word_ts_list !! k) as [ts|] eqn:Ht; try discriminate.
    apply Nat.leb_le in Hk. cbn [for_each].
    rewrite (align_utterance_spec strftime diar_labels word_list word_ts_list out k path
               (first :: labels) first ws ts Hd eq_refl Hw Ht Hk).
    cbn [bind]. apply IH.
Qed.

Lemma align_word_no_word labels (words : list string) uniq_id st j w :
  labels <> [] -> (length words <= j)%nat ->
  align_word strftime labels words uniq_id st (j, w) = Raise IndexError.
Proof.
  intros Hlab Hj. unfold align_word, getitem.
  rewrite (lookup_ge_None_2 words j Hj).
  destruct (_ <? _)%float; py_step; [reflexivity|].
  destruct (lookup_lt_is_Some_2 labels (Nat.min (idx st + 1) (length labels - 1)))
    as [lab Hl].
  { destruct labels; [congruence|]. simpl. lia. }
  rewrite Hl. py_step. reflexivity.
Qed.

Lemma align_loop_too_many labels (ws : list string) uniq_id (ts : list timestamp) st :
  labels <> [] -> (length ws < length ts)%nat ->
  for_each (align_word strftime labels ws uniq_id) (enumerate ts) st = Raise IndexError.
Proof.
  intros Hlab Hlen.
  rewrite <- (take_drop (length ws) ts). unfold enumerate. rewrite imap_app.
  rewrite for_each_app.
  assert (Hspec := align_loop_spec strftime labels ws uniq_id (take (length ws) ts) 0 st
                     Hlab ltac:(rewrite length_take; simpl; lia)).
  cbn [Nat.add] in Hspec. rewrite Hspec. cbn [bind]. clear Hspec.
  destruct (drop (length ws) ts) as [|x rest] eqn:Hd.
  { apply (f_equal length) in Hd. rewrite length_drop in Hd. simpl in Hd. lia. }
  cbn [imap for_each]. rewrite align_word_no_word; [reflexivity|exact Hlab|].
  rewrite length_take. lia.
Qed.

Lemma align_utterance_fails out k path :
  utterance_alignable diar_labels word_list word_ts_list k = false ->
  align_utterance strftime diar_labels word_list word_ts_list out (k, path)
  = Raise IndexError.
Proof.
  unfold utterance_alignable, align_utterance, getitem.
  destruct (diar_labels !! k) as [labels|]; py_step; [|reflexivity].
  destruct (word_list !! k) as [ws|]; py_step; [|destruct labels; reflexivity].
  destruct labels as [|first labels]; [reflexivity|].
  cbn [lookup list_lookup]. py_step.
  destruct (word_ts_list !! k) as [ts|]; py_step; [|reflexivity].
  intros Hlen. apply Nat.leb_gt in Hlen.
  rewrite align_loop_too_many; [reflexivity|discriminate|exact Hlen].
Qed.

Lemma forallb_seq_first_false (P : nat -> bool) (n : nat) :
  forallb P (seq 0 n) = false ->
  exists k, (k < n)%nat /\ P k = false /\ forall j, (j < k)%nat -> P j = true.
Proof.
  induction n as [|n IH]; [discriminate|].
  rewrite seq_S, forallb_app. cbn [forallb Nat.add].
  destruct (forallb P (seq 0 n)) eqn:Hpre.
  - rewrite andb_true_r. cbn [andb]. intros Hn. exists n. split; [lia|]. split; [exact Hn|].
    intros j Hj. rewrite forallb_forall in Hpre. apply Hpre, in_seq. lia.
  - intros _. destruct (IH eq_refl) as (k & Hk & Hf & Hb). exists k. split; [lia|]. auto.
Qed.

Lemma align_all_fails audio_file_list out0 :
  alignable audio_file_list diar_labels word_list word_ts_list = false ->
  for_each (align_utterance strftime diar_labels word_list word_ts_list)
           (enumerate audio_file_list) out0 = Raise IndexError.
Proof.
  unfold alignable. intros Hf.
  destruct (forallb_seq_first_false _ _ Hf) as (k & Hk & Hbad & Hgood).
  destruct (lookup_lt_is_Some_2 audio_file_list k Hk) as [path Hp].
  rewrite <- (take_drop_middle (enumerate audio_file_list) k (k, path))
    by (apply enumerate_lookup, Hp).
  rewrite for_each_app.
  destruct (align_prefix_ok (take k (enumerate audio_file_list)) out0) as [out Hout].
  { apply Forall_forall. intros [j p] Hin. cbn [fst]. apply Hgood.
    apply list_elem_of_lookup in Hin. destruct Hin as [i Hi].
    pose proof (lookup_lt_Some _ _ _ Hi) as Hlt. rewrite length_take in Hlt.
    rewrite lookup_take_lt in Hi by lia.
    unfold enumerate in Hi. rewrite list_lookup_imap in Hi.
    destruct (audio_file_list !! i); [|discriminate]. injection Hi as <- <-. lia. }
  rewrite Hout. cbn [bind for_each]. rewrite (align_utterance_fails out k path Hbad).
  reflexivity.
Qed.

End AssemblerErrors.

(** X5: without the silence extension the assembler returns exactly on
    the inputs where every session has a non-empty label list, a word list
    and a time-stamp list that is not longer than the word list; on every
    other input it raises [IndexError]. *)
Theorem assembler_raises_only_IndexError
    (strftime : string -> float -> string) (self : ASR_DIAR_OFFLINE)
    (audio_file_list : list string) (diar_labels : list (list label))
    (word_list : list (list string)) (word_ts_list : list (list timestamp)) :
  fix_word_ts_with_SAD (self_params self) = false ->
  (alignable audio_file_list diar_labels word_list word_ts_list = true
   /\ exists out,
        write_json_and_transcript strftime self audio_file_list diar_labels word_list
                                  word_ts_list = Ok out)
  \/ (alignable audio_file_list diar_labels word_list word_ts_list = false
      /\ write_json_and_transcript strftime self audio_file_list diar_labels word_list
                                   word_ts_list = Raise IndexError).
Proof.
  intros Hfix. unfold write_json_and_transcript. rewrite Hfix. py_step.
  destruct (alignable audio_file_list diar_labels word_list word_ts_list) eqn:Hal.
  - left. split; [reflexivity|].
    destruct (align_all_ok strftime _ _ _ _ Hal) as (out & Hout & _). eauto.
  - right. split; [reflexivity|]. apply align_all_fails. exact Hal.
Qed.

Lemma assembler_raises_only_IndexError_witness :
  write_json_and_transcript sample_strftime (__init__ params_plain) ["a.wav"]
    [[]] [sample_words] [sample_word_ts] = Raise IndexError.
Proof.
  destruct (assembler_raises_only_IndexError sample_strftime (__init__ params_plain)
              ["a.wav"] [[]] [sample_words] [sample_word_ts] eq_refl)
    as [[Hal _] | [_ Hrun]]; [discriminate Hal | exact Hrun].
Defined.

(** *** Sessions without words *)

Section Wordless.

Variable strftime : string -> float -> string.

Lemma json_keys_inv_step audio_file_list
    (word_ts_list : list (list timestamp)) i path labels first ws ts out :
  audio_file_list !! i = Some path -> word_ts_list !! i = Some ts ->
  json_keys_inv audio_file_list word_ts_list i out ->
  json_keys_inv audio_file_list word_ts_list (S i)
    (aligned_out strftime out (get_uniq_id_from_audio_path path) labels first ws ts).
Proof.
  intros Hp Ht HI u. unfold aligned_out. cbn [json_result].
  destruct ts as [|t ts].
  - rewrite (HI u). split.
    + intros H k path' ts' Hk Hp' Hu Ht'. destruct (decide (k = i)) as [->|Hne].
      * congruence.
      * apply (H k path' ts'); [lia|assumption..].
    + intros H k path' ts' Hk. apply H. lia.
  - destruct (decide (get_uniq_id_from_audio_path path = u)) as [Hu|Hu].
    + rewrite Hu, lookup_insert_eq. split; [discriminate|].
      intros H. discriminate (H i path (t :: ts) ltac:(lia) Hp Hu Ht).
    + rewrite lookup_insert_ne by exact Hu. rewrite (HI u). split.
      * intros H k path' ts' Hk Hp' Hu' Ht'. destruct (decide (k = i)) as [->|Hne].
        -- congruence.
        -- apply (H k path' ts'); [lia|assumption..].
      * intros H k path' ts' Hk. apply H. lia.
Qed.

Lemma align_all_keys audio_file_list diar_labels word_list
    (word_ts_list : list (list timestamp)) :
  alignable audio_file_list diar_labels word_list word_ts_list = true ->
  exists out,
    for_each (align_utterance strftime diar_labels word_list word_ts_list)
             (enumerate audio_file_list)
             {| json_result := ∅; transcript_with_speaker_labels := ∅ |} = Ok out
    /\ json_keys_inv audio_file_list word_ts_list (length audio_file_list) out.
Proof.
  intros Hok.
  apply (for_each_enumerate_ok _ (json_keys_inv audio_file_list word_ts_list)).
  - intros u. cbn [json_result]. rewrite lookup_empty. split; [|reflexivity].
    intros _ k path ts Hk. lia.
  - intros i path out Hp HI.
    destruct (alignable_lookup _ _ _ _ i path Hok Hp)
      as (labels & first & ws & ts & Hl & Hf & Hw & Ht & Hlen).
    exists (aligned_out strftime out (get_uniq_id_from_audio_path path) labels first ws ts).
    split; [apply align_utterance_spec; assumption|].
    apply json_keys_inv_step; assumption.
Qed.

End Wordless.

(** X4: the dictionary that the assembler returns has no entry for a
    session identifier exactly when none of the sessions of that identifier
    has a time stamp left (with the silence extension a session of one word
    has none left).  When [get_WDER] is given this dictionary and reaches
    such a session it raises [KeyError]. *)
Theorem wordless_session_has_no_entry
    (strftime : string -> float -> string) (self : ASR_DIAR_OFFLINE)
    (audio_file_list : list string) (diar_labels : list (list label))
    (word_list : list (list string)) (word_ts_list word_ts_eff : list (list timestamp)) :
  (if fix_word_ts_with_SAD (self_params self)
   then get_enhanced_word_ts_list self audio_file_list word_ts_list (self_params self)
   else Ok word_ts_list) = Ok word_ts_eff ->
  alignable audio_file_list diar_labels word_list word_ts_eff = true ->
  exists out,
    write_json_and_transcript strftime self audio_file_list diar_labels word_list
                              word_ts_list = Ok out
    /\ (forall u, json_result out !! u = None
                  <-> forall k path ts, audio_file_list !! k = Some path ->
                        get_uniq_id_from_audio_path path = u ->
                        word_ts_eff !! k = Some ts -> ts = [])
    /\ forall DER_result_dict ref_labels_list k path labels,
         audio_file_list !! k = Some path ->
         json_result out !! get_uniq_id_from_audio_path path = None ->
         forallb (session_ok self (json_result out) DER_result_dict ref_labels_list)
                 (take k (enumerate audio_file_list)) = true ->
         ref_labels_list !! k = Some labels ->
         get_WDER self audio_file_list (json_result out) DER_result_dict ref_labels_list
         = Raise KeyError.
Proof.
  intros Heff Hok. unfold write_json_and_transcript. rewrite Heff. py_step.
  destruct (align_all_keys strftime _ _ _ _ Hok) as (out & Hrun & HI).
  exists out. split; [exact Hrun|]. split.
  - intros u. rewrite (HI u). split.
    + intros H k path ts Hp Hu Ht.
      apply (H k path ts); [apply lookup_lt_Some in Hp; exact Hp | assumption..].
    + intros H k path ts _. apply H.
  - intros DER_result_dict ref_labels_list k path labels Hp Hnone Hpre Hl.
    apply (get_WDER_raises_at self audio_file_list _ _ _ k path KeyError Hp Hpre).
    intros st. apply (score_utterance_missing _ _ _ _ st k path labels Hl).
    destruct (DER_result_dict !! get_uniq_id_from_audio_path path) as [der|];
      [right; exists der; auto | left; reflexivity].
Qed.

Lemma wordless_session_has_no_entry_witness :
  exists out,
    write_json_and_transcript sample_strftime silent_self ["u.wav"] long_labels
      [["hello"]] [[(0, 2)%float]] = Ok out
    /\ json_result out !! "u" = None
    /\ get_WDER silent_self ["u.wav"] (json_result out)
                {[ "u" := mk_der 0 0 0 0 (Some ∅) ]} [[mk_label 0 4 "A"]]
       = Raise KeyError.
Proof.
  destruct (wordless_session_has_no_entry sample_strftime silent_self ["u.wav"] long_labels
              [["hello"]] [[(0, 2)%float]] [[]] eq_refl eq_refl)
    as (out & Hrun & Hkeys & Hwder).
  exists out. split; [exact Hrun|].
  assert (Hnone : json_result out !! "u" = None).
  { apply Hkeys. intros [|k] path ts Hp _ Ht; [|discriminate].
    cbn in Ht. injection Ht as <-. reflexivity. }
  split; [exact Hnone|].
  apply (Hwder {[ "u" := mk_der 0 0 0 0 (Some ∅) ]} [[mk_label 0 4 "A"]] 0%nat "u.wav"
           [mk_label 0 4 "A"] eq_refl Hnone eq_refl eq_refl).
Defined.

(** *** The speaker pointer *)

Lemma assign_speakers_lag labels idx cur (ts : list timestamp) j a :
  labels !! idx = Some cur ->
  assign_speakers labels idx cur ts !! j = Some a ->
  exists i, (idx <= i <= idx + j + 1)%nat /\ labels !! i = Some a.1.
Proof.
  revert idx cur j. induction ts as [|w ts IH]; intros idx cur j Hcur; [discriminate|].
  cbn [assign_speakers].
  destruct (midpoint w <? end_point cur)%float.
  - destruct j as [|j]; cbn [lookup list_lookup].
    + intros [= <-]. exists idx. split; [lia | exact Hcur].
    + intros Ha. destruct (IH idx cur j Hcur Ha) as (i & Hi & Hl).
      exists i. split; [lia | exact Hl].
  - set (idx' := Nat.min (idx + 1) (length labels - 1)).
    destruct (lookup_lt_is_Some_2 labels idx') as [next Hn].
    { apply lookup_lt_Some in Hcur. subst idx'. lia. }
    rewrite Hn. cbn [default].
    assert (Hge : (idx <= idx')%nat).
    { apply lookup_lt_Some in Hcur. subst idx'. lia. }
    assert (Hle : (idx' <= idx + 1)%nat) by (subst idx'; lia).
    destruct j as [|j]; cbn [lookup list_lookup].
    + intros [= <-]. exists idx'. split; [lia | exact Hn].
    + intros Ha. destruct (IH idx' next j Hn Ha) as (i & Hi & Hl).
      exists i. split; [lia | exact Hl].
Qed.

Lemma aligned_words_lookup (ws : list string) (ts : list timestamp) asg j wd :
  aligned_words ws ts asg !! j = Some wd ->
  exists a, asg !! j = Some a /\ speaker_label wd = speaker a.1.
Proof.
  revert ws asg j. induction ts as [|t ts IH]; intros ws asg j; [discriminate|].
  destruct ws as [|w ws]; [discriminate|]. destruct asg as [|a asg]; [discriminate|].
  cbn [aligned_words]. destruct j as [|j]; cbn [lookup list_lookup].
  - intros [= <-]. exists a. split; reflexivity.
  - apply IH.
Qed.

(** X6: on inputs that raise nothing a session with time stamps gets one
    word record per time stamp, and the word of index [j] carries the
    speaker of an interval of index at most [j + 1]: the pointer advances
    by at most one interval per word. *)
Theorem speaker_pointer_lags
    (strftime : string -> float -> string) (self : ASR_DIAR_OFFLINE)
    (audio_file_list : list string) (diar_labels : list (list label))
    (word_list : list (list string)) (word_ts_list word_ts_eff : list (list timestamp)) :
  (if fix_word_ts_with_SAD (self_params self)
   then get_enhanced_word_ts_list self audio_file_list word_ts_list (self_params self)
   else Ok word_ts_list) = Ok word_ts_eff ->
  alignable audio_file_list diar_labels word_list word_ts_eff = true ->
  exists out,
    write_json_and_transcript strftime self audio_file_list diar_labels word_list
                              word_ts_list = Ok out
    /\ forall k path labels ts,
         audio_file_list !! k = Some path ->
         diar_labels !! k = Some labels -> word_ts_eff !! k = Some ts -> ts <> [] ->
         (forall k' path', (k < k')%nat -> audio_file_list !! k' = Some path' ->
            get_uniq_id_from_audio_path path' <> get_uniq_id_from_audio_path path) ->
         exists r,
           json_result out !! get_uniq_id_from_audio_path path = Some r
           /\ length (words r) = length ts
           /\ forall j wd, words r !! j = Some wd ->
                exists i lab, (i <= j + 1)%nat /\ labels !! i = Some lab
                              /\ speaker_label wd = speaker lab.
Proof.
  intros Heff Hok.
  destruct (write_json_ok strftime self _ _ _ _ _ Heff Hok) as (out & Hrun & HI).
  exists out. split; [exact Hrun|].
  intros k path labels ts Hp Hl Ht Hne Hdup.
  destruct (alignable_lookup _ _ _ _ k path Hok Hp)
    as (labels' & first & ws & ts' & Hl' & Hf & Hw & Ht' & Hlen).
  assert (labels' = labels) as -> by congruence.
  assert (ts' = ts) as -> by congruence.
  destruct (HI k path labels first ws ts) as [_ Hjson]; try assumption.
  { apply lookup_lt_Some in Hp. exact Hp. }
  { intros k' path' [Hk' _]. apply Hdup. exact Hk'. }
  eexists. split; [apply Hjson, Hne|].
  cbn [aligned_session words]. split.
  - pose proof (word_aligned_words ws ts (assign_speakers labels 0 first ts)
                  (length_assign_speakers labels 0 first ts) Hlen) as Hwd.
    apply (f_equal length) in Hwd. rewrite length_fmap, length_take in Hwd. lia.
  - intros j wd Hwd.
    destruct (aligned_words_lookup _ _ _ _ _ Hwd) as (a & Ha & Hs).
    destruct (assign_speakers_lag labels 0 first ts j a Hf Ha) as (i & Hi & Hli).
    exists i, a.1. split; [lia|]. split; [exact Hli | exact Hs].
Qed.

Lemma speaker_pointer_lags_witness :
  exists out,
    write_json_and_transcript sample_strftime (__init__ params_plain) ["a.wav"]
      [[mk_label 0 1 "A"; mk_label 1 2 "B"; mk_label 2 3 "C"]] [["late"]]
      [[(2.5, 2.9)%float]] = Ok out
    /\ (fun r => speaker_label <$> words r) <$> json_result out !! "a" = Some ["B"].
Proof.
  destruct (speaker_pointer_lags sample_strftime (__init__ params_plain) ["a.wav"]
              [[mk_label 0 1 "A"; mk_label 1 2 "B"; mk_label 2 3 "C"]] [["late"]]
              [[(2.5, 2.9)%float]] [[(2.5, 2.9)%float]] eq_refl eq_refl)
    as (out & Hrun & _).
  exists out. split; [exact Hrun|].
  vm_compute in Hrun. injection Hrun as <-. reflexivity.
Defined.

(** *** Silence extension without a voice-activity trace *)

Lemma enumerate_app {A} (l1 l2 : list A) :
  enumerate (l1 ++ l2) = enumerate l1 ++ imap (fun i x => ((length l1 + i)%nat, x)) l2.
Proof. unfold enumerate. rewrite imap_app. reflexivity. Qed.

(** X7: when the silence extension reaches a session of two words or more
    whose identifier has no voice-activity trace in [frame_VAD], as is the
    case for every identifier after [__init__], it raises [KeyError]. *)
Theorem enhanced_without_trace_raises
    (self : ASR_DIAR_OFFLINE) (audio_file_list : list string)
    (word_ts_list : list (list timestamp)) (p : params)
    (k : nat) (path : string) (w next : timestamp) (rest : list timestamp) (z : Z) :
  audio_file_list !! k = Some path ->
  word_ts_list !! k = Some (w :: next :: rest) ->
  enhanceable self audio_file_list (take k word_ts_list) = true ->
  int_of_float (100 * w.2)%float = Ok z ->
  frame_VAD self !! get_uniq_id_from_audio_path path = None ->
  get_enhanced_word_ts_list self audio_file_list word_ts_list p = Raise KeyError.
Proof.
  intros Hp Hk Hpre Hz Hvad. unfold get_enhanced_word_ts_list.
  rewrite <- (take_drop_middle word_ts_list k _ Hk), enumerate_app, for_each_app.
  destruct (get_enhanced_ok self p _ _ Hpre) as (out & Hout & _).
  unfold get_enhanced_word_ts_list in Hout. rewrite Hout. cbn [bind imap for_each].
  rewrite length_take, Nat.add_0_r.
  assert (Hmin : (k `min` length word_ts_list)%nat = k).
  { apply lookup_lt_Some in Hk. lia. }
  rewrite Hmin. unfold enhance_utterance at 1. unfold getitem. rewrite Hp. py_step.
  cbn [enumerate imap for_each length]. unfold enhance_word at 1.
  cbn [Nat.ltb Nat.leb Nat.sub]. rewrite Hz. py_step.
  unfold getkey. rewrite Hvad. reflexivity.
Qed.

Lemma enhanced_without_trace_raises_witness :
  get_enhanced_word_ts_list (__init__ params_cap1) ["u.wav"] long_word_ts params_cap1
  = Raise KeyError.
Proof.
  exact (enhanced_without_trace_raises (__init__ params_cap1) ["u.wav"] long_word_ts
           params_cap1 0 "u.wav" (0, 2)%float (3, 3.5)%float [] 200
           eq_refl eq_refl eq_refl eq_refl eq_refl).
Defined.

(** *** The closest silent frame *)

Lemma silence_scan_first fuel c (vad_frames : list float) thr c' :
  0 <= c ->
  silence_scan fuel c vad_frames thr = Ok c' ->
  c <= c'
  /\ forall i, c <= i < c' ->
       exists x, vad_frames !! Z.to_nat i = Some x /\ (x <? thr)%float = false.
Proof.
  revert c. induction fuel as [|fuel IH]; intros c Hc; cbn [silence_scan].
  - intros [= <-]. split; [lia|]. intros i Hi. lia.
  - destruct (c <? Z.of_nat (length vad_frames)) eqn:Hlt.
    2:{ intros [= <-]. split; [lia|]. intros i Hi. lia. }
    apply Z.ltb_lt in Hlt. unfold getitem_int, getitem.
    assert (H1 : ((0 <=? c) && (c <? Z.of_nat (length vad_frames))) = true).
    { apply andb_true_intro. split; [apply Z.leb_le | apply Z.ltb_lt]; lia. }
    rewrite H1.
    destruct (lookup_lt_is_Some_2 vad_frames (Z.to_nat c)) as [x Hx]; [lia|].
    rewrite Hx. py_step. destruct (x <? thr)%float eqn:Hthr.
    + intros [= <-]. split; [lia|]. intros i Hi. lia.
    + intros Hrun. destruct (IH (c + 1) ltac:(lia) Hrun) as [Hle Hall].
      split; [lia|]. intros i Hi. destruct (decide (i = c)) as [->|Hne].
      * exists x. auto.
      * apply Hall. lia.
Qed.

(** X8: for a start index [vad_index_word_end + offset] that is not
    negative, [closest_silence_start] returns
    [round(min(len(vad_frames) - 1, c) / 100, 2)], where [c] is the first
    index from the start index on whose frame is below the threshold, and
    an index at or past the end of the trace when there is no such frame:
    every frame from the start index up to [c] is not below the threshold. *)
Theorem closest_silence_is_first_silent_frame
    (vad_index_word_end : Z) (vad_frames : list float) (p : params) (offset : Z) :
  0 <= vad_index_word_end + offset ->
  exists c,
    closest_silence_start vad_index_word_end vad_frames p offset
    = Ok (round2 (float_of_int (Z.min (Z.of_nat (length vad_frames) - 1) c) / 100)%float)
    /\ vad_index_word_end + offset <= c
    /\ (forall i, vad_index_word_end + offset <= i < c ->
          exists x, vad_frames !! Z.to_nat i = Some x
                    /\ (x <? SAD_threshold_for_word_ts p)%float = false)
    /\ (Z.of_nat (length vad_frames) <= c
        \/ exists x, vad_frames !! Z.to_nat c = Some x
                     /\ (x <? SAD_threshold_for_word_ts p)%float = true).
Proof.
  intros H0. unfold closest_silence_start.
  destruct (silence_scan_ok
              (Z.to_nat (Z.of_nat (length vad_frames) - (vad_index_word_end + offset)))
              (vad_index_word_end + offset) vad_frames (SAD_threshold_for_word_ts p)
              ltac:(lia)) as (c & Hc & _).
  rewrite Hc. py_step. exists c. split; [reflexivity|].
  destruct (silence_scan_first _ _ _ _ _ H0 Hc) as [Hle Hall].
  split; [exact Hle|]. split; [exact Hall|].
  destruct (silence_scan_stops _ _ _ _ Hc) as [Hend | (x & Hx & Hthr)]; [left; exact Hend|].
  destruct (Z.ltb_spec c (Z.of_nat (length vad_frames))) as [Hlt|Hge]; [|left; exact Hge].
  right. exists x. split; [|exact Hthr].
  unfold getitem_int, getitem in Hx.
  assert (H1 : ((0 <=? c) && (c <? Z.of_nat (length vad_frames))) = true).
  { apply andb_true_intro. split; [apply Z.leb_le | apply Z.ltb_lt]; lia. }
  rewrite H1 in Hx. destruct (vad_frames !! Z.to_nat c); [congruence | discriminate].
Qed.

Lemma closest_silence_is_first_silent_frame_witness :
  exists c,
    closest_silence_start 0 sample_trace params_plain 10
    = Ok (round2 (float_of_int (Z.min (Z.of_nat (length sample_trace) - 1) c) / 100)%float)
    /\ 10 <= c.
Proof.
  destruct (closest_silence_is_first_silent_frame 0 sample_trace params_plain 10
              ltac:(lia)) as (c & Hrun & Hle & _).
  exists c. split; [exact Hrun | exact Hle].
Defined.

(** ** The assignment of speakers and the effective WDER: claims C1 and C6 *)

(** *** The speaker of a word and the interval at its midpoint *)

Lemma leb_ge x y : (x <=? y)%float = true -> sf_ge (Prim2SF y) (Prim2SF x).
Proof.
  rewrite leb_spec. unfold SFleb, sf_ge.
  rewrite (SFcompare_antisym (Prim2SF x) (Prim2SF y)).
  destruct (SFcompare (Prim2SF x) (Prim2SF y)) as [[]|]; simpl; intros; auto; discriminate.
Qed.

(** A time from the start of an interval on is not before the end of an
    interval that ended before that start. *)
Lemma not_before_end x y z :
  (x <=? y)%float = true -> (y <=? z)%float = true -> (z <? x)%float = false.
Proof.
  intros H1 H2.
  pose proof (sf_ge_trans _ _ _ (leb_ge _ _ H2) (leb_ge _ _ H1)) as H.
  rewrite ltb_spec. unfold SFltb. destruct H as [-> | ->]; reflexivity.
Qed.

(** When the words keep up with the pointer, the interval assigned to a
    word is the one active at its midpoint. *)
Lemma assign_speakers_active labels :
  in_order labels ->
  forall word_ts acts idx cur,
    labels !! idx = Some cur -> keeps_up labels idx word_ts acts ->
    forall j a w,
      assign_speakers labels idx cur word_ts !! j = Some a -> word_ts !! j = Some w ->
      a.1 ∈ labels /\ active_at a.1 (midpoint w).
Proof.
  intros Hord. induction word_ts as [|w0 word_ts IH]; intros acts idx cur Hcur Hk j a w;
    [discriminate|].
  destruct acts as [|i acts]; [contradiction|].
  cbn [keeps_up] in Hk. destruct Hk as (Hi & (lab & Hlab & Hact) & Hk).
  cbn [assign_speakers].
  destruct Hi as [-> | ->].
  - assert (lab = cur) as -> by congruence.
    destruct Hact as [Hs He]. rewrite He.
    destruct j as [|j]; cbn [lookup list_lookup].
    + intros [= <-] [= <-]. cbn [fst].
      split; [eapply list_elem_of_lookup_2, Hcur | split; assumption].
    + apply (IH acts idx cur Hcur Hk).
  - destruct Hact as [Hs He].
    rewrite (not_before_end _ _ _ (Hord idx cur lab Hcur Hlab) Hs).
    assert (Hidx : Nat.min (idx + 1) (length labels - 1) = S idx).
    { apply lookup_lt_Some in Hlab. lia. }
    rewrite Hidx, Hlab. cbn [default].
    destruct j as [|j]; cbn [lookup list_lookup].
    + intros [= <-] [= <-]. cbn [fst].
      split; [eapply list_elem_of_lookup_2, Hlab | split; assumption].
    + apply (IH acts (S idx) lab Hlab Hk).
Qed.

(** C1, as stated: with the intervals [0, 1], [1, 2] and [2, 3] of three
    speakers, the word [2.4, 2.6] has its midpoint in the third interval,
    and the assembler gives it the speaker of the second: the pointer
    moves one interval per word. *)
Lemma late_word_gets_next_speaker :
  exists out r,
    write_json_and_transcript sample_strftime (__init__ params_plain) ["a.wav"]
      [skip_labels] [["late"]] [late_word_ts] = Ok out
    /\ json_result out !! "a" = Some r
    /\ speaker_label <$> words r = ["speaker_1"]
    /\ active_at (mk_label 2 3 "speaker_2") (midpoint (2.4, 2.6)%float)
    /\ ~ active_at (mk_label 1 2 "speaker_1") (midpoint (2.4, 2.6)%float).
Proof.
  eexists. eexists. split; [vm_compute; reflexivity|].
  split; [vm_compute; reflexivity|].
  split; [vm_compute; reflexivity|].
  split; [split; vm_compute; reflexivity|].
  intros [_ H]. vm_compute in H. discriminate.
Qed.

(** C1, amended: on inputs that raise nothing the assembler returns, and
    the outputs of every session are those of the assignment rule
    [assign_speakers]: the pointer starts at interval 0; a word whose
    midpoint [(start + end) / 2] is below the end of the current interval
    gets the current speaker; otherwise the pointer advances by one,
    saturating at the last interval, the word gets the speaker of that
    interval, and a speaker-turn marker is printed before the word.  The
    start of an interval is not tested and the pointer moves one interval
    per word, so the speaker is the one of the interval active at the
    midpoint when the intervals are in order and the words keep up with the
    pointer. *)
Theorem words_assigned_by_pointer
    (strftime : string -> float -> string) (self : ASR_DIAR_OFFLINE)
    (audio_file_list : list string) (diar_labels : list (list label))
    (word_list : list (list string)) (word_ts_list word_ts_eff : list (list timestamp)) :
  (if fix_word_ts_with_SAD (self_params self)
   then get_enhanced_word_ts_list self audio_file_list word_ts_list (self_params self)
   else Ok word_ts_list) = Ok word_ts_eff ->
  alignable audio_file_list diar_labels word_list word_ts_eff = true ->
  (forall labels idx cur w rest,
      assign_speakers labels idx cur (w :: rest)
      = if ((w.1 + w.2) / 2 <? end_point cur)%float
        then (cur, false) :: assign_speakers labels idx cur rest
        else (default cur (labels !! Nat.min (idx + 1) (length labels - 1)), true)
             :: assign_speakers labels (Nat.min (idx + 1) (length labels - 1))
                  (default cur (labels !! Nat.min (idx + 1) (length labels - 1))) rest)
  /\ exists out,
      write_json_and_transcript strftime self audio_file_list diar_labels word_list
                                word_ts_list = Ok out
      /\ forall k path labels first ws ts,
           audio_file_list !! k = Some path ->
           diar_labels !! k = Some labels -> labels !! 0%nat = Some first ->
           word_list !! k = Some ws -> word_ts_eff !! k = Some ts ->
           (forall k' path', (k < k')%nat -> audio_file_list !! k' = Some path' ->
              get_uniq_id_from_audio_path path' <> get_uniq_id_from_audio_path path) ->
           transcript_with_speaker_labels out !! get_uniq_id_from_audio_path path
           = Some (strip (render strftime
                            (print_time strftime "" (speaker first)
                                        (start_point first) (end_point first))
                            ws (assign_speakers labels 0 first ts)))
           /\ (ts <> [] ->
               exists r,
                 json_result out !! get_uniq_id_from_audio_path path = Some r
                 /\ words r = aligned_words ws ts (assign_speakers labels 0 first ts)
                 /\ (in_order labels -> (exists acts, keeps_up labels 0 ts acts) ->
                     forall j wd w,
                       words r !! j = Some wd -> ts !! j = Some w ->
                       exists lab, lab ∈ labels /\ active_at lab (midpoint w)
                                   /\ speaker_label wd = speaker lab)).
Proof.
  intros Heff Hok. split; [reflexivity|].
  destruct (write_json_ok strftime self _ _ _ _ _ Heff Hok) as (out & Hrun & HI).
  exists out. split; [exact Hrun|].
  intros k path labels first ws ts Hp Hl Hf Hw Ht Hdup.
  destruct (HI k path labels first ws ts) as [Htxt Hjson]; try assumption.
  { apply lookup_lt_Some in Hp. exact Hp. }
  { intros k' path' [Hk' _]. apply Hdup. exact Hk'. }
  split; [exact Htxt|].
  intros Hne. eexists. split; [apply Hjson; exact Hne|].
  split; [reflexivity|].
  intros Hord [acts Hk] j wd w Hwd Hts. cbn [words aligned_session] in Hwd.
  destruct (aligned_words_lookup _ _ _ _ _ Hwd) as (a & Ha & Hspk).
  destruct (assign_speakers_active labels Hord ts acts 0%nat first Hf Hk j a w Ha Hts)
    as [Hin Hact].
  exists a.1. split; [exact Hin|]. split; [exact Hact | exact Hspk].
Qed.

Lemma words_assigned_by_pointer_witness :
  exists out r,
    write_json_and_transcript sample_strftime (__init__ params_plain) ["a.wav"]
      [sample_labels] [kept_words] [kept_word_ts] = Ok out
    /\ json_result out !! "a" = Some r
    /\ speaker_label <$> words r = ["speaker_0"; "speaker_1"]
    /\ forall j wd w,
         words r !! j = Some wd -> kept_word_ts !! j = Some w ->
         exists lab, lab ∈ sample_labels /\ active_at lab (midpoint w)
                     /\ speaker_label wd = speaker lab.
Proof.
  destruct (words_assigned_by_pointer sample_strftime (__init__ params_plain) ["a.wav"]
              [sample_labels] [kept_words] [kept_word_ts] [kept_word_ts]
              eq_refl eq_refl) as (_ & out & Hrun & Hout).
  destruct (Hout 0%nat "a.wav" sample_labels (mk_label 0 1 "speaker_0")
              kept_words kept_word_ts eq_refl eq_refl eq_refl eq_refl eq_refl)
    as (_ & Hjson).
  { intros [|k'] path' Hk' Hp'; [lia | discriminate]. }
  destruct Hjson as (r & Hr & Hw & Hact); [discriminate|].
  change (get_uniq_id_from_audio_path "a.wav") with "a" in Hr.
  exists out, r. split; [exact Hrun|]. split; [exact Hr|].
  split; [rewrite Hw; reflexivity|].
  apply Hact.
  - intros [|[|i]] a b Ha Hb; try discriminate.
    injection Ha as <-. injection Hb as <-. reflexivity.
  - exists [0%nat; 1%nat]. cbn [keeps_up kept_word_ts].
    split; [left; reflexivity|].
    split; [eexists; split; [reflexivity | split; reflexivity]|].
    split; [right; reflexivity|].
    split; [eexists; split; [reflexivity | split; reflexivity]|].
    exact I.
Defined.

(** *** Rounding of binary64: the shift, the mantissa and the exponent *)

Section Rounding.

Lemma fexp_eq z : fexp prec emax z = Z.max (z - 53) (-1074).
Proof. reflexivity. Qed.

Lemma digits2_pos_size p : digits2_pos p = Pos.size p.
Proof. induction p as [p IH|p IH|]; simpl; congruence. Qed.

Lemma Zdigits2_log2 z : 0 < z -> Zdigits2 z = Z.log2 z + 1.
Proof.
  destruct z as [|p|p]; try lia. intros _. cbn [Zdigits2].
  rewrite digits2_pos_size. destruct p; simpl; lia.
Qed.

Lemma Zdigits2_bounds z : 0 < z -> 2 ^ (Zdigits2 z - 1) <= z < 2 ^ Zdigits2 z.
Proof.
  intros H. rewrite (Zdigits2_log2 z H).
  replace (Z.log2 z + 1 - 1) with (Z.log2 z) by lia.
  pose proof (Z.log2_spec z H) as Hs. rewrite <- Z.add_1_r in Hs. exact Hs.
Qed.

Lemma Zdigits2_lt z : 0 <= z -> z < 2 ^ Zdigits2 z.
Proof.
  intros H. destruct (Z.eq_dec z 0) as [-> | Hz]; [reflexivity|].
  apply Zdigits2_bounds. lia.
Qed.

Lemma Zdigits2_unique z d : 0 < d -> 2 ^ (d - 1) <= z < 2 ^ d -> Zdigits2 z = d.
Proof.
  intros Hd Hz. assert (0 < z).
  { pose proof (Z.pow_pos_nonneg 2 (d - 1)). lia. }
  rewrite Zdigits2_log2 by assumption.
  rewrite (Z.log2_unique z (d - 1)); [lia | lia |].
  replace (Z.succ (d - 1)) with d by lia. exact Hz.
Qed.

(** A number below [2 ^ k] has at most [k] digits; one from [2 ^ k] on has
    more than [k]. *)
Lemma Zdigits2_le z k : 0 <= z < 2 ^ k -> 0 <= k -> Zdigits2 z <= k.
Proof.
  intros [H0 Hz] Hk. destruct (Z.eq_dec z 0) as [-> | Hne]; [exact Hk|].
  assert (Hpos : 0 < z) by lia.
  destruct (Zdigits2_bounds z Hpos) as [Hl _].
  destruct (Z_lt_le_dec k (Zdigits2 z)) as [Hlt|]; [|assumption].
  assert (2 ^ k <= 2 ^ (Zdigits2 z - 1)) by (apply Z.pow_le_mono_r; lia). lia.
Qed.

Lemma Zdigits2_gt z k : 2 ^ k <= z -> 0 <= k -> k < Zdigits2 z.
Proof.
  intros Hz Hk.
  assert (Hpos : 0 < z) by (pose proof (Z.pow_pos_nonneg 2 k); lia).
  destruct (Zdigits2_bounds z Hpos) as [_ Hu].
  destruct (Z_lt_le_dec k (Zdigits2 z)) as [|Hle]; [assumption|].
  assert (2 ^ Zdigits2 z <= 2 ^ k) by (apply Z.pow_le_mono_r; lia). lia.
Qed.

(** The mantissa after a shift to the right. *)
Lemma shr_1_m mrs : 0 <= shr_m mrs -> shr_m (shr_1 mrs) = shr_m mrs / 2.
Proof.
  destruct mrs as [m r s]. cbn [shr_m]. intros H.
  destruct m as [|p|p]; [reflexivity| |lia].
  destruct p as [p|p|]; cbn [shr_1 shr_m].
  - apply (Z.div_unique (Z.pos p~1) 2 (Z.pos p) 1); lia.
  - apply (Z.div_unique (Z.pos p~0) 2 (Z.pos p) 0); lia.
  - reflexivity.
Qed.

Lemma pow2_xI p : 2 ^ Z.pos p~1 = 2 * (2 ^ Z.pos p * 2 ^ Z.pos p).
Proof.
  rewrite (Pos2Z.inj_xI p).
  replace (2 * Z.pos p + 1) with (1 + (Z.pos p + Z.pos p)) by lia.
  rewrite !Z.pow_add_r by lia. reflexivity.
Qed.

Lemma pow2_xO p : 2 ^ Z.pos p~0 = 2 ^ Z.pos p * 2 ^ Z.pos p.
Proof.
  rewrite (Pos2Z.inj_xO p).
  replace (2 * Z.pos p) with (Z.pos p + Z.pos p) by lia.
  rewrite Z.pow_add_r by lia. reflexivity.
Qed.

Lemma iter_shr_1_m p : forall mrs,
  0 <= shr_m mrs -> shr_m (SpecFloat.iter_pos shr_1 p mrs) = shr_m mrs / 2 ^ Z.pos p.
Proof.
  assert (Hk : forall q mrs, 0 <= shr_m mrs ->
             0 <= shr_m (SpecFloat.iter_pos shr_1 q mrs)).
  { intros q mrs. apply (iter_pos_keeps (fun mrs => 0 <= shr_m mrs)).
    apply shr_1_nonneg. }
  induction p as [p IH|p IH|]; intros mrs H; cbn [SpecFloat.iter_pos].
  - assert (0 < 2 ^ Z.pos p) by (apply Z.pow_pos_nonneg; lia).
    rewrite IH by (apply Hk, shr_1_nonneg, H).
    rewrite IH by (apply shr_1_nonneg, H). rewrite shr_1_m by exact H.
    rewrite !Z.div_div by lia. rewrite pow2_xI. f_equal; lia.
  - assert (0 < 2 ^ Z.pos p) by (apply Z.pow_pos_nonneg; lia).
    rewrite IH by (apply Hk, H). rewrite IH by exact H.
    rewrite !Z.div_div by lia. rewrite pow2_xO. reflexivity.
  - rewrite shr_1_m by exact H. reflexivity.
Qed.

Lemma shr_spec mrs e n :
  0 <= shr_m mrs -> 0 <= n ->
  shr_m (shr mrs e n).1 = shr_m mrs / 2 ^ n /\ (shr mrs e n).2 = e + n.
Proof.
  intros H Hn. destruct n as [|p|p]; [| |lia]; cbn [shr fst snd].
  - rewrite Z.div_1_r. split; [reflexivity | lia].
  - split; [apply iter_shr_1_m, H | reflexivity].
Qed.

(** No bit is lost when the bits shifted out are zero. *)
Lemma shr_1_even m :
  0 <= m ->
  shr_1 {| shr_m := 2 * m; shr_r := false; shr_s := false |}
  = {| shr_m := m; shr_r := false; shr_s := false |}.
Proof. destruct m as [|p|p]; intros H; [reflexivity | reflexivity | lia]. Qed.

Lemma iter_shr_1_exact p : forall m,
  0 <= m ->
  SpecFloat.iter_pos shr_1 p {| shr_m := m * 2 ^ Z.pos p; shr_r := false; shr_s := false |}
  = {| shr_m := m; shr_r := false; shr_s := false |}.
Proof.
  induction p as [p IH|p IH|]; intros m H; cbn [SpecFloat.iter_pos].
  - replace (m * 2 ^ Z.pos p~1) with (2 * (m * 2 ^ Z.pos p * 2 ^ Z.pos p))
      by (rewrite pow2_xI; lia).
    assert (0 <= 2 ^ Z.pos p) by (apply Z.pow_nonneg; lia).
    rewrite shr_1_even by (repeat apply Z.mul_nonneg_nonneg; lia).
    rewrite IH by (apply Z.mul_nonneg_nonneg; lia). apply IH, H.
  - replace (m * 2 ^ Z.pos p~0) with (m * 2 ^ Z.pos p * 2 ^ Z.pos p)
      by (rewrite pow2_xO; lia).
    assert (0 <= 2 ^ Z.pos p) by (apply Z.pow_nonneg; lia).
    rewrite IH by (apply Z.mul_nonneg_nonneg; lia). apply IH, H.
  - replace (m * 2 ^ 1) with (2 * m) by lia. apply shr_1_even, H.
Qed.

Lemma shr_exact m e n :
  0 <= m -> 0 <= n ->
  shr {| shr_m := m * 2 ^ n; shr_r := false; shr_s := false |} e n
  = ({| shr_m := m; shr_r := false; shr_s := false |}, e + n).
Proof.
  intros H Hn. destruct n as [|p|p]; [| |lia]; cbn [shr].
  - rewrite Z.mul_1_r, Z.add_0_r. reflexivity.
  - rewrite iter_shr_1_exact by exact H. reflexivity.
Qed.

Lemma shr_record_of_loc_m m l : shr_m (shr_record_of_loc m l) = m.
Proof. destruct l as [|[]]; reflexivity. Qed.

Lemma round_nearest_even_cases m l :
  round_nearest_even m l = m \/ round_nearest_even m l = m + 1.
Proof.
  unfold round_nearest_even. destruct l as [|[]]; auto. destruct (Z.even m); auto.
Qed.

Lemma shr_nop mrs e n : n <= 0 -> shr mrs e n = (mrs, e).
Proof. destruct n as [|p|p]; intros H; [reflexivity | lia | reflexivity]. Qed.

(** The result of rounding a mantissa [Q] at the exponent [e] that is not
    above the exponent [E] of the format: the mantissa [r] rounded from
    [Q / 2 ^ (E - e)] is kept at the exponent [E], or it has reached
    [2 ^ 53] and the result is [2 ^ 52] at [E + 1]. *)
Lemma binary_round_aux_spec s Q e l :
  0 <= Q ->
  e <= fexp prec emax (Zdigits2 Q + e) ->
  fexp prec emax (Zdigits2 Q + e) < 971 ->
  exists r,
    (r = Q / 2 ^ (fexp prec emax (Zdigits2 Q + e) - e)
     \/ r = Q / 2 ^ (fexp prec emax (Zdigits2 Q + e) - e) + 1)
    /\ (l = loc_Exact -> Q mod 2 ^ (fexp prec emax (Zdigits2 Q + e) - e) = 0 ->
        r = Q / 2 ^ (fexp prec emax (Zdigits2 Q + e) - e))
    /\ 0 <= r <= 2 ^ 53
    /\ (-1074 <= Zdigits2 Q + e - 53 -> 2 ^ 52 <= r)
    /\ binary_round_aux prec emax s Q e l
       = (if r =? 0 then S754_zero s
          else if r <? 2 ^ 53
               then S754_finite s (Z.to_pos r) (fexp prec emax (Zdigits2 Q + e))
               else S754_finite s 4503599627370496 (fexp prec emax (Zdigits2 Q + e) + 1))
    /\ valid_binary (binary_round_aux prec emax s Q e l) = true.
Proof.
  intros HQ He Hmax.
  assert (HQ0 : Zdigits2 Q <= 0 -> Q = 0).
  { destruct Q as [|p|p]; cbn [Zdigits2]; lia. }
  pose proof (fexp_eq (Zdigits2 Q + e)) as HE1.
  set (E1 := fexp prec emax (Zdigits2 Q + e)) in *.
  set (n := E1 - e).
  assert (Hn : 0 <= n) by (unfold n; lia).
  assert (Hpn : 0 < 2 ^ n) by (apply Z.pow_pos_nonneg; lia).
  set (m1 := Q / 2 ^ n).
  assert (Hm1 : 0 <= m1) by (apply Z.div_pos; lia).
  assert (Hm1u : m1 < 2 ^ 53).
  { apply Z.div_lt_upper_bound; [lia|]. rewrite <- Z.pow_add_r by lia.
    eapply Z.lt_le_trans; [apply Zdigits2_lt, HQ|].
    apply Z.pow_le_mono_r; unfold n; lia. }
  assert (Hnorm : -1074 <= Zdigits2 Q + e - 53 -> 2 ^ 52 <= m1).
  { intros Hr. assert (Hneq : n = Zdigits2 Q - 53) by (unfold n; lia).
    assert (0 < Q) by (destruct (Z.eq_dec Q 0); [|lia]; subst Q; cbn [Zdigits2] in *; lia).
    apply Z.div_le_lower_bound; [lia|]. rewrite <- Z.pow_add_r by lia.
    replace (n + 52) with (Zdigits2 Q - 1) by lia.
    apply Zdigits2_bounds. assumption. }
  assert (Hsub : Zdigits2 Q + e - 53 < -1074 -> m1 < 2 ^ 52).
  { intros Hr. apply Z.div_lt_upper_bound; [lia|]. rewrite <- Z.pow_add_r by lia.
    eapply Z.lt_le_trans; [apply Zdigits2_lt, HQ|].
    apply Z.pow_le_mono_r; unfold n; lia. }
  destruct (shr_spec (shr_record_of_loc Q l) e n) as [Hm He'];
    [rewrite shr_record_of_loc_m; lia | lia |].
  rewrite shr_record_of_loc_m in Hm.
  destruct (shr (shr_record_of_loc Q l) e n) as [mrs' e'] eqn:Hshr.
  cbn [fst snd] in Hm, He'. fold m1 in Hm.
  assert (HeE : e' = E1) by (unfold n in He'; lia).
  set (r := round_nearest_even (shr_m mrs') (loc_of_shr_record mrs')).
  assert (Hr : r = m1 \/ r = m1 + 1).
  { unfold r. rewrite <- Hm. apply round_nearest_even_cases. }
  assert (Hex : l = loc_Exact -> Q mod 2 ^ n = 0 -> r = m1).
  { intros -> Hmod.
    assert (HQeq : m1 * 2 ^ n = Q).
    { unfold m1. rewrite Z.mul_comm. symmetry. apply Z.div_exact; lia. }
    pose proof (shr_exact m1 e n Hm1 Hn) as Hx. rewrite HQeq in Hx.
    cbn [shr_record_of_loc] in Hshr. rewrite Hx in Hshr.
    injection Hshr as <- _. reflexivity. }
  assert (Hcanon : 0 < r < 2 ^ 53 -> fexp prec emax (Zdigits2 r + E1) = E1).
  { intros Hr'. rewrite fexp_eq.
    destruct (Z_le_gt_dec (-1074) (Zdigits2 Q + e - 53)) as [Hreg|Hreg].
    - specialize (Hnorm Hreg).
      rewrite (Zdigits2_unique r 53); [lia | lia |].
      change (53 - 1) with 52. lia.
    - assert (Zdigits2 r <= 53) by (apply Zdigits2_le; lia). lia. }
  assert (Htop : 2 ^ 53 <= r -> r = 2 ^ 53 /\ -1074 <= Zdigits2 Q + e - 53).
  { intros Hr'. split; [lia|].
    destruct (Z_le_gt_dec (-1074) (Zdigits2 Q + e - 53)) as [Hreg|Hreg]; [assumption|].
    assert (m1 < 2 ^ 52) by (apply Hsub; lia).
    assert (2 ^ 52 < 2 ^ 53) by reflexivity. lia. }
  assert (Heq : binary_round_aux prec emax s Q e l
                = (if r =? 0 then S754_zero s
                   else if r <? 2 ^ 53 then S754_finite s (Z.to_pos r) E1
                        else S754_finite s 4503599627370496 (E1 + 1))).
  { unfold binary_round_aux, shr_fexp. fold E1. fold n. rewrite Hshr. fold r.
    rewrite HeE.
    destruct (Z.eqb_spec r 0) as [H0 | H0].
    - rewrite H0. cbn [Zdigits2 shr_record_of_loc].
      rewrite shr_nop by (rewrite fexp_eq; lia). reflexivity.
    - destruct (Z.ltb_spec r (2 ^ 53)) as [Hlt | Hge].
      + rewrite Hcanon by lia. rewrite Z.sub_diag. cbn [shr shr_record_of_loc shr_m].
        destruct r as [|p|p]; [lia | | lia].
        replace (E1 <=? emax - prec) with true
          by (symmetry; apply Z.leb_le; change (emax - prec) with 971; lia).
        reflexivity.
      + destruct (Htop Hge) as [-> Hreg].
        change (Zdigits2 (2 ^ 53)) with 54.
        replace (fexp prec emax (54 + E1) - E1) with 1 by (rewrite fexp_eq; lia).
        change (shr (shr_record_of_loc (2 ^ 53) loc_Exact) E1 1)
          with ({| shr_m := 2 ^ 52; shr_r := false; shr_s := false |}, E1 + 1).
        cbn [shr_m]. change (2 ^ 52) with (Z.pos 4503599627370496).
        replace (E1 + 1 <=? emax - prec) with true
          by (symmetry; apply Z.leb_le; change (emax - prec) with 971; lia).
        reflexivity. }
  exists r. split; [exact Hr|]. split; [exact Hex|]. split; [lia|].
  split; [intros Hreg; specialize (Hnorm Hreg); lia|].
  split; [exact Heq|].
  rewrite Heq.
  destruct (Z.eqb_spec r 0) as [H0 | H0]; [reflexivity|].
  destruct (Z.ltb_spec r (2 ^ 53)) as [Hlt | Hge]; cbn [SpecFloat.valid_binary];
    unfold bounded, canonical_mantissa.
  - assert (Hd : Z.pos (digits2_pos (Z.to_pos r)) = Zdigits2 r).
    { destruct r as [|p|p]; [lia | reflexivity | lia]. }
    rewrite Hd, Hcanon by lia. rewrite Z.eqb_refl. cbn [andb].
    apply Z.leb_le. change (emax - prec) with 971. lia.
  - change (Z.pos (digits2_pos 4503599627370496)) with 53.
    replace (fexp prec emax (53 + (E1 + 1))) with (E1 + 1) by (rewrite fexp_eq; lia).
    rewrite Z.eqb_refl. cbn [andb].
    apply Z.leb_le. change (emax - prec) with 971. lia.
Qed.

End Rounding.

(** *** Numbers that binary64 represents *)

Section ExactNormalize.

Lemma Zdigits2_mul_pow2 Q k :
  0 < Q -> 0 <= k -> Zdigits2 (Q * 2 ^ k) = Zdigits2 Q + k.
Proof.
  intros HQ Hk. destruct (Zdigits2_bounds Q HQ) as [Hl Hu].
  assert (0 < Zdigits2 Q).
  { destruct Q as [|p|p]; cbn [Zdigits2]; lia. }
  assert (0 < 2 ^ k) by (apply Z.pow_pos_nonneg; lia).
  apply Zdigits2_unique; [lia|].
  replace (Zdigits2 Q + k - 1) with (Zdigits2 Q - 1 + k) by lia.
  rewrite !Z.pow_add_r by lia. split.
  - apply Z.mul_le_mono_nonneg_r; lia.
  - apply Z.mul_lt_mono_pos_r; lia.
Qed.

Lemma pos_iter_xO m d : Z.pos (Pos.iter xO m d) = Z.pos m * 2 ^ Z.pos d.
Proof.
  induction d as [|d IH] using Pos.peano_ind.
  - cbn [Pos.iter]. lia.
  - rewrite Pos.iter_succ, Pos2Z.inj_xO, IH, Pos2Z.inj_succ, Z.pow_succ_r by lia. lia.
Qed.

Lemma shl_align_spec mx ex ex' :
  ex' <= ex ->
  Z.pos (shl_align mx ex ex').1 = Z.pos mx * 2 ^ (ex - ex')
  /\ (shl_align mx ex ex').2 = ex'.
Proof.
  intros H. unfold shl_align. destruct (ex' - ex) as [|d|d] eqn:Hd; cbn [fst snd].
  - replace (ex - ex') with 0 by lia. split; lia.
  - lia.
  - rewrite pos_iter_xO. replace (ex - ex') with (Z.pos d) by lia. split; reflexivity.
Qed.

Lemma shl_align_nop mx ex ex' : ex <= ex' -> shl_align mx ex ex' = (mx, ex).
Proof.
  intros H. unfold shl_align. destruct (ex' - ex) as [|d|d] eqn:Hd; try reflexivity. lia.
Qed.

(** A number that binary64 represents is its own rounding: [M * 2 ^ e] with
    the canonical representation [m * 2 ^ E]. *)
Lemma binary_normalize_exact M e m E :
  0 < M -> 0 < m < 2 ^ 53 ->
  fexp prec emax (Zdigits2 m + E) = E -> E < 971 ->
  (E <= e -> M * 2 ^ (e - E) = m) ->
  (e <= E -> M = m * 2 ^ (E - e)) ->
  binary_normalize prec emax M e false = S754_finite false (Z.to_pos m) E.
Proof.
  intros HM Hm Hcanon HE Hup Hdown.
  assert (HD : Zdigits2 M + e = Zdigits2 m + E).
  { destruct (Z_le_gt_dec E e) as [Hle|Hgt].
    - rewrite <- (Hup Hle), Zdigits2_mul_pow2 by lia. lia.
    - rewrite (Hdown ltac:(lia)), Zdigits2_mul_pow2 by lia. lia. }
  destruct M as [|p|p]; [lia | | lia]. cbn [binary_normalize]. unfold binary_round.
  change (Z.pos (digits2_pos p)) with (Zdigits2 (Z.pos p)). rewrite HD, Hcanon.
  destruct (Z_le_gt_dec E e) as [Hle|Hgt].
  - destruct (shl_align_spec p e E Hle) as [Hs1 Hs2].
    destruct (shl_align p e E) as [mz ez]. cbn [fst snd] in Hs1, Hs2. subst ez.
    rewrite (Hup Hle) in Hs1. cbv beta iota zeta. rewrite Hs1.
    destruct (binary_round_aux_spec false m E loc_Exact)
      as (r & _ & Hex & _ & _ & Heq & _); [lia | lia | lia |].
    rewrite Hcanon, Z.sub_diag in Hex.
    rewrite (Hex eq_refl (Z.mod_1_r m)), Z.div_1_r in Heq.
    rewrite Heq, Hcanon.
    destruct (Z.eqb_spec m 0); [lia|]. destruct (Z.ltb_spec m (2 ^ 53)); [reflexivity | lia].
  - rewrite shl_align_nop by lia. cbv beta iota zeta.
    assert (Hmul : Z.pos p = m * 2 ^ (E - e)) by (apply Hdown; lia).
    assert (0 < 2 ^ (E - e)) by (apply Z.pow_pos_nonneg; lia).
    destruct (binary_round_aux_spec false (Z.pos p) e loc_Exact)
      as (r & _ & Hex & _ & _ & Heq & _);
      [lia | rewrite HD, Hcanon; lia | rewrite HD, Hcanon; lia |].
    rewrite HD, Hcanon in Hex.
    rewrite Hex in Heq; [|reflexivity|rewrite Hmul; apply Z_mod_mult].
    rewrite Heq, HD, Hcanon, Hmul, Z.div_mul by lia.
    destruct (Z.eqb_spec m 0); [lia|]. destruct (Z.ltb_spec m (2 ^ 53)); [reflexivity | lia].
Qed.

End ExactNormalize.

(** *** Subtracting from one *)

Section SubFromOne.

Lemma SFsub_one m e :
  e <= -53 ->
  SF64sub (S754_finite false 4503599627370496 (-52)) (S754_finite false m e)
  = binary_normalize prec emax (2 ^ (- e) - Z.pos m) e false.
Proof.
  intros He. unfold SF64sub, SFsub, cond_Zopp.
  rewrite Z.min_r by lia.
  destruct (shl_align_spec 4503599627370496 (-52) e ltac:(lia)) as [H1 _].
  rewrite H1, (shl_align_nop m e e) by lia. cbn [fst].
  change (Z.pos 4503599627370496) with (2 ^ 52). rewrite <- Z.pow_add_r by lia.
  replace (52 + (-52 - e)) with (- e) by lia. reflexivity.
Qed.

Lemma valid_digits m e :
  valid_binary (S754_finite false m e) = true ->
  fexp prec emax (Zdigits2 (Z.pos m) + e) = e.
Proof.
  cbn [SpecFloat.valid_binary]. unfold bounded, canonical_mantissa.
  intros [Hc _]%andb_prop. apply Z.eqb_eq in Hc. exact Hc.
Qed.

(** For a float [x] from one half up to (not including) one, [1 - x] is
    exact and so is [1 - (1 - x)]. *)
Lemma sub_one_sub_one x m :
  Prim2SF x = S754_finite false m (-53) -> (1 - (1 - x))%float = x.
Proof.
  intros Hx. pose proof (Prim2SF_valid x) as Hv. rewrite Hx in Hv.
  apply valid_digits in Hv. rewrite fexp_eq in Hv.
  assert (Hd : Zdigits2 (Z.pos m) = 53) by lia.
  destruct (Zdigits2_bounds (Z.pos m) ltac:(lia)) as [Hl Hu].
  rewrite Hd in Hl, Hu. change (2 ^ (53 - 1)) with (2 ^ 52) in Hl.
  assert (H5253 : 2 ^ 53 = 2 * 2 ^ 52) by reflexivity.
  remember (2 ^ 53 - Z.pos m) as M eqn:HM.
  assert (HMb : 0 < M < 2 ^ 53) by lia.
  assert (HdM : 0 < Zdigits2 M <= 53).
  { split; [destruct M; cbn [Zdigits2]; lia | apply Zdigits2_le; lia]. }
  remember (53 - Zdigits2 M) as k eqn:Hk.
  assert (Hpk : 0 < 2 ^ k) by (apply Z.pow_pos_nonneg; lia).
  assert (HdMk : Zdigits2 (M * 2 ^ k) = 53) by (rewrite Zdigits2_mul_pow2; lia).
  assert (HMk : 0 < M * 2 ^ k < 2 ^ 53).
  { split; [apply Z.mul_pos_pos; lia|].
    pose proof (Zdigits2_lt (M * 2 ^ k)) as Hlt. rewrite HdMk in Hlt.
    apply Hlt. apply Z.mul_nonneg_nonneg; lia. }
  assert (Hw : Prim2SF (1 - x) = S754_finite false (Z.to_pos (M * 2 ^ k)) (-53 - k)).
  { rewrite sub_spec, Hx.
    change (Prim2SF 1) with (S754_finite false 4503599627370496 (-52)).
    rewrite SFsub_one by lia. change (- -53) with 53. rewrite <- HM.
    apply binary_normalize_exact; try lia.
    - rewrite HdMk, fexp_eq. lia.
    - intros _. replace (-53 - (-53 - k)) with k by lia. reflexivity.
    - intros Hle. assert (Hk0 : k = 0) by lia. rewrite Hk0.
      replace (-53 - 0 - -53) with 0 by lia. rewrite !Z.pow_0_r. lia. }
  apply Prim2SF_inj. rewrite sub_spec, Hw, Hx.
  change (Prim2SF 1) with (S754_finite false 4503599627370496 (-52)).
  rewrite SFsub_one by lia.
  replace (2 ^ (- (-53 - k)) - Z.pos (Z.to_pos (M * 2 ^ k))) with (Z.pos m * 2 ^ k).
  2:{ rewrite Z2Pos.id by lia. replace (- (-53 - k)) with (53 + k) by lia.
      rewrite Z.pow_add_r by lia. lia. }
  change (S754_finite false m (-53))
    with (S754_finite false (Z.to_pos (Z.pos m)) (-53)).
  apply binary_normalize_exact; try lia.
  - rewrite Hd. reflexivity.
  - intros Hle. assert (Hk0 : k = 0) by lia. rewrite Hk0.
    replace (-53 - 0 - -53) with 0 by lia. rewrite !Z.pow_0_r. lia.
  - intros _. replace (-53 - (-53 - k)) with k by lia. reflexivity.
Qed.

(** For a positive float [x] below one half, [1 - x] is rounded to a
    float from one half up to one. *)
Lemma sub_one_small x m e :
  Prim2SF x = S754_finite false m e -> e <= -53 -> Zdigits2 (Z.pos m) + e <= -1 ->
  (exists r, Prim2SF (1 - x) = S754_finite false r (-53))
  \/ Prim2SF (1 - x) = S754_finite false 4503599627370496 (-52).
Proof.
  intros Hx He Hd. rewrite sub_spec, Hx.
  change (Prim2SF 1) with (S754_finite false 4503599627370496 (-52)).
  rewrite SFsub_one by lia.
  assert (Hm : Z.pos m < 2 ^ (- e - 1)).
  { eapply Z.lt_le_trans; [apply Zdigits2_lt; lia|]. apply Z.pow_le_mono_r; lia. }
  assert (He2 : 2 ^ (- e) = 2 * 2 ^ (- e - 1)).
  { replace (- e) with (1 + (- e - 1)) at 1 by lia. rewrite Z.pow_add_r by lia. reflexivity. }
  remember (2 ^ (- e) - Z.pos m) as M eqn:HM.
  assert (HMb : 2 ^ (- e - 1) <= M < 2 ^ (- e)) by lia.
  assert (HdM : Zdigits2 M = - e) by (apply Zdigits2_unique; lia).
  assert (0 < 2 ^ (- e - 1)) by (apply Z.pow_pos_nonneg; lia).
  destruct M as [|p|p]; [lia | | lia]. cbn [binary_normalize]. unfold binary_round.
  change (Z.pos (digits2_pos p)) with (Zdigits2 (Z.pos p)). rewrite HdM.
  replace (- e + e) with 0 by lia. change (fexp prec emax 0) with (-53).
  rewrite shl_align_nop by lia. cbv beta iota zeta.
  assert (HE : fexp prec emax (Zdigits2 (Z.pos p) + e) = -53).
  { rewrite HdM. replace (- e + e) with 0 by lia. reflexivity. }
  destruct (binary_round_aux_spec false (Z.pos p) e loc_Exact)
    as (r & _ & _ & Hr & Hnorm & Heq & _); [lia | lia | lia |].
  rewrite Heq, HE. specialize (Hnorm ltac:(lia)).
  assert (0 < 2 ^ 52) by reflexivity.
  destruct (Z.eqb_spec r 0); [lia|].
  destruct (Z.ltb_spec r (2 ^ 53)); [left; eexists; reflexivity | right; reflexivity].
Qed.

(** Subtracting a float of the interval from zero to one from one, three
    times, gives the same as subtracting it once. *)
Lemma sub_one_twice q :
  unit_sf (Prim2SF q) -> (1 - (1 - (1 - q)))%float = (1 - q)%float.
Proof.
  intros Hu.
  assert (Hone : forall y, Prim2SF y = S754_finite false 4503599627370496 (-52) ->
                           y = 1%float).
  { intros y Hy. apply Prim2SF_inj. rewrite Hy. reflexivity. }
  assert (H111 : (1 - (1 - 1))%float = 1%float) by reflexivity.
  pose proof (Prim2SF_valid q) as Hv.
  destruct (Prim2SF q) as [s|s| |s m e] eqn:Hq; cbn [unit_sf] in Hu; try contradiction.
  - assert (H1 : (1 - q)%float = 1%float).
    { apply Hone. rewrite sub_spec, Hq. reflexivity. }
    rewrite H1. exact H111.
  - destruct s; [contradiction|]. destruct Hu as [He | [-> ->]].
    + apply valid_digits in Hv. rewrite fexp_eq in Hv.
      destruct (Z.eq_dec (Zdigits2 (Z.pos m) + e) 0) as [H0 | H0].
      * assert (e = -53) by lia. subst e.
        rewrite (sub_one_sub_one q m Hq). reflexivity.
      * destruct (sub_one_small q m e Hq He) as [[r Hr] | Hr]; [lia | |].
        -- apply (sub_one_sub_one _ r Hr).
        -- rewrite (Hone _ Hr). exact H111.
    + rewrite (Hone q Hq). reflexivity.
Qed.

End SubFromOne.

(** *** The quotient of two counts *)

Section Quotient.

Lemma div_eucl_div_mod a b : Z.div_eucl a b = (a / b, a mod b).
Proof. unfold Z.div, Z.modulo. destruct (Z.div_eucl a b); reflexivity. Qed.

Lemma new_location_0 nb : new_location nb 0 = loc_Exact.
Proof.
  unfold new_location, new_location_even, new_location_odd.
  destruct (Z.even nb); reflexivity.
Qed.

Lemma Zdigits2_mono a b : 0 < a <= b -> Zdigits2 a <= Zdigits2 b.
Proof.
  intros H. rewrite !Zdigits2_log2 by lia.
  pose proof (Z.log2_le_mono a b). lia.
Qed.

(** The division of two positive integers, taken as floats with the
    exponent 0, up to the rounding of the quotient. *)
Lemma SFdiv_ints pc pt :
  Z.pos pc <= Z.pos pt ->
  SFdiv prec emax (S754_finite false pc 0) (S754_finite false pt 0)
  = binary_round_aux prec emax false
      (Z.pos pc * 2 ^ (- fexp prec emax (Zdigits2 (Z.pos pc) - Zdigits2 (Z.pos pt)))
       / Z.pos pt)
      (fexp prec emax (Zdigits2 (Z.pos pc) - Zdigits2 (Z.pos pt)))
      (new_location (Z.pos pt)
         ((Z.pos pc * 2 ^ (- fexp prec emax (Zdigits2 (Z.pos pc) - Zdigits2 (Z.pos pt))))
          mod Z.pos pt)).
Proof.
  intros H. unfold SFdiv, SFdiv_core_binary. cbn [xorb].
  rewrite !Z.add_0_r. change (0 - 0) with 0.
  pose proof (Zdigits2_mono (Z.pos pc) (Z.pos pt) ltac:(lia)) as Hd.
  pose proof (fexp_eq (Zdigits2 (Z.pos pc) - Zdigits2 (Z.pos pt))) as He.
  set (e' := fexp prec emax (Zdigits2 (Z.pos pc) - Zdigits2 (Z.pos pt))) in *.
  rewrite Z.min_l by lia. rewrite Z.sub_0_l.
  destruct (- e') as [|s|s] eqn:Hs; try lia.
  rewrite Z.shiftl_mul_pow2 by lia. rewrite div_eucl_div_mod. reflexivity.
Qed.

(** The quotient of a count by a count that is not smaller lies between
    zero and one. *)
Lemma truediv_unit c t :
  0 <= c <= t -> 0 < t -> unit_sf (Prim2SF (truediv c t)).
Proof.
  intros Hc Ht. unfold truediv.
  destruct t as [|pt|pt]; try lia. destruct c as [|pc|pc]; try lia.
  { cbn [SFdiv xorb]. rewrite Prim2SF_SF2Prim by reflexivity. exact I. }
  rewrite SFdiv_ints by lia.
  destruct (Pos.eq_dec pc pt) as [-> | Hne].
  { rewrite Z.sub_diag. change (fexp prec emax 0) with (-53). change (- -53) with 53.
    rewrite (Z.mul_comm (Z.pos pt)), Z.div_mul, Z_mod_mult, new_location_0 by lia.
    change (binary_round_aux prec emax false (2 ^ 53) (-53) loc_Exact)
      with (S754_finite false 4503599627370496 (-52)).
    rewrite Prim2SF_SF2Prim by reflexivity. right. split; reflexivity. }
  assert (Hlt : Z.pos pc < Z.pos pt) by lia.
  pose proof (Zdigits2_mono (Z.pos pc) (Z.pos pt) ltac:(lia)) as Hd.
  destruct (Zdigits2_bounds (Z.pos pc) ltac:(lia)) as [Hcl _].
  pose proof (Zdigits2_lt (Z.pos pt) ltac:(lia)) as Htu.
  assert (Hd1 : 0 < Zdigits2 (Z.pos pc)) by (cbn [Zdigits2]; lia).
  pose proof (fexp_eq (Zdigits2 (Z.pos pc) - Zdigits2 (Z.pos pt))) as He.
  set (d1 := Zdigits2 (Z.pos pc)) in *. set (d2 := Zdigits2 (Z.pos pt)) in *.
  set (e' := fexp prec emax (d1 - d2)) in *.
  remember (- e') as S eqn:HS.
  assert (HpS : 0 < 2 ^ S) by (apply Z.pow_pos_nonneg; lia).
  set (Q := Z.pos pc * 2 ^ S / Z.pos pt).
  assert (HQ0 : 0 <= Q) by (apply Z.div_pos; lia).
  assert (HQu : Q < 2 ^ S).
  { apply Z.div_lt_upper_bound; [lia|]. apply Z.mul_lt_mono_pos_r; lia. }
  assert (HdQ : Zdigits2 Q <= S) by (apply Zdigits2_le; lia).
  assert (Hbig : e' <> -1074 -> 52 < Zdigits2 Q).
  { intros Hn. apply Zdigits2_gt; [|lia].
    apply Z.div_le_lower_bound; [lia|].
    assert (HSeq : S = 52 + d2 - (d1 - 1)) by lia.
    assert (Hp1 : 2 ^ (d1 - 1) * 2 ^ S = 2 ^ d2 * 2 ^ 52).
    { rewrite <- !Z.pow_add_r by lia. f_equal. lia. }
    assert (0 < 2 ^ 52) by reflexivity.
    assert (Z.pos pt * 2 ^ 52 <= 2 ^ d2 * 2 ^ 52)
      by (apply Z.mul_le_mono_nonneg_r; lia).
    assert (2 ^ (d1 - 1) * 2 ^ S <= Z.pos pc * 2 ^ S)
      by (apply Z.mul_le_mono_nonneg_r; lia).
    lia. }
  pose proof (fexp_eq (Zdigits2 Q + e')) as HE.
  destruct (binary_round_aux_spec false Q e'
              (new_location (Z.pos pt) ((Z.pos pc * 2 ^ S) mod Z.pos pt)))
    as (r & _ & _ & Hr & _ & Heq & Hvalid).
  { exact HQ0. }
  { destruct (Z.eq_dec e' (-1074)) as [H0|H0]; [lia|]. specialize (Hbig H0). lia. }
  { lia. }
  rewrite Prim2SF_SF2Prim by exact Hvalid. rewrite Heq.
  destruct (Z.eqb_spec r 0); [exact I|].
  destruct (Z.ltb_spec r (2 ^ 53)); cbn [unit_sf].
  - left. lia.
  - destruct (Z.eq_dec (fexp prec emax (Zdigits2 Q + e') + 1) (-52)) as [H52|H52].
    + right. split; [exact H52 | reflexivity].
    + left. lia.
Qed.

End Quotient.

(** *** The counts of [get_WDER] *)

Lemma score_word_bounds lenient mapping_dict labels arr c w c' :
  score_word lenient mapping_dict labels arr c w = Ok c' -> c <= c' <= c + 1.
Proof.
  unfold score_word.
  destruct (mapping_dict !! speaker_label w) as [est|]; [|intros [= <-]; lia].
  destruct (getitem labels 0) as [l0|]; py_step; [|discriminate].
  destruct (negb _); [intros [= <-]; lia|].
  destruct lenient.
  - destruct (Np.max _) as [mx|]; py_step; [|discriminate].
    destruct (Np.take (Np.where_ _) _) as [idx|]; py_step; [|discriminate].
    destruct (Np.take labels idx) as [sel|]; py_step; [|discriminate].
    destruct (bool_decide _); intros [= <-]; lia.
  - destruct (Np.argmax _) as [i|]; py_step; [|discriminate].
    destruct (getitem (Np.where_ _) i) as [j|]; py_step; [|discriminate].
    destruct (getitem labels j) as [ref|]; py_step; [|discriminate].
    destruct (bool_decide _); intros [= <-]; lia.
Qed.

Lemma score_loop_bounds lenient mapping_dict labels arr ws : forall c c',
  for_each (score_word lenient mapping_dict labels arr) ws c = Ok c' ->
  c <= c' <= c + Z.of_nat (length ws).
Proof.
  induction ws as [|w ws IH]; intros c c'; cbn [for_each].
  - intros [= <-]. cbn [length]. lia.
  - destruct (score_word _ _ _ _ c w) as [c1|] eqn:H1; cbn [bind]; [|discriminate].
    intros H2. apply score_word_bounds in H1. apply IH in H2.
    cbn [length]. lia.
Qed.

Lemma score_utterance_bounds self total_riva_dict DER_result_dict ref_labels_list st ka st' :
  score_utterance self total_riva_dict DER_result_dict ref_labels_list st ka = Ok st' ->
  0 <= grand_correct_word_count st <= grand_total_word_count st ->
  0 <= grand_correct_word_count st' <= grand_total_word_count st'.
Proof.
  unfold score_utterance. destruct ka as [k path].
  destruct (getitem ref_labels_list k) as [labels|]; py_step; [|discriminate].
  destruct (getkey DER_result_dict _) as [der|]; py_step; [|discriminate].
  destruct (mapping der) as [m|]; py_step; [|discriminate].
  destruct (getkey total_riva_dict _) as [riva|]; py_step; [|discriminate].
  destruct (for_each _ (words riva) 0) as [c|] eqn:Hc; py_step; [|discriminate].
  destruct (int_truediv _ _) as [q|]; py_step; [|discriminate].
  intros [= <-] Hb. apply score_loop_bounds in Hc.
  cbn [grand_correct_word_count grand_total_word_count]. lia.
Qed.

(** The total that [get_WDER] returns is one minus the quotient of two
    counts, the first not above the second. *)
Lemma get_WDER_total self audio_file_list total_riva_dict DER_result_dict ref_labels_list
    WDER_dict :
  get_WDER self audio_file_list total_riva_dict DER_result_dict ref_labels_list
  = Ok WDER_dict ->
  exists c t, 0 <= c <= t /\ 0 < t
              /\ WDER_dict !! "total" = Some (1 - truediv c t)%float.
Proof.
  unfold get_WDER.
  destruct (for_each _ (enumerate audio_file_list) _) as [st|] eqn:Hrun; py_step;
    [|discriminate].
  assert (Hb : 0 <= grand_correct_word_count st <= grand_total_word_count st).
  { apply (for_each_enumerate_inv
             (score_utterance self total_riva_dict DER_result_dict ref_labels_list)
             (fun _ st => 0 <= grand_correct_word_count st <= grand_total_word_count st)
             audio_file_list
             {| wder_dict := ∅; grand_total_word_count := 0; grand_correct_word_count := 0 |}
             st); [cbn; lia | | exact Hrun].
    intros k x s s' _ Hs Hstep. exact (score_utterance_bounds _ _ _ _ _ _ _ Hstep Hs). }
  unfold int_truediv.
  destruct (Z.eqb_spec (grand_total_word_count st) 0) as [H0|H0]; py_step; [discriminate|].
  intros [= <-].
  exists (grand_correct_word_count st), (grand_total_word_count st).
  split; [lia|]. split; [lia|]. apply lookup_insert_eq.
Qed.

(** *** The effective WDER *)

Lemma eqb_zero a : (a =? 0)%float = true -> exists s, Prim2SF a = S754_zero s.
Proof.
  rewrite FloatAxioms.eqb_spec. change (Prim2SF 0) with (S754_zero false).
  unfold SFeqb. destruct (Prim2SF a) as [s|s| |s m e]; cbn [SFcompare];
    try discriminate.
  - intros _. exists s. reflexivity.
  - destruct s; discriminate.
  - destruct s; discriminate.
Qed.

Lemma one_minus_zeros a b :
  (a =? 0)%float = true -> (b =? 0)%float = true -> (1 - (a + b))%float = 1%float.
Proof.
  intros [sa Ha]%eqb_zero [sb Hb]%eqb_zero.
  apply Prim2SF_inj. rewrite sub_spec, add_spec, Ha, Hb.
  destruct sa, sb; reflexivity.
Qed.

(** C6: [get_effective_WDER] returns
    [1 - (1 - (FA + MISS)) * (1 - WDER_total)]; with FA = 0 and MISS = 0
    the result is WDER_total itself, exactly, for every WDER_total that is
    one minus the quotient of a count of correct words by a count of words
    that is not smaller, and so for every [WDER_dict] that [get_WDER]
    returns: the two subtractions from one do not round. *)
Theorem effective_WDER_is_WDER_total
    (DER_result_dict : gmap string der_result) (WDER_dict : gmap string float)
    (total : der_result) (WDER_total : float) :
  DER_result_dict !! "total" = Some total ->
  WDER_dict !! "total" = Some WDER_total ->
  get_effective_WDER DER_result_dict WDER_dict
  = Ok (1 - (1 - (FA total + MISS total)) * (1 - WDER_total))%float
  /\ ((FA total =? 0)%float = true -> (MISS total =? 0)%float = true ->
      (forall correct_word_count total_word_count,
          0 <= correct_word_count <= total_word_count -> 0 < total_word_count ->
          WDER_total = (1 - truediv correct_word_count total_word_count)%float ->
          get_effective_WDER DER_result_dict WDER_dict = Ok WDER_total)
      /\ forall self audio_file_list total_riva_dict DER_dict ref_labels_list,
           get_WDER self audio_file_list total_riva_dict DER_dict ref_labels_list
           = Ok WDER_dict ->
           get_effective_WDER DER_result_dict WDER_dict = Ok WDER_total).
Proof.
  intros Ht Hw.
  assert (Heq : get_effective_WDER DER_result_dict WDER_dict
                = Ok (1 - (1 - (FA total + MISS total)) * (1 - WDER_total))%float).
  { unfold get_effective_WDER, getkey. rewrite Ht. py_step. rewrite Hw. reflexivity. }
  split; [exact Heq|]. intros Hfa Hmiss.
  assert (Hcount : forall c t, 0 <= c <= t -> 0 < t ->
            WDER_total = (1 - truediv c t)%float ->
            get_effective_WDER DER_result_dict WDER_dict = Ok WDER_total).
  { intros c t Hc Hpos ->. rewrite Heq, (one_minus_zeros _ _ Hfa Hmiss), mul_1_l.
    rewrite (sub_one_twice _ (truediv_unit c t Hc Hpos)). reflexivity. }
  split; [exact Hcount|].
  intros self audio_file_list total_riva_dict DER_dict ref_labels_list Hrun.
  destruct (get_WDER_total _ _ _ _ _ _ Hrun) as (c & t & Hc & Hpos & Htot).
  apply (Hcount c t Hc Hpos). congruence.
Qed.

Lemma effective_WDER_is_WDER_total_witness :
  get_WDER (__init__ params_plain) ["a.wav"; "b.wav"] two_riva two_der two_refs
  = Ok two_wder
  /\ get_effective_WDER (der_total 0 0) two_wder = Ok 0.25%float.
Proof.
  assert (Hrun : get_WDER (__init__ params_plain) ["a.wav"; "b.wav"] two_riva two_der
                          two_refs = Ok two_wder) by (vm_compute; reflexivity).
  split; [exact Hrun|].
  exact (proj2 (proj2 (effective_WDER_is_WDER_total (der_total 0 0) two_wder
                         (mk_der 0 0 0 0 None) 0.25%float eq_refl eq_refl)
                  eq_refl eq_refl)
           _ _ _ _ _ Hrun).
Defined.

(** The reduction depends on the form of the total: for a float that is
    not one minus such a quotient the two subtractions may round, as for
    the literal 0.1. *)
Remark effective_WDER_of_literal :
  get_effective_WDER (der_total 0 0) (wder_total 0.1) = Ok 0.099999999999999978%float.
Proof. vm_compute. reflexivity. Qed.
